(** * Communication bus of the Agentic AI Dev Toolkit

    A shallow embedding of [src/core/communication_bus.py] (classes
    [MessageQueue] and [CommunicationBus]), of the [Message] dataclass and
    of the task slots of the [Agent] dataclass of [src/core/models.py],
    with the properties of the bus that the specification states and
    further properties of the queue, the bus and the agents.

    Conventions of the embedding.
    - Python integers are [Z]; the queue's insertion counter, which starts
      at 0 and is only ever incremented, is a [nat].
    - Instants are integers counting microseconds (the resolution of
      [datetime]).  [Message.timestamp] holds the instant its ISO string
      denotes, and every operation that reads [datetime.now()] takes the
      reading as its argument [now].
    - Lists used as arrays ([heapq] works on a Python list in place) are
      [list]s with stdpp's lookup [l !! i] and update [<[i:=x]> l].
    - Dictionaries are association lists in insertion order, the order in
      which Python iterates over them.
    - Coroutines are run to completion one after the other: an operation
      of the bus is a function from the state of the bus to its result
      and the next state.

    - What raises is kept: an operation that can raise returns an
      [outcome], the value it returns or the exception it raises.
    - Floating-point numbers are IEEE 754 binary64 values
      ([SpecFloat], with 53 bits of precision), rounded to nearest, ties
      to even, as Python's [float] is.

    A [Message] of the model is a message as the bus itself and
    [Message(...)] with its defaults write it: its timestamp is the instant
    of a naive ISO time ([datetime.now().isoformat()]) and its payload is
    plain data.  What a caller may put there instead (a timestamp with an
    offset or one that is no ISO time, a payload that [json] cannot
    serialise or that cannot be copied) is a [message_form], which
    [send_message_as] takes beside the message.

    Outside the embedding: logging; the rounding of [total_seconds()] in
    [Message.is_expired], where the age is compared with the TTL exactly
    (the float comparison differs only for a TTL beyond 2^34 seconds);
    filters and WebSocket clients that call back into the bus while they
    run.  A callback that sends messages through the bus while it is
    awaited, or that is cancelled, is a [behaviour], which
    [_route_message_as] takes beside the message; where the callbacks do
    neither, it is [_route_message]. *)

From stdpp Require Import base numbers list sorting strings.
From Stdlib Require Import QArith Qpower ZifyNat SpecFloat.

(** Index arithmetic of the heap ([(pos - 1) >> 1], [2*pos + 1]) is linear
    arithmetic with division by a constant. *)
Ltac Zify.zify_post_hook ::= Z.to_euclidean_division_equations.

Local Open Scope Z_scope.

(** ** Generic binary heap: Python's [heapq]

    [heapq.heappush], [heapq.heappop] and [heapq.heapify] with their helpers
    [_siftdown] and [_siftup], as in CPython's [Lib/heapq.py].  The module
    compares items with [<] only; [lt] stands for that comparison. *)

Section Heapq.
Context {A : Type}.
Variable lt : A → A → bool.

(** [item_le a b] is [not (b < a)], the order the heap invariant is stated in. *)
Definition item_le (a b : A) : Prop := lt b a = false.

(** The [while pos > startpos] loop of [_siftdown] followed by
    [heap[pos] = newitem].  [pos] decreases at every turn, so [pos] turns
    are enough for the loop to end. *)
Fixpoint siftdown_loop (fuel : nat) (heap : list A) (startpos pos : nat)
    (newitem : A) : list A :=
  match fuel with
  | O => <[pos:=newitem]> heap
  | S fuel' =>
      if decide (startpos < pos)%nat then
        let parentpos := ((pos - 1) / 2)%nat in
        match heap !! parentpos with
        | Some parent =>
            if lt newitem parent
            then siftdown_loop fuel' (<[pos:=parent]> heap) startpos parentpos newitem
            else <[pos:=newitem]> heap
        | None => <[pos:=newitem]> heap
        end
      else <[pos:=newitem]> heap
  end.

Definition _siftdown (heap : list A) (startpos pos : nat) : list A :=
  match heap !! pos with
  | Some newitem => siftdown_loop pos heap startpos pos newitem
  | None => heap
  end.

(** The index of the smaller child, as [_siftup] chooses it:
    [rightpos < endpos and not heap[childpos] < heap[rightpos]]. *)
Definition smaller_child (heap : list A) (endpos childpos : nat) : nat :=
  let rightpos := (childpos + 1)%nat in
  match heap !! childpos, heap !! rightpos with
  | Some c, Some r =>
      if bool_decide (rightpos < endpos)%nat && negb (lt c r) then rightpos else childpos
  | _, _ => childpos
  end.

(** The [while childpos < endpos] loop of [_siftup]: the smaller child
    moves up until [pos] is a leaf.  Returns the heap and the leaf. *)
Fixpoint siftup_loop (fuel : nat) (heap : list A) (endpos pos : nat)
    : list A * nat :=
  match fuel with
  | O => (heap, pos)
  | S fuel' =>
      let childpos := (2 * pos + 1)%nat in
      if decide (childpos < endpos)%nat then
        let childpos := smaller_child heap endpos childpos in
        match heap !! childpos with
        | Some c => siftup_loop fuel' (<[pos:=c]> heap) endpos childpos
        | None => (heap, pos)
        end
      else (heap, pos)
  end.

Definition _siftup (heap : list A) (pos : nat) : list A :=
  let endpos := length heap in
  let startpos := pos in
  match heap !! pos with
  | Some newitem =>
      let '(heap, pos) := siftup_loop endpos heap endpos pos in
      _siftdown (<[pos:=newitem]> heap) startpos pos
  | None => heap
  end.

Definition heappush (heap : list A) (item : A) : list A :=
  let heap := heap ++ [item] in
  _siftdown heap 0 (length heap - 1).

(** [heappop] on an empty list raises [IndexError]: [None] here. *)
Definition heappop (heap : list A) : option (A * list A) :=
  match last heap with
  | None => None
  | Some lastelt =>
      let heap := removelast heap in
      match heap with
      | returnitem :: _ => Some (returnitem, _siftup (<[0%nat:=lastelt]> heap) 0)
      | [] => Some (lastelt, heap)
      end
  end.

(** [for i in reversed(range(n//2)): _siftup(x, i)], by recursion on the
    number of indices still to visit. *)
Fixpoint heapify_loop (i : nat) (x : list A) : list A :=
  match i with
  | O => x
  | S i' => heapify_loop i' (_siftup x i')
  end.

Definition heapify (x : list A) : list A := heapify_loop (length x / 2)%nat x.

End Heapq.

(** ** Messages ([core/models.py])

    [content] and [metadata] are opaque to the bus.  [ttl] is
    [Optional[int]], in seconds. *)

Record Message := mkMessage {
  msg_id : string;
  sender : string;
  recipient : string;
  content : string;
  message_type : string;
  timestamp : Z;
  metadata : list (string * string);
  priority : Z;
  ttl : option Z
}.

#[global] Instance Message_eq_dec : EqDecision Message.
Proof. solve_decision. Defined.

Definition microseconds_per_second : Z := 1000000.

(** [Message.is_expired].  [not self.ttl] holds when [ttl] is [None] and
    also when it is [0].  Otherwise the age of the message,
    [datetime.now() - created_time], is compared with [ttl] seconds. *)
Definition is_expired (now : Z) (self : Message) : bool :=
  match ttl self with
  | None => false
  | Some t =>
      if bool_decide (t = 0) then false
      else bool_decide (t * microseconds_per_second < now - timestamp self)
  end.

(** The specification's reading of expiry: the TTL of a message has
    elapsed when more than [ttl] seconds separate [now] from its
    timestamp.  A message without TTL has none to elapse. *)
Definition ttl_elapsed (now : Z) (m : Message) : bool :=
  match ttl m with
  | None => false
  | Some t => bool_decide (t * microseconds_per_second < now - timestamp m)
  end.

(** ** Exceptions

    The exceptions that the methods embedded here let through to their
    caller. *)
Inductive exception := ValueError | TypeError | ZeroDivisionError | OverflowError.

Inductive outcome (A : Type) :=
  | Returns (a : A)
  | Raises (e : exception).
Arguments Returns {A} a.
Arguments Raises {A} e.

#[global] Instance outcome_ret : MRet outcome := @Returns.
#[global] Instance outcome_bind : MBind outcome := λ A B f x,
  match x with
  | Returns a => f a
  | Raises e => Raises e
  end.

(** ** Messages as a caller may write them

    [Message.timestamp] is a string.  After the [replace('Z', '+00:00')] of
    the source, [datetime.fromisoformat] reads it as a naive time, as a time
    with a UTC offset (a trailing [Z] is one), or raises [ValueError]. *)
Inductive timestamp_reading :=
  | NaiveTime (t : Z)
  | AwareTime (t : Z)
  | NotIsoFormat.

(** [content] and [metadata] are [Any]: [message.to_dict()] deep-copies
    them, which raises [e] for what cannot be copied, and [json.dumps]
    serialises the copy, which raises for what is not JSON data. *)
Inductive payload_kind :=
  | JsonData
  | CopyableOnly
  | NotCopyable (e : exception).

Record message_form := mkForm {
  created : timestamp_reading;
  payload : payload_kind
}.


(** [Message.is_expired] on a message whose timestamp reads as [created].
    [datetime.now()] is naive: subtracting a time with an offset from it
    raises [TypeError]. *)
Definition is_expired_as (now : Z) (self : Message) (created : timestamp_reading)
    : outcome bool :=
  match ttl self with
  | None => Returns false
  | Some t =>
      if bool_decide (t = 0) then Returns false
      else
        match created with
        | NotIsoFormat => Raises ValueError
        | AwareTime _ => Raises TypeError
        | NaiveTime created_time =>
            Returns (bool_decide (t * microseconds_per_second < now - created_time))
        end
  end.

(** ** Floating point

    Python's [float] is the binary64 format: [prec = 53], [emax = 1024]. *)
Definition float : Type := spec_float.

(** [float(n)], the conversion of the integer operand of [x * n]. *)
Definition float_of_int (n : Z) : float := binary_normalize 53 1024 n 0 false.

Definition int_operand (n : Z) : float :=
  match n with
  | 0 => S754_zero false
  | Z.pos p => S754_finite false p 0
  | Z.neg p => S754_finite true p 0
  end.

(** [a / b] on two integers: the quotient of the integers themselves,
    rounded once; [ZeroDivisionError] for a zero divisor, [OverflowError]
    when the quotient is beyond the largest float. *)
Definition int_truediv (a b : Z) : outcome float :=
  if bool_decide (b = 0) then Raises ZeroDivisionError
  else
    match SFdiv 53 1024 (int_operand a) (int_operand b) with
    | S754_infinity _ => Raises OverflowError
    | q => Returns q
    end.

Definition float_mul (x y : float) : float := SFmul 53 1024 x y.

(** The integer operand of [... * 100]. *)
Definition hundred : float := float_of_int 100.

(** [timedelta.total_seconds()]: the microseconds divided by [10**6]. *)
Definition total_seconds (microseconds : Z) : outcome float :=
  int_truediv microseconds microseconds_per_second.

(** The rational a finite float stands for. *)
Definition float_value (x : float) : option Q :=
  match x with
  | S754_zero _ => Some 0%Q
  | S754_finite s m e => Some (inject_Z (cond_Zopp s (Z.pos m)) * Qpower 2 e)%Q
  | S754_infinity _ | S754_nan => None
  end.

(** [x] is finite and at most [k * 2^j] in magnitude; [x] is not
    negative. *)
Definition float_within (x : float) (k j : Z) : Prop :=
  match x with
  | S754_zero _ => True
  | S754_finite _ m e => e ≤ j ∧ Z.pos m ≤ k * 2 ^ (j - e)
  | S754_infinity _ | S754_nan => False
  end.

Definition float_nonneg (x : float) : Prop :=
  match x with
  | S754_finite s _ _ => s = false
  | _ => True
  end.

(** ** The priority queue ([class MessageQueue]) *)

(** The heap holds tuples [(priority, counter, message)]. *)
Definition entry : Type := Z * nat * Message.

Definition entry_key (e : entry) : Z := e.1.1.
Definition entry_counter (e : entry) : nat := e.1.2.
Definition entry_message (e : entry) : Message := e.2.

(** Python's [<] on these tuples: the first component that differs
    decides.  Two tuples with the same priority and counter would have
    their messages compared; no two entries of a queue share a counter
    (lemma [queue_counters_NoDup]), so that comparison is never reached. *)
Definition entry_lt (a b : entry) : bool :=
  if negb (entry_key a =? entry_key b) then entry_key a <? entry_key b
  else if negb (entry_counter a =? entry_counter b)%nat
  then (entry_counter a <? entry_counter b)%nat
  else false.

Record MessageQueue := mkMessageQueue {
  max_size : Z;
  _queue : list entry;
  _counter : nat;
  _size : Z
}.

(** [MessageQueue.__init__] *)
Definition MessageQueue_init (max_size : Z) : MessageQueue :=
  {| max_size := max_size; _queue := []; _counter := 0; _size := 0 |}.

Definition put (self : MessageQueue) (message : Message) : bool * MessageQueue :=
  if bool_decide (max_size self ≤ _size self) then (false, self)
  else
    let priority := - priority message in
    (true,
     {| max_size := max_size self;
        _queue := heappush entry_lt (_queue self) (priority, _counter self, message);
        _counter := S (_counter self);
        _size := _size self + 1 |}).

(** [heappop] cannot raise after the emptiness test; its [None] branch is
    there for totality. *)
Definition get (self : MessageQueue) : option Message * MessageQueue :=
  match _queue self with
  | [] => (None, self)
  | _ :: _ =>
      match heappop entry_lt (_queue self) with
      | Some ((_, _, message), heap) =>
          (Some message,
           {| max_size := max_size self;
              _queue := heap;
              _counter := _counter self;
              _size := _size self - 1 |})
      | None => (None, self)
      end
  end.

Definition peek (self : MessageQueue) : option Message :=
  entry_message <$> _queue self !! 0%nat.

Definition size (self : MessageQueue) : Z := _size self.

Definition is_full (self : MessageQueue) : bool :=
  bool_decide (max_size self ≤ _size self).

(** The [for priority, counter, message in self._queue] loop of
    [clear_expired]: the state is [(expired_count, new_queue)]. *)
Definition clear_expired_loop (now : Z) (queue : list entry) : Z * list entry :=
  foldl (λ '(expired_count, new_queue) e,
           if is_expired now (entry_message e)
           then (expired_count + 1, new_queue)
           else (expired_count, new_queue ++ [e]))
        (0, []) queue.

Definition clear_expired (now : Z) (self : MessageQueue) : Z * MessageQueue :=
  match _queue self with
  | [] => (0, self)
  | _ =>
      let '(expired_count, new_queue) := clear_expired_loop now (_queue self) in
      (expired_count,
       {| max_size := max_size self;
          _queue := heapify entry_lt new_queue;
          _counter := _counter self;
          _size := Z.of_nat (length new_queue) |})
  end.

(** Successive calls: [puts] inserts the messages of a list one after the
    other, [gets n] calls [get] [n] times and collects what it returns. *)
Definition puts (q : MessageQueue) (ms : list Message) : MessageQueue :=
  foldl (λ q m, (put q m).2) q ms.

Fixpoint gets (n : nat) (q : MessageQueue) : list (option Message) * MessageQueue :=
  match n with
  | O => ([], q)
  | S n =>
      let '(r, q) := get q in
      let '(rs, q) := gets n q in
      (r :: rs, q)
  end.

(** As many [get] calls as the queue holds entries. *)
Definition get_all (q : MessageQueue) : list (option Message) :=
  (gets (length (_queue q)) q).1.

(** Calls of a queue's methods, to speak of the queues a program can
    build. *)
Inductive queue_call :=
  | CallPut (message : Message)
  | CallGet
  | CallClearExpired (now : Z).

Definition queue_do (q : MessageQueue) (c : queue_call) : MessageQueue :=
  match c with
  | CallPut message => (put q message).2
  | CallGet => (get q).2
  | CallClearExpired now => (clear_expired now q).2
  end.

Definition queue_after (max_size : Z) (calls : list queue_call) : MessageQueue :=
  foldl queue_do (MessageQueue_init max_size) calls.

(** ** Dictionaries

    A Python [dict] with string keys: pairs in insertion order, no key
    twice.  Assigning to a key that is present keeps its position. *)

Section Dict.
Context {V : Type}.

Fixpoint dict_get (d : list (string * V)) (k : string) : option V :=
  match d with
  | [] => None
  | (k', v) :: d => if decide (k' = k) then Some v else dict_get d k
  end.

(** [k in d] *)
Definition dict_in (k : string) (d : list (string * V)) : bool :=
  bool_decide (is_Some (dict_get d k)).

(** [d[k] = v] *)
Fixpoint dict_set (d : list (string * V)) (k : string) (v : V) : list (string * V) :=
  match d with
  | [] => [(k, v)]
  | (k', v') :: d =>
      if decide (k' = k) then (k, v) :: d else (k', v') :: dict_set d k v
  end.

(** [del d[k]] *)
Fixpoint dict_del (d : list (string * V)) (k : string) : list (string * V) :=
  match d with
  | [] => []
  | (k', v') :: d => if decide (k' = k) then d else (k', v') :: dict_del d k
  end.

(** [d.keys()] *)
Definition dict_keys (d : list (string * V)) : list string := d.*1.

End Dict.

(** ** The bus ([class CommunicationBus]) *)

(** What a call of a registered filter does: return a true value, return a
    false value, or raise. *)
Inductive filter_outcome := FilterTrue | FilterFalse | FilterRaises.

Definition message_filter : Type := Message → filter_outcome.

(** A subscriber's callback, awaited on a message: [true] when it
    completes, [false] when it raises. *)
Definition callback : Type := Message → bool.

(** A WebSocket client: [send_text] on the notification of a message
    completes ([true]) or raises ([false]). *)
Record websocket_client := mkClient {
  client_id : nat;
  send_text : Message → bool
}.

Record Metrics := mkMetrics {
  messages_sent : Z;
  messages_delivered : Z;
  messages_failed : Z;
  messages_expired : Z;
  total_subscribers : Z;
  websocket_connections : Z;
  start_time : Z;
  last_message_time : option Z
}.

Record CommunicationBus := mkBus {
  message_queue : MessageQueue;
  subscribers : list (string * callback);
  message_history : list Message;
  running : bool;
  websocket_clients : list websocket_client;
  routing_rules : list string;
  message_filters : list message_filter;
  failed_deliveries : list (string * list Message);
  metrics : Metrics
}.

Definition history_maxlen : Z := 10000.

(** [CommunicationBus.__init__], with [settings.message_queue_size]. *)
Definition CommunicationBus_init (now : Z) (message_queue_size : Z) : CommunicationBus :=
  {| message_queue := MessageQueue_init message_queue_size;
     subscribers := [];
     message_history := [];
     running := false;
     websocket_clients := [];
     routing_rules := [];
     message_filters := [];
     failed_deliveries := [];
     metrics := {| messages_sent := 0; messages_delivered := 0;
                   messages_failed := 0; messages_expired := 0;
                   total_subscribers := 0; websocket_connections := 0;
                   start_time := now; last_message_time := None |} |}.

(** Field updates. *)
Definition with_queue (b : CommunicationBus) (q : MessageQueue) : CommunicationBus :=
  {| message_queue := q; subscribers := subscribers b;
     message_history := message_history b; running := running b;
     websocket_clients := websocket_clients b; routing_rules := routing_rules b;
     message_filters := message_filters b;
     failed_deliveries := failed_deliveries b; metrics := metrics b |}.

Definition with_subscribers (b : CommunicationBus) (s : list (string * callback))
    : CommunicationBus :=
  {| message_queue := message_queue b; subscribers := s;
     message_history := message_history b; running := running b;
     websocket_clients := websocket_clients b; routing_rules := routing_rules b;
     message_filters := message_filters b;
     failed_deliveries := failed_deliveries b; metrics := metrics b |}.

Definition with_history (b : CommunicationBus) (h : list Message) : CommunicationBus :=
  {| message_queue := message_queue b; subscribers := subscribers b;
     message_history := h; running := running b;
     websocket_clients := websocket_clients b; routing_rules := routing_rules b;
     message_filters := message_filters b;
     failed_deliveries := failed_deliveries b; metrics := metrics b |}.

Definition with_clients (b : CommunicationBus) (c : list websocket_client)
    : CommunicationBus :=
  {| message_queue := message_queue b; subscribers := subscribers b;
     message_history := message_history b; running := running b;
     websocket_clients := c; routing_rules := routing_rules b;
     message_filters := message_filters b;
     failed_deliveries := failed_deliveries b; metrics := metrics b |}.

Definition with_failed (b : CommunicationBus) (f : list (string * list Message))
    : CommunicationBus :=
  {| message_queue := message_queue b; subscribers := subscribers b;
     message_history := message_history b; running := running b;
     websocket_clients := websocket_clients b; routing_rules := routing_rules b;
     message_filters := message_filters b;
     failed_deliveries := f; metrics := metrics b |}.

Definition with_metrics (b : CommunicationBus) (m : Metrics) : CommunicationBus :=
  {| message_queue := message_queue b; subscribers := subscribers b;
     message_history := message_history b; running := running b;
     websocket_clients := websocket_clients b; routing_rules := routing_rules b;
     message_filters := message_filters b;
     failed_deliveries := failed_deliveries b; metrics := m |}.

Definition with_running (b : CommunicationBus) (r : bool) : CommunicationBus :=
  {| message_queue := message_queue b; subscribers := subscribers b;
     message_history := message_history b; running := r;
     websocket_clients := websocket_clients b; routing_rules := routing_rules b;
     message_filters := message_filters b;
     failed_deliveries := failed_deliveries b; metrics := metrics b |}.

Definition set_messages_sent (m : Metrics) (v : Z) : Metrics :=
  {| messages_sent := v; messages_delivered := messages_delivered m;
     messages_failed := messages_failed m; messages_expired := messages_expired m;
     total_subscribers := total_subscribers m;
     websocket_connections := websocket_connections m;
     start_time := start_time m; last_message_time := last_message_time m |}.

Definition set_messages_delivered (m : Metrics) (v : Z) : Metrics :=
  {| messages_sent := messages_sent m; messages_delivered := v;
     messages_failed := messages_failed m; messages_expired := messages_expired m;
     total_subscribers := total_subscribers m;
     websocket_connections := websocket_connections m;
     start_time := start_time m; last_message_time := last_message_time m |}.

Definition set_messages_failed (m : Metrics) (v : Z) : Metrics :=
  {| messages_sent := messages_sent m; messages_delivered := messages_delivered m;
     messages_failed := v; messages_expired := messages_expired m;
     total_subscribers := total_subscribers m;
     websocket_connections := websocket_connections m;
     start_time := start_time m; last_message_time := last_message_time m |}.

Definition set_messages_expired (m : Metrics) (v : Z) : Metrics :=
  {| messages_sent := messages_sent m; messages_delivered := messages_delivered m;
     messages_failed := messages_failed m; messages_expired := v;
     total_subscribers := total_subscribers m;
     websocket_connections := websocket_connections m;
     start_time := start_time m; last_message_time := last_message_time m |}.

Definition set_total_subscribers (m : Metrics) (v : Z) : Metrics :=
  {| messages_sent := messages_sent m; messages_delivered := messages_delivered m;
     messages_failed := messages_failed m; messages_expired := messages_expired m;
     total_subscribers := v;
     websocket_connections := websocket_connections m;
     start_time := start_time m; last_message_time := last_message_time m |}.

Definition set_websocket_connections (m : Metrics) (v : Z) : Metrics :=
  {| messages_sent := messages_sent m; messages_delivered := messages_delivered m;
     messages_failed := messages_failed m; messages_expired := messages_expired m;
     total_subscribers := total_subscribers m;
     websocket_connections := v;
     start_time := start_time m; last_message_time := last_message_time m |}.

Definition set_last_message_time (m : Metrics) (v : option Z) : Metrics :=
  {| messages_sent := messages_sent m; messages_delivered := messages_delivered m;
     messages_failed := messages_failed m; messages_expired := messages_expired m;
     total_subscribers := total_subscribers m;
     websocket_connections := websocket_connections m;
     start_time := start_time m; last_message_time := v |}.

(** [_apply_filters]: the first filter that returns a false value rejects
    the message; a filter that raises is logged and the loop goes on. *)
Fixpoint apply_filters_loop (filters : list message_filter) (message : Message) : bool :=
  match filters with
  | [] => true
  | filter_func :: filters =>
      match filter_func message with
      | FilterFalse => false
      | FilterTrue | FilterRaises => apply_filters_loop filters message
      end
  end.

Definition _apply_filters (self : CommunicationBus) (message : Message) : bool :=
  apply_filters_loop (message_filters self) message.

(** [self.message_history.append(message)] on a [deque(maxlen=10000)]. *)
Definition history_append (h : list Message) (message : Message) : list Message :=
  if bool_decide (history_maxlen ≤ Z.of_nat (length h))
  then drop 1 h ++ [message]
  else h ++ [message].

(** [_notify_websocket_clients]: clients whose [send_text] raises are
    removed. *)
Definition _notify_websocket_clients (self : CommunicationBus) (message : Message)
    : CommunicationBus :=
  match websocket_clients self with
  | [] => self
  | clients =>
      let remaining := filter (λ c, send_text c message = true) clients in
      with_metrics (with_clients self remaining)
        (set_websocket_connections (metrics self) (Z.of_nat (length remaining)))
  end.

Definition send_message (now : Z) (self : CommunicationBus) (message : Message)
    : bool * CommunicationBus :=
  if negb (_apply_filters self message) then (false, self)
  else if is_expired now message then
    (false,
     with_metrics self
       (set_messages_expired (metrics self) (messages_expired (metrics self) + 1)))
  else
    match put (message_queue self) message with
    | (false, _) => (false, self)
    | (true, q) =>
        let self := with_queue self q in
        let self :=
          with_metrics self
            (set_last_message_time
               (set_messages_sent (metrics self) (messages_sent (metrics self) + 1))
               (Some now)) in
        let self := with_history self (history_append (message_history self) message) in
        let self := _notify_websocket_clients self message in
        (true, self)
    end.

(** [_notify_websocket_clients] for a message of any payload.  The
    notification is built before the loop, outside every [try]:
    [message.to_dict()] raises for a payload that cannot be copied.  In the
    loop [json.dumps] is inside the [try] with [send_text]: for a payload
    that is not JSON data it raises for every client, and every client is
    removed. *)
Definition _notify_websocket_clients_as (self : CommunicationBus) (message : Message)
    (payload : payload_kind) : outcome unit * CommunicationBus :=
  match websocket_clients self with
  | [] => (Returns (), self)
  | _ :: _ =>
      match payload with
      | NotCopyable e => (Raises e, self)
      | CopyableOnly =>
          (Returns (),
           with_metrics (with_clients self []) (set_websocket_connections (metrics self) 0))
      | JsonData => (Returns (), _notify_websocket_clients self message)
      end
  end.

(** [send_message] for a message of any form.  Nothing in the method
    catches what [is_expired] or [_notify_websocket_clients] raise; when
    the latter raises, the message is already queued and counted. *)
Definition send_message_as (now : Z) (self : CommunicationBus) (message : Message)
    (form : message_form) : outcome bool * CommunicationBus :=
  if negb (_apply_filters self message) then (Returns false, self)
  else
    match is_expired_as now message (created form) with
    | Raises e => (Raises e, self)
    | Returns true =>
        (Returns false,
         with_metrics self
           (set_messages_expired (metrics self) (messages_expired (metrics self) + 1)))
    | Returns false =>
        match put (message_queue self) message with
        | (false, _) => (Returns false, self)
        | (true, q) =>
            let self := with_queue self q in
            let self :=
              with_metrics self
                (set_last_message_time
                   (set_messages_sent (metrics self) (messages_sent (metrics self) + 1))
                   (Some now)) in
            let self := with_history self (history_append (message_history self) message) in
            match _notify_websocket_clients_as self message (payload form) with
            | (Raises e, self) => (Raises e, self)
            | (Returns _, self) => (Returns true, self)
            end
        end
    end.

(** [subscribe]; [fresh_id] is the identifier [uuid4] gives the welcome
    message.  Every [callback] of the model is a coroutine function. *)
Definition subscribe (now : Z) (fresh_id : string) (self : CommunicationBus)
    (agent_id : string) (cb : callback) : CommunicationBus :=
  let self := with_subscribers self (dict_set (subscribers self) agent_id cb) in
  let self :=
    with_metrics self
      (set_total_subscribers (metrics self) (Z.of_nat (length (subscribers self)))) in
  let welcome :=
    {| msg_id := fresh_id; sender := "communication_bus"; recipient := agent_id;
       content := "subscribed"; message_type := "status_update";
       timestamp := now; metadata := []; priority := 1; ttl := None |} in
  (send_message now self welcome).2.

Definition unsubscribe (self : CommunicationBus) (agent_id : string) : CommunicationBus :=
  if dict_in agent_id (subscribers self) then
    let self := with_subscribers self (dict_del (subscribers self) agent_id) in
    let self :=
      with_metrics self
        (set_total_subscribers (metrics self) (Z.of_nat (length (subscribers self)))) in
    if dict_in agent_id (failed_deliveries self)
    then with_failed self (dict_del (failed_deliveries self) agent_id)
    else self
  else self.

(** [_get_group_members]: the placeholder of the source. *)
Definition _get_group_members (self : CommunicationBus) (group_name : string) : list string :=
  [].

Definition _determine_recipients (self : CommunicationBus) (message : Message) : list string :=
  if decide (recipient message = "broadcast") then
    filter (λ agent_id, agent_id ≠ sender message) (dict_keys (subscribers self))
  else if String.prefix "group:" (recipient message) then
    let group_name := String.substring 6 (String.length (recipient message) - 6) (recipient message) in
    _get_group_members self group_name
  else
    if dict_in (recipient message) (subscribers self) then [recipient message] else [].

(** The copy of the message handed to one recipient. *)
Definition delivery_message (recipient : string) (message : Message) : Message :=
  {| msg_id := msg_id message; sender := sender message; recipient := recipient;
     content := content message; message_type := message_type message;
     timestamp := timestamp message; metadata := metadata message;
     priority := priority message; ttl := ttl message |}.

(** [self.failed_deliveries[recipient].append(message)] on a
    [defaultdict(list)]. *)
Definition failed_append (failed : list (string * list Message)) (recipient : string)
    (message : Message) : list (string * list Message) :=
  dict_set failed recipient (default [] (dict_get failed recipient) ++ [message]).

Definition _deliver_to_subscriber (self : CommunicationBus) (recipient : string)
    (message : Message) : bool * CommunicationBus :=
  match dict_get (subscribers self) recipient with
  | None => (false, self)
  | Some cb =>
      if cb (delivery_message recipient message) then (true, self)
      else (false, with_failed self (failed_append (failed_deliveries self) recipient message))
  end.

(** [asyncio.gather] over the delivery tasks: the results in the order of
    the tasks. *)
Fixpoint gather_deliveries (self : CommunicationBus) (recipients : list string)
    (message : Message) : list bool * CommunicationBus :=
  match recipients with
  | [] => ([], self)
  | recipient :: recipients =>
      let '(r, self) := _deliver_to_subscriber self recipient message in
      let '(rs, self) := gather_deliveries self recipients message in
      (r :: rs, self)
  end.

(** [_route_message].  Nothing in the body raises in this model, so the
    [except] branch is not taken. *)
Definition _route_message (self : CommunicationBus) (message : Message) : CommunicationBus :=
  let recipients := _determine_recipients self message in
  let delivery_tasks :=
    filter (λ recipient, dict_in recipient (subscribers self) = true) recipients in
  match delivery_tasks with
  | [] => self
  | _ =>
      let '(results, self) := gather_deliveries self delivery_tasks message in
      let successful_deliveries := Z.of_nat (length (filter (λ r, r = true) results)) in
      let failed_deliveries := Z.of_nat (length results) - successful_deliveries in
      with_metrics self
        (set_messages_failed
           (set_messages_delivered (metrics self)
              (messages_delivered (metrics self) + successful_deliveries))
           (messages_failed (metrics self) + failed_deliveries))
  end.

(** One turn of the loop of [_process_messages]. *)
Definition process_one (self : CommunicationBus) : CommunicationBus :=
  match get (message_queue self) with
  | (Some message, q) => _route_message (with_queue self q) message
  | (None, _) => self
  end.

(** ** Callbacks that use the bus

    A callback is a coroutine of the caller.  While it is awaited it may
    send messages through the bus that delivers to it (the handler of the
    agent manager answers a task this way), and it may end with
    [CancelledError], which is no [Exception]: [_deliver_to_subscriber]
    does not catch it, and [asyncio.gather(..., return_exceptions=True)]
    hands it back as the result of the task. *)
Inductive ending := Completes | RaisesException | IsCancelled.

#[global] Instance ending_eq_dec : EqDecision ending.
Proof. solve_decision. Defined.

Record callback_run := mkRun {
  sends : list Message;
  ends : ending
}.

(** What the callback of each address does with the message delivered to
    it. *)
Definition behaviour : Type := string → Message → callback_run.

Definition callback_ends (runs : behaviour) (message : Message) (recipient : string)
    : ending :=
  ends (runs recipient (delivery_message recipient message)).

Definition callback_sends (runs : behaviour) (message : Message) (recipient : string)
    : list Message :=
  sends (runs recipient (delivery_message recipient message)).

(** The callbacks of the subscribers of [self] as they are elsewhere in
    this file: they send nothing, and complete or raise an [Exception]. *)
Definition plain_behaviour (self : CommunicationBus) : behaviour :=
  λ recipient message,
    {| sends := [];
       ends := match dict_get (subscribers self) recipient with
               | Some cb => if cb message then Completes else RaisesException
               | None => Completes
               end |}.

(** A result of [asyncio.gather] over the delivery tasks: [True], [False]
    or the [CancelledError] of a task. *)
Inductive delivery_result := ResultTrue | ResultFalse | ResultCancelled.

#[global] Instance delivery_result_eq_dec : EqDecision delivery_result.
Proof. solve_decision. Defined.

(** The result of the task of a callback. *)
Definition result_of (e : ending) : delivery_result :=
  match e with
  | Completes => ResultTrue
  | RaisesException => ResultFalse
  | IsCancelled => ResultCancelled
  end.

(** The [send_message] calls of a callback, one after the other. *)
Definition send_each (now : Z) (self : CommunicationBus) (messages : list Message)
    : CommunicationBus :=
  foldl (λ self message, (send_message now self message).2) self messages.

Definition _deliver_to_subscriber_as (now : Z) (runs : behaviour)
    (self : CommunicationBus) (recipient : string) (message : Message)
    : delivery_result * CommunicationBus :=
  match dict_get (subscribers self) recipient with
  | None => (ResultFalse, self)
  | Some _ =>
      let run := runs recipient (delivery_message recipient message) in
      let self := send_each now self (sends run) in
      match ends run with
      | Completes => (ResultTrue, self)
      | RaisesException =>
          (ResultFalse,
           with_failed self (failed_append (failed_deliveries self) recipient message))
      | IsCancelled => (ResultCancelled, self)
      end
  end.

Fixpoint gather_deliveries_as (now : Z) (runs : behaviour) (self : CommunicationBus)
    (recipients : list string) (message : Message)
    : list delivery_result * CommunicationBus :=
  match recipients with
  | [] => ([], self)
  | recipient :: recipients =>
      let '(r, self) := _deliver_to_subscriber_as now runs self recipient message in
      let '(rs, self) := gather_deliveries_as now runs self recipients message in
      (r :: rs, self)
  end.

(** [_route_message] with such callbacks: [sum(1 for r in results if r is
    True)] counts the tasks that returned [True]; every other result, a
    [CancelledError] included, counts as failed. *)
Definition _route_message_as (now : Z) (runs : behaviour) (self : CommunicationBus)
    (message : Message) : CommunicationBus :=
  let recipients := _determine_recipients self message in
  let delivery_tasks :=
    filter (λ recipient, dict_in recipient (subscribers self) = true) recipients in
  match delivery_tasks with
  | [] => self
  | _ =>
      let '(results, self) := gather_deliveries_as now runs self delivery_tasks message in
      let successful_deliveries :=
        Z.of_nat (length (filter (λ r, r = ResultTrue) results)) in
      let failed_deliveries := Z.of_nat (length results) - successful_deliveries in
      with_metrics self
        (set_messages_failed
           (set_messages_delivered (metrics self)
              (messages_delivered (metrics self) + successful_deliveries))
           (messages_failed (metrics self) + failed_deliveries))
  end.

Definition process_one_as (now : Z) (runs : behaviour) (self : CommunicationBus)
    : CommunicationBus :=
  match get (message_queue self) with
  | (Some message, q) => _route_message_as now runs (with_queue self q) message
  | (None, _) => self
  end.

Definition retention_window : Z := 3600 * microseconds_per_second.

(** One turn of the loop of [_cleanup_expired]. *)
Definition cleanup_once (now : Z) (self : CommunicationBus) : CommunicationBus :=
  let '(expired_count, q) := clear_expired now (message_queue self) in
  let self := with_queue self q in
  let self :=
    if bool_decide (0 < expired_count) then
      with_metrics self
        (set_messages_expired (metrics self) (messages_expired (metrics self) + expired_count))
    else self in
  let cutoff_time := now - retention_window in
  with_failed self
    (prod_map id (filter (λ msg, cutoff_time < timestamp msg)) <$> failed_deliveries self).

Definition add_message_filter (self : CommunicationBus) (filter_func : message_filter)
    : CommunicationBus :=
  {| message_queue := message_queue self; subscribers := subscribers self;
     message_history := message_history self; running := running self;
     websocket_clients := websocket_clients self; routing_rules := routing_rules self;
     message_filters := message_filters self ++ [filter_func];
     failed_deliveries := failed_deliveries self; metrics := metrics self |}.

Definition add_routing_rule (self : CommunicationBus) (rule : string) : CommunicationBus :=
  {| message_queue := message_queue self; subscribers := subscribers self;
     message_history := message_history self; running := running self;
     websocket_clients := websocket_clients self;
     routing_rules := routing_rules self ++ [rule];
     message_filters := message_filters self;
     failed_deliveries := failed_deliveries self; metrics := metrics self |}.

(** [websocket_clients] is a set: a client is in it once, whatever the
    order. *)
Definition add_websocket_client (self : CommunicationBus) (client : websocket_client)
    : CommunicationBus :=
  let clients :=
    if bool_decide (client_id client ∈ client_id <$> websocket_clients self)
    then websocket_clients self
    else websocket_clients self ++ [client] in
  with_metrics (with_clients self clients)
    (set_websocket_connections (metrics self) (Z.of_nat (length clients))).

Definition remove_websocket_client (self : CommunicationBus) (client : websocket_client)
    : CommunicationBus :=
  let clients :=
    filter (λ c, client_id c ≠ client_id client) (websocket_clients self) in
  with_metrics (with_clients self clients)
    (set_websocket_connections (metrics self) (Z.of_nat (length clients))).

(** The loop [for message in failed_msgs] of [retry_failed_deliveries]. *)
Fixpoint retry_messages (now : Z) (self : CommunicationBus) (failed_msgs : list Message)
    (retry_count : Z) : Z * CommunicationBus :=
  match failed_msgs with
  | [] => (retry_count, self)
  | message :: failed_msgs =>
      if negb (is_expired now message) then
        let '(success, self) := send_message now self message in
        retry_messages now self failed_msgs (if success then retry_count + 1 else retry_count)
      else retry_messages now self failed_msgs retry_count
  end.

(** The loop [for aid in agents_to_retry]. *)
Fixpoint retry_agents (now : Z) (self : CommunicationBus) (agents_to_retry : list string)
    (retry_count : Z) : Z * CommunicationBus :=
  match agents_to_retry with
  | [] => (retry_count, self)
  | aid :: agents_to_retry =>
      match dict_get (failed_deliveries self) aid with
      | None => retry_agents now self agents_to_retry retry_count
      | Some failed_msgs =>
          let self := with_failed self (dict_set (failed_deliveries self) aid []) in
          let '(retry_count, self) := retry_messages now self failed_msgs retry_count in
          retry_agents now self agents_to_retry retry_count
      end
  end.

(** [agents_to_retry = [agent_id] if agent_id else
    list(self.failed_deliveries.keys())]: the empty string counts as an
    omitted argument, as [None] does. *)
Definition agents_to_retry (self : CommunicationBus) (agent_id : option string)
    : list string :=
  match agent_id with
  | Some a => if decide (a = "") then dict_keys (failed_deliveries self) else [a]
  | None => dict_keys (failed_deliveries self)
  end.

(** [retry_failed_deliveries(agent_id=None)] *)
Definition retry_failed_deliveries (now : Z) (self : CommunicationBus)
    (agent_id : option string) : Z * CommunicationBus :=
  retry_agents now self (agents_to_retry self agent_id) 0.

(** The snapshot [get_statistics] returns: the metrics ([**self.metrics])
    and the figures computed at the call. *)
Record Statistics := mkStatistics {
  stat_metrics : Metrics;
  uptime_seconds : float;
  queue_size : Z;
  queue_capacity : Z;
  queue_utilization : float;
  history_size : Z;
  active_subscribers : Z;
  failed_delivery_queues : Z;
  stat_message_filters : Z;
  stat_routing_rules : Z;
  success_rate : float
}.

(** The dictionary that [get_statistics] builds, its entries evaluated in
    the order of the source: [size / max_size] raises [ZeroDivisionError]
    when the capacity is 0. *)
Definition statistics (now : Z) (self : CommunicationBus) : outcome Statistics :=
  uptime ← total_seconds (now - start_time (metrics self));
  utilization ← int_truediv (size (message_queue self)) (max_size (message_queue self));
  rate ← int_truediv (messages_delivered (metrics self))
                     (Z.max 1 (messages_sent (metrics self)));
  mret {| stat_metrics := metrics self;
          uptime_seconds := uptime;
          queue_size := size (message_queue self);
          queue_capacity := max_size (message_queue self);
          queue_utilization := float_mul utilization hundred;
          history_size := Z.of_nat (length (message_history self));
          active_subscribers := Z.of_nat (length (subscribers self));
          failed_delivery_queues := Z.of_nat (length (failed_deliveries self));
          stat_message_filters := Z.of_nat (length (message_filters self));
          stat_routing_rules := Z.of_nat (length (routing_rules self));
          success_rate := float_mul rate hundred |}.

(** [get_statistics]: the method is given the state and gives it back,
    also when it raises. *)
Definition get_statistics (now : Z) (self : CommunicationBus)
    : outcome Statistics * CommunicationBus :=
  (statistics now self, self).

(** ** Runs of the bus

    What a program does with a bus: calls of its methods, and turns of the
    two background loops, which run while [running] is set.  Each comes
    with the reading of the clock at that moment. *)
Inductive bus_call :=
  | CallStart
  | CallStop
  | CallSubscribe (fresh_id agent_id : string) (cb : callback)
  | CallUnsubscribe (agent_id : string)
  | CallSend (message : Message)
  | CallProcess
  | CallCleanup
  | CallRetry (agent_id : option string)
  | CallAddFilter (filter_func : message_filter)
  | CallAddRule (rule : string)
  | CallAddClient (client : websocket_client)
  | CallRemoveClient (client : websocket_client)
  | CallGetStatistics.

Definition bus_do (b : CommunicationBus) (c : Z * bus_call) : CommunicationBus :=
  let now := c.1 in
  match c.2 with
  | CallStart => with_running b true
  | CallStop => with_running b false
  | CallSubscribe fresh_id agent_id cb => subscribe now fresh_id b agent_id cb
  | CallUnsubscribe agent_id => unsubscribe b agent_id
  | CallSend message => (send_message now b message).2
  | CallProcess => if running b then process_one b else b
  | CallCleanup => if running b then cleanup_once now b else b
  | CallRetry agent_id => (retry_failed_deliveries now b agent_id).2
  | CallAddFilter filter_func => add_message_filter b filter_func
  | CallAddRule rule => add_routing_rule b rule
  | CallAddClient client => add_websocket_client b client
  | CallRemoveClient client => remove_websocket_client b client
  | CallGetStatistics => (get_statistics now b).2
  end.

Definition bus_after (start : Z) (message_queue_size : Z) (calls : list (Z * bus_call))
    : CommunicationBus :=
  foldl bus_do (CommunicationBus_init start message_queue_size) calls.

(** ** What a retry amounts to *)

(** To state what a retry amounts to: the backlogs of some addresses
    emptied, the messages those backlogs held, and a list of messages
    submitted to [send_message] one after the other, the accepted ones
    counted. *)
Definition clear_backlogs (b : CommunicationBus) (aids : list string) : CommunicationBus :=
  with_failed b
    (foldl (λ fd a, if dict_in a fd then dict_set fd a [] else fd)
           (failed_deliveries b) aids).

Definition selected_backlog (b : CommunicationBus) (aids : list string) : list Message :=
  concat (omap (dict_get (failed_deliveries b)) aids).

Fixpoint send_all (now : Z) (b : CommunicationBus) (ms : list Message)
    : Z * CommunicationBus :=
  match ms with
  | [] => (0, b)
  | m :: ms =>
      let '(success, b) := send_message now b m in
      let '(n, b) := send_all now b ms in
      ((if success then 1 else 0) + n, b)
  end.

(** ** Invariants of the heap and of the queue *)

(** [pos] lies in the subtree rooted at [s]. *)
Inductive in_subtree (s : nat) : nat → Prop :=
  | in_subtree_root : in_subtree s s
  | in_subtree_child c :
      (0 < c)%nat → in_subtree s ((c - 1) / 2)%nat → in_subtree s c.

Section HeapInvariant.
Context {A : Type} (lt : A → A → bool).

Local Abbreviation le := (item_le lt).
Local Abbreviation parent c := ((c - 1) / 2)%nat (only parsing).

(** Every edge of the implicit tree whose parent index is at least [s]
    is ordered. [heap_above 0] is the heap invariant of [heapq]:
    [heap[(k-1)//2] <= heap[k]] for all [k > 0]. *)
Definition heap_above (s : nat) (h : list A) : Prop :=
  ∀ c v p, (0 < c)%nat → (s ≤ parent c)%nat →
    h !! c = Some v → h !! parent c = Some p → le p v.

(** The state of [_siftdown]'s loop: [h] with a hole at [pos] that
    [x] is to fill.  Edges away from the hole are ordered, the children of
    the hole are above [x] and above the hole's parent. *)
Record hole_ok (s : nat) (h : list A) (pos : nat) (x : A) : Prop := {
  hole_away : ∀ c v p, (0 < c)%nat → (s ≤ parent c)%nat →
    c ≠ pos → parent c ≠ pos →
    h !! c = Some v → h !! parent c = Some p → le p v;
  hole_children : ∀ c v, (0 < c)%nat → parent c = pos →
    h !! c = Some v → le x v;
  hole_grandparent : ∀ c v p, (0 < c)%nat → parent c = pos →
    (0 < pos)%nat → (s ≤ parent pos)%nat →
    h !! c = Some v → h !! parent pos = Some p → le p v
}.

(** The state of [_siftup]'s first loop: edges whose parent is not the
    hole are ordered, and the hole's parent is below the hole's children. *)
Record sift_inv (s : nat) (h : list A) (pos : nat) : Prop := {
  sift_away : ∀ c v p, (0 < c)%nat → (s ≤ parent c)%nat → parent c ≠ pos →
    h !! c = Some v → h !! parent c = Some p → le p v;
  sift_grandparent : ∀ c v p, (0 < c)%nat → parent c = pos → (s < pos)%nat →
    h !! c = Some v → h !! parent pos = Some p → le p v
}.

End HeapInvariant.

(** [a] leaves the queue before [b]. *)
Definition entry_before (a b : entry) : Prop := entry_lt a b = true.

(** What the methods of [MessageQueue] keep true of a queue: the list is a
    heap, [_size] is its length, the counters are distinct and below
    [_counter], and every entry is keyed on minus its message's
    priority. *)
Record queue_inv (q : MessageQueue) : Prop := {
  inv_heap : heap_above entry_lt 0 (_queue q);
  inv_size : _size q = Z.of_nat (length (_queue q));
  inv_counter : Forall (λ e, entry_counter e < _counter q)%nat (_queue q);
  inv_nodup : NoDup (entry_counter <$> _queue q);
  inv_key : Forall (λ e, entry_key e = - priority (entry_message e)) (_queue q)
}.

(** What every run keeps true of a bus of capacity [cap]. *)
Record bus_inv (cap : Z) (b : CommunicationBus) : Prop := {
  bus_queue_inv : queue_inv (message_queue b);
  bus_capacity : max_size (message_queue b) = cap;
  bus_bounded : size (message_queue b) ≤ cap;
  bus_subscribers_nodup : NoDup (dict_keys (subscribers b));
  bus_failed_nodup : NoDup (dict_keys (failed_deliveries b));
  bus_failed_subscribed :
    ∀ a, a ∈ dict_keys (failed_deliveries b) → a ∈ dict_keys (subscribers b)
}.

(** ** The rest of the bus: history queries and system broadcasts *)

(** [messages.sort(key=lambda x: x.timestamp, reverse=True)].  Python's
    sort is stable, also with [reverse=True]: messages with the same
    timestamp keep their order.  A stable sort has one result, given here
    by insertion.  (ISO strings of naive local times compare as the
    instants they denote.) *)
Fixpoint insert_recent_first (x : Message) (l : list Message) : list Message :=
  match l with
  | [] => [x]
  | y :: l' =>
      if bool_decide (timestamp x < timestamp y)
      then y :: insert_recent_first x l'
      else x :: l
  end.

Definition sort_recent_first (l : list Message) : list Message :=
  foldr insert_recent_first [] l.

(** [l[:limit]]: a negative [limit] counts from the end. *)
Definition slice_to {A} (l : list A) (limit : Z) : list A :=
  if bool_decide (0 ≤ limit) then take (Z.to_nat limit) l
  else take (Z.to_nat (Z.of_nat (length l) + limit)) l.

(** [if agent_id:] and [if message_type:] skip the filter for [None] and
    for the empty string. *)
Definition truthy (s : option string) : option string :=
  match s with
  | Some a => if decide (a = "") then None else Some a
  | None => None
  end.

Definition get_message_history (self : CommunicationBus) (agent_id : option string)
    (message_type' : option string) (limit : Z) (since : option Z) : list Message :=
  let messages := message_history self in
  let messages :=
    match truthy agent_id with
    | Some a => filter (λ msg, sender msg = a ∨ recipient msg = a) messages
    | None => messages
    end in
  let messages :=
    match truthy message_type' with
    | Some t => filter (λ msg, message_type msg = t) messages
    | None => messages
    end in
  let messages :=
    match since with
    | Some s => filter (λ msg, s < timestamp msg) messages
    | None => messages
    end in
  slice_to (sort_recent_first messages) limit.

(** [broadcast_system_message]; [fresh_id] is the message's [uuid4]. *)
Definition broadcast_system_message (now : Z) (fresh_id : string) (self : CommunicationBus)
    (content message_type : string) : bool * CommunicationBus :=
  let message :=
    {| msg_id := fresh_id; sender := "system"; recipient := "broadcast";
       content := content; message_type := message_type;
       timestamp := now; metadata := []; priority := 3; ttl := None |} in
  send_message now self message.

(** The messages a run hands to the bus: those of its [send_message]
    calls and the welcome messages of its [subscribe] calls. *)
Definition welcome_message (now : Z) (fresh_id agent_id : string) : Message :=
  {| msg_id := fresh_id; sender := "communication_bus"; recipient := agent_id;
     content := "subscribed"; message_type := "status_update";
     timestamp := now; metadata := []; priority := 1; ttl := None |}.

Definition submitted (c : Z * bus_call) : list Message :=
  match c.2 with
  | CallSend message => [message]
  | CallSubscribe fresh_id agent_id _ => [welcome_message c.1 fresh_id agent_id]
  | _ => []
  end.

(** Whether the callback registered for [recipient] completes on its copy
    of [message]; an address that is not subscribed has none. *)
Definition callback_completes (self : CommunicationBus) (message : Message)
    (recipient : string) : bool :=
  match dict_get (subscribers self) recipient with
  | Some cb => cb (delivery_message recipient message)
  | None => false
  end.

(** ** Agents ([class Agent] of [core/models.py]): task slots

    The fields that [add_task], [remove_task], [update_status],
    [update_activity], [is_available], [can_handle_tool] and
    [has_capability] read or write. *)

Inductive AgentStatus := IDLE | RUNNING | WAITING | ERROR | STOPPED | BUSY | OFFLINE.

#[global] Instance AgentStatus_eq_dec : EqDecision AgentStatus.
Proof. solve_decision. Defined.

Record Agent := mkAgent {
  agent_id : string;
  status : AgentStatus;
  tools : list string;
  last_activity : Z;
  capabilities : list string;
  max_concurrent_tasks : Z;
  current_tasks : list string
}.

Definition update_activity (now : Z) (self : Agent) : Agent :=
  {| agent_id := agent_id self; status := status self; tools := tools self;
     last_activity := now; capabilities := capabilities self;
     max_concurrent_tasks := max_concurrent_tasks self;
     current_tasks := current_tasks self |}.

Definition update_status (now : Z) (self : Agent) (st : AgentStatus) : Agent :=
  update_activity now
    {| agent_id := agent_id self; status := st; tools := tools self;
       last_activity := last_activity self; capabilities := capabilities self;
       max_concurrent_tasks := max_concurrent_tasks self;
       current_tasks := current_tasks self |}.

Definition with_tasks (self : Agent) (tasks : list string) : Agent :=
  {| agent_id := agent_id self; status := status self; tools := tools self;
     last_activity := last_activity self; capabilities := capabilities self;
     max_concurrent_tasks := max_concurrent_tasks self;
     current_tasks := tasks |}.

(** [AgentStatus.BUSY if self.current_tasks else AgentStatus.IDLE] *)
Definition busy_or_idle (self : Agent) : AgentStatus :=
  match current_tasks self with [] => IDLE | _ => BUSY end.

Definition add_task (now : Z) (self : Agent) (task_id : string) : bool * Agent :=
  if bool_decide (max_concurrent_tasks self ≤ Z.of_nat (length (current_tasks self)))
  then (false, self)
  else
    let self := with_tasks self (current_tasks self ++ [task_id]) in
    (true, update_status now self (busy_or_idle self)).

(** [list.remove(x)]: the first occurrence goes. *)
Fixpoint list_remove (x : string) (l : list string) : list string :=
  match l with
  | [] => []
  | y :: l' => if decide (y = x) then l' else y :: list_remove x l'
  end.

Definition remove_task (now : Z) (self : Agent) (task_id : string) : Agent :=
  if bool_decide (task_id ∈ current_tasks self) then
    let self := with_tasks self (list_remove task_id (current_tasks self)) in
    update_status now self (busy_or_idle self)
  else self.

Definition can_handle_tool (self : Agent) (tool_name : string) : bool :=
  bool_decide (tool_name ∈ tools self).

Definition has_capability (self : Agent) (capability : string) : bool :=
  bool_decide (capability ∈ capabilities self).

Definition is_available (self : Agent) : bool :=
  bool_decide (status self ∈ [IDLE; BUSY]) &&
  bool_decide (Z.of_nat (length (current_tasks self)) < max_concurrent_tasks self).

(** Calls of [add_task] and [remove_task] on an agent, each with the
    reading of the clock. *)
Inductive agent_call :=
  | CallAddTask (task_id : string)
  | CallRemoveTask (task_id : string).

Definition agent_do (a : Agent) (c : Z * agent_call) : Agent :=
  match c.2 with
  | CallAddTask task_id => (add_task c.1 a task_id).2
  | CallRemoveTask task_id => remove_task c.1 a task_id
  end.

(** ** Data for the examples *)

(** A message for the examples. *)
Definition sample_message (name : string) (p : Z) (t : option Z) : Message :=
  {| msg_id := name; sender := "alice"; recipient := "bob"; content := "";
     message_type := "task"; timestamp := 0; metadata := [];
     priority := p; ttl := t |}.

(** A filter with the same outcome on every message, and a message to a
    given recipient, for the examples. *)
Definition always (o : filter_outcome) : message_filter := λ _, o.

Definition message_to (name from to : string) (p : Z) (t : option Z) : Message :=
  {| msg_id := name; sender := from; recipient := to; content := "";
     message_type := "task"; timestamp := 0; metadata := [];
     priority := p; ttl := t |}.

(** * Properties *)

(** ** The heap operations keep the heap invariant *)

Section HeapqFacts.
Context {A : Type} (lt : A → A → bool).
Hypothesis lt_asym : ∀ a b, lt a b = true → lt b a = false.
Hypothesis le_trans : ∀ a b c, item_le lt a b → item_le lt b c → item_le lt a c.

Local Set Default Proof Using "lt_asym le_trans".

Local Abbreviation le := (item_le lt).
Local Abbreviation parent c := ((c - 1) / 2)%nat (only parsing).
Local Abbreviation heap_above := (heap_above lt).
Local Abbreviation hole_ok := (hole_ok lt).
Local Abbreviation sift_inv := (sift_inv lt).

Lemma le_refl a : le a a.
Proof.
  unfold item_le. destruct (lt a a) eqn:E; [|done].
  by rewrite (lt_asym _ _ E) in E.
Qed.

Lemma lt_le a b : lt a b = true → le a b.
Proof. apply lt_asym. Qed.

Lemma in_subtree_le s c : in_subtree s c → (s ≤ c)%nat.
Proof. induction 1; lia. Qed.

Lemma in_subtree_parent s c :
  in_subtree s c → (s < c)%nat → in_subtree s (parent c).
Proof. destruct 1; [lia | done]. Qed.

Lemma in_subtree_0 c : in_subtree 0 c.
Proof.
  induction (lt_wf c) as [c _ IH].
  destruct (decide (c = 0%nat)) as [->|]; [constructor|].
  apply in_subtree_child; [lia|]. apply IH. lia.
Qed.

(** Moving the hole: writing [x] at [j] after [y = h[j]] went to [i] gives
    the same items as writing [x] at [i]. *)
Lemma insert_move_hole (h : list A) i j x y :
  h !! j = Some y → i ≠ j → (i < length h)%nat →
  <[j:=x]> (<[i:=y]> h) ≡ₚ <[i:=x]> h.
Proof.
  intros Hj Hij Hi.
  rewrite <-(list_insert_insert_eq h i y x).
  apply Permutation_insert_swap.
  - by apply list_lookup_insert_eq.
  - by rewrite list_lookup_insert_ne.
Qed.

(** *** [_siftdown] *)

Lemma siftdown_loop_length fuel (h : list A) s pos x :
  length (siftdown_loop lt fuel h s pos x) = length h.
Proof.
  revert h pos. induction fuel as [|fuel IH]; intros h pos; cbn [siftdown_loop].
  { by rewrite length_insert. }
  case_decide; [|by rewrite length_insert].
  destruct (h !! parent pos) as [p|]; [|by rewrite length_insert].
  destruct (lt x p); [|by rewrite length_insert].
  by rewrite IH, length_insert.
Qed.

Lemma siftdown_loop_perm fuel (h : list A) s pos x :
  (pos < length h)%nat →
  siftdown_loop lt fuel h s pos x ≡ₚ <[pos:=x]> h.
Proof.
  revert h pos. induction fuel as [|fuel IH]; intros h pos Hpos; cbn [siftdown_loop]; [done|].
  case_decide; [|done].
  destruct (h !! parent pos) as [p|] eqn:Hp; [|done].
  destruct (lt x p); [|done].
  rewrite IH by (rewrite length_insert; lia).
  apply insert_move_hole; [done | lia | done].
Qed.

Lemma siftdown_length (h : list A) s pos :
  length (_siftdown lt h s pos) = length h.
Proof.
  unfold _siftdown. destruct (h !! pos); [|done].
  apply siftdown_loop_length.
Qed.

Lemma siftdown_perm (h : list A) s pos : _siftdown lt h s pos ≡ₚ h.
Proof.
  unfold _siftdown. destruct (h !! pos) as [x|] eqn:Hx; [|done].
  rewrite siftdown_loop_perm by eauto using lookup_lt_Some.
  by rewrite list_insert_id.
Qed.

Lemma hole_ok_fill s (h : list A) pos x :
  (pos < length h)%nat →
  hole_ok s h pos x →
  (∀ p, (0 < pos)%nat → (s ≤ parent pos)%nat → h !! parent pos = Some p → le p x) →
  heap_above s (<[pos:=x]> h).
Proof.
  intros Hpos [H1 H2 H3] Hp c v p Hc Hs Hv Hpv.
  destruct (decide (c = pos)) as [->|Hne].
  - rewrite list_lookup_insert_eq in Hv by done. simplify_eq.
    rewrite list_lookup_insert_ne in Hpv by lia. eauto.
  - rewrite list_lookup_insert_ne in Hv by done.
    destruct (decide (parent c = pos)) as [Hpc|Hpc].
    + rewrite Hpc, list_lookup_insert_eq in Hpv by done. simplify_eq. eauto.
    + rewrite list_lookup_insert_ne in Hpv by done. eauto.
Qed.

Lemma siftdown_loop_heap fuel (h : list A) s pos x :
  (pos ≤ fuel)%nat → (pos < length h)%nat →
  in_subtree s pos → hole_ok s h pos x →
  heap_above s (siftdown_loop lt fuel h s pos x).
Proof.
  revert h pos. induction fuel as [|fuel IH]; intros h pos Hfuel Hpos Hsub Hok; cbn [siftdown_loop].
  { apply hole_ok_fill; [done..|]. intros; lia. }
  case_decide as Hs.
  2:{ apply hole_ok_fill; [done..|]. intros p ? ? _.
      apply in_subtree_le in Hsub. lia. }
  destruct (h !! parent pos) as [p|] eqn:Hp.
  2:{ apply lookup_ge_None in Hp. lia. }
  destruct (lt x p) eqn:Hlt.
  2:{ apply hole_ok_fill; [done..|]. intros; by simplify_eq. }
  pose proof (in_subtree_parent _ _ Hsub Hs) as Hsub'.
  pose proof (in_subtree_le _ _ Hsub') as Hsp.
  destruct Hok as [H1 H2 H3].
  apply IH; [lia | rewrite length_insert; lia | done |].
  split.
  - intros c v q Hc Hsc Hne Hpne Hv Hq.
    rewrite list_lookup_insert_ne in Hv by lia.
    destruct (decide (parent c = pos)) as [Hpc|Hpc].
    + rewrite Hpc, list_lookup_insert_eq in Hq by done. simplify_eq.
      eapply H3; eauto; lia.
    + rewrite list_lookup_insert_ne in Hq by done.
      destruct (decide (c = pos)) as [->|]; [done|]. eauto.
  - intros c v Hc Hpc Hv.
    destruct (decide (c = pos)) as [->|Hne].
    + rewrite list_lookup_insert_eq in Hv by done. simplify_eq. by apply lt_le.
    + rewrite list_lookup_insert_ne in Hv by done.
      apply le_trans with p; [by apply lt_le|].
      apply (H1 c); [done | lia | done | lia | done | by rewrite Hpc].
  - intros c v q Hc Hpc H0 Hsq Hv Hq.
    rewrite list_lookup_insert_ne in Hq by lia.
    assert (le q p) as Hqp.
    { apply (H1 (parent pos)); [lia | done | lia | lia | done | done]. }
    destruct (decide (c = pos)) as [->|Hne].
    + rewrite list_lookup_insert_eq in Hv by done. by simplify_eq.
    + rewrite list_lookup_insert_ne in Hv by done.
      apply le_trans with p; [done|].
      apply (H1 c); [done | lia | done | lia | done | by rewrite Hpc].
Qed.

Lemma siftdown_heap (h : list A) s pos x :
  h !! pos = Some x → in_subtree s pos → hole_ok s h pos x →
  heap_above s (_siftdown lt h s pos).
Proof.
  intros Hx Hsub Hok. unfold _siftdown. rewrite Hx.
  apply siftdown_loop_heap; eauto using lookup_lt_Some.
Qed.

(** *** [_siftup] *)

Lemma smaller_child_cases (h : list A) endpos c :
  smaller_child lt h endpos c = c ∨
  (smaller_child lt h endpos c = S c ∧ (S c < endpos)%nat ∧
   ∃ vc vr, h !! c = Some vc ∧ h !! S c = Some vr ∧ le vr vc).
Proof.
  unfold smaller_child. replace (c + 1)%nat with (S c) by lia.
  destruct (h !! c) as [vc|] eqn:Hc; [|by left].
  destruct (h !! S c) as [vr|] eqn:Hr; [|by left].
  case_bool_decide as Hlt; simpl; [|by left].
  destruct (lt vc vr) eqn:E; simpl; [by left|].
  right. eauto 10.
Qed.

(** The chosen child is a child of [pos], in range, and not above its
    sibling. *)
Lemma smaller_child_spec (h : list A) pos :
  (2 * pos + 1 < length h)%nat →
  ∃ c vc, smaller_child lt h (length h) (2 * pos + 1) = c ∧
    h !! c = Some vc ∧ (0 < c)%nat ∧ parent c = pos ∧
    ∀ c' v, (0 < c')%nat → parent c' = pos → h !! c' = Some v → le vc v.
Proof.
  intros Hlen.
  destruct (lookup_lt_is_Some_2 h (2 * pos + 1)%nat Hlen) as [vl Hl].
  destruct (smaller_child_cases h (length h) (2 * pos + 1))
    as [E|(E & Hr & vc & vr & Hc & Hvr & Hle)].
  - exists (2 * pos + 1)%nat, vl. split_and!; [done | done | lia | lia |].
    intros c' v Hc' Hp Hv.
    assert (c' = 2 * pos + 1 ∨ c' = S (2 * pos + 1))%nat as [->| ->] by lia.
    + simplify_eq. apply le_refl.
    + pose proof (lookup_lt_Some _ _ _ Hv) as Hlt.
      unfold smaller_child in E.
      replace (2 * pos + 1 + 1)%nat with (S (2 * pos + 1)) in E by lia.
      rewrite Hl, Hv in E. rewrite bool_decide_true in E by done. simpl in E.
      destruct (lt vl v) eqn:Elt; simpl in E; [by apply lt_le | lia].
  - exists (S (2 * pos + 1)), vr. split_and!; [done | done | lia | lia |].
    intros c' v Hc' Hp Hv.
    assert (c' = 2 * pos + 1 ∨ c' = S (2 * pos + 1))%nat as [->| ->] by lia.
    + by simplify_eq.
    + simplify_eq. apply le_refl.
Qed.

Lemma siftup_loop_length fuel (h : list A) endpos pos h' pos' :
  siftup_loop lt fuel h endpos pos = (h', pos') → length h' = length h.
Proof.
  revert h pos. induction fuel as [|fuel IH]; intros h pos; cbn [siftup_loop].
  { by intros [= <- <-]. }
  case_decide; [|by intros [= <- <-]].
  destruct (h !! smaller_child _ _ _ _) as [c|]; [|by intros [= <- <-]].
  intros E. apply IH in E. by rewrite length_insert in E.
Qed.

Lemma siftup_loop_perm fuel (h : list A) pos x h' pos' :
  (pos < length h)%nat →
  siftup_loop lt fuel h (length h) pos = (h', pos') →
  (pos' < length h')%nat ∧ <[pos':=x]> h' ≡ₚ <[pos:=x]> h.
Proof.
  revert h pos. induction fuel as [|fuel IH]; intros h pos Hpos; cbn [siftup_loop].
  { by intros [= <- <-]. }
  case_decide as Hc; [|by intros [= <- <-]].
  destruct (smaller_child_spec h pos Hc) as (c & vc & -> & Hvc & H0 & Hp & _).
  rewrite Hvc. intros E.
  rewrite <-(length_insert h pos vc) in E.
  apply IH in E as [? E]; [|rewrite length_insert; eauto using lookup_lt_Some].
  split; [done|]. rewrite E.
  apply insert_move_hole; [done | lia | done].
Qed.

Lemma siftup_loop_inv fuel s (h : list A) pos h' pos' :
  (length h ≤ fuel + pos)%nat → (pos < length h)%nat →
  in_subtree s pos → sift_inv s h pos →
  siftup_loop lt fuel h (length h) pos = (h', pos') →
  in_subtree s pos' ∧ sift_inv s h' pos' ∧ (length h ≤ 2 * pos' + 1)%nat.
Proof.
  revert h pos.
  induction fuel as [|fuel IH]; intros h pos Hfuel Hpos Hsub Hinv; cbn [siftup_loop].
  { intros [= <- <-]. split_and!; [done | done | lia]. }
  case_decide as Hc; [|intros [= <- <-]; split_and!; [done | done | lia]].
  destruct (smaller_child_spec h pos Hc) as (c & vc & -> & Hvc & H0 & Hp & Hmin).
  rewrite Hvc. intros E.
  pose proof (in_subtree_le _ _ Hsub) as Hs.
  pose proof (lookup_lt_Some _ _ _ Hvc) as Hclen.
  rewrite <-(length_insert h pos vc) in E.
  apply IH in E; [by rewrite length_insert in E | rewrite length_insert; lia
                 | by rewrite length_insert | apply in_subtree_child; [done | by rewrite Hp] |].
  destruct Hinv as [H1 H2]. split.
  - intros c' v p Hc' Hsc Hne Hv Hpv.
    destruct (decide (parent c' = pos)) as [Hpc|Hpc].
    + rewrite Hpc, list_lookup_insert_eq in Hpv by done. simplify_eq.
      rewrite list_lookup_insert_ne in Hv by lia. eauto.
    + rewrite list_lookup_insert_ne in Hpv by done.
      destruct (decide (c' = pos)) as [->|Hcp].
      * rewrite list_lookup_insert_eq in Hv by done. simplify_eq.
        apply (H2 c); [done | done | lia | done | done].
      * rewrite list_lookup_insert_ne in Hv by done. eauto.
  - intros c' v p Hc' Hpc _ Hv Hpv.
    rewrite Hp, list_lookup_insert_eq in Hpv by done. injection Hpv as <-.
    rewrite list_lookup_insert_ne in Hv by lia.
    apply (H1 c'); [done | lia | lia | done | by rewrite Hpc].
Qed.

Lemma siftup_length (h : list A) pos : length (_siftup lt h pos) = length h.
Proof.
  unfold _siftup. destruct (h !! pos); [|done].
  destruct (siftup_loop _ _ _ _ _) as [h' pos'] eqn:E.
  rewrite siftdown_length, length_insert. by apply siftup_loop_length in E.
Qed.

Lemma siftup_perm (h : list A) pos : _siftup lt h pos ≡ₚ h.
Proof.
  unfold _siftup. destruct (h !! pos) as [x|] eqn:Hx; [|done].
  destruct (siftup_loop _ _ _ _ _) as [h' pos'] eqn:E.
  rewrite siftdown_perm.
  apply (siftup_loop_perm _ _ _ x) in E as [_ ->]; [|eauto using lookup_lt_Some].
  by rewrite list_insert_id.
Qed.

Lemma siftup_heap (h : list A) s :
  heap_above (S s) h → heap_above s (_siftup lt h s).
Proof.
  intros Hh. unfold _siftup. destruct (h !! s) as [x|] eqn:Hx.
  2:{ intros c v p Hc Hs Hv Hp. apply lookup_ge_None in Hx.
      apply lookup_lt_Some in Hp. lia. }
  destruct (siftup_loop _ _ _ _ _) as [h' pos'] eqn:E.
  pose proof (lookup_lt_Some _ _ _ Hx) as Hlen.
  pose proof (siftup_loop_length _ _ _ _ _ _ E) as Hlen'.
  pose proof (siftup_loop_perm _ _ _ x _ _ Hlen E) as [Hpos' _].
  apply (siftup_loop_inv _ s) in E as (Hsub & [H1 H2] & Hleaf);
    [|lia | done | constructor |].
  2:{ split; [|lia]. intros c v p Hc Hs Hne. apply Hh; lia. }
  apply siftdown_heap with x; [by apply list_lookup_insert_eq | done |].
  split.
  - intros c v p Hc Hs Hne Hpne Hv Hp.
    rewrite list_lookup_insert_ne in Hv, Hp by done. eauto.
  - intros c v Hc Hp Hv. apply lookup_lt_Some in Hv.
    rewrite length_insert in Hv. lia.
  - intros c v p Hc Hp _ _ Hv _. apply lookup_lt_Some in Hv.
    rewrite length_insert in Hv. lia.
Qed.

(** *** [heappush], [heappop], [heapify] *)

Lemma heappush_length (h : list A) x : length (heappush lt h x) = S (length h).
Proof. unfold heappush. rewrite siftdown_length, length_app. simpl. lia. Qed.

Lemma heappush_perm (h : list A) x : heappush lt h x ≡ₚ x :: h.
Proof.
  unfold heappush. rewrite siftdown_perm. by rewrite Permutation_app_comm.
Qed.

Lemma heappush_heap (h : list A) x :
  heap_above 0 h → heap_above 0 (heappush lt h x).
Proof.
  intros Hh. unfold heappush.
  rewrite length_app. simpl. replace (length h + 1 - 1)%nat with (length h) by lia.
  apply siftdown_heap with x.
  - by rewrite lookup_app_r, Nat.sub_diag.
  - apply in_subtree_0.
  - split.
    + intros c v p Hc _ Hne Hpne Hv Hp.
      pose proof (lookup_lt_Some _ _ _ Hv) as Hlt. rewrite length_app in Hlt. simpl in Hlt.
      rewrite lookup_app_l in Hv, Hp by lia. apply (Hh c); [done | lia | done | done].
    + intros c v Hc Hp Hv. apply lookup_lt_Some in Hv.
      rewrite length_app in Hv. simpl in Hv. lia.
    + intros c v p Hc Hp _ _ Hv _. apply lookup_lt_Some in Hv.
      rewrite length_app in Hv. simpl in Hv. lia.
Qed.

Lemma heappop_None (h : list A) : heappop lt h = None ↔ h = [].
Proof.
  unfold heappop. split; [|by intros ->].
  destruct (last h) eqn:E; [|by apply last_None in E].
  by destruct (removelast h).
Qed.

Lemma heappop_perm (h : list A) x h' :
  heappop lt h = Some (x, h') → h ≡ₚ x :: h'.
Proof.
  unfold heappop. destruct (last h) as [lastelt|] eqn:E; [|done].
  apply last_Some in E as [t ->]. rewrite removelast_last.
  destruct t as [|r t]; intros [= <- <-]; [done|].
  cbn [insert list_insert]. rewrite siftup_perm.
  rewrite <-Permutation_cons_append. simpl. apply perm_swap.
Qed.

Lemma heappop_heap (h : list A) x h' :
  heap_above 0 h → heappop lt h = Some (x, h') → heap_above 0 h'.
Proof.
  intros Hh. unfold heappop. destruct (last h) as [lastelt|] eqn:E; [|done].
  apply last_Some in E as [t ->]. rewrite removelast_last.
  destruct t as [|r t]; intros [= <- <-].
  { intros c v p _ _ Hv. by destruct c. }
  apply siftup_heap. intros c v p Hc Hs Hv Hp.
  destruct c as [|c]; [lia|].
  destruct ((S c - 1) / 2)%nat as [|k] eqn:Hk; [lia|].
  apply (Hh (S c)); [done | lia | |]; rewrite ?Hk.
  - rewrite lookup_app_l; [done | eauto using lookup_lt_Some].
  - rewrite lookup_app_l; [done | eauto using lookup_lt_Some].
Qed.

(** The root of a heap is a least item: [heappop] returns it. *)
Lemma heap_root_le (h : list A) r i x :
  heap_above 0 h → h !! 0%nat = Some r → h !! i = Some x → le r x.
Proof.
  intros Hh Hr. revert x. induction (lt_wf i) as [i _ IH]. intros x Hx.
  destruct (decide (i = 0%nat)) as [->|Hi].
  { simplify_eq. apply le_refl. }
  destruct (lookup_lt_is_Some_2 h (parent i)) as [p Hp].
  { apply lookup_lt_Some in Hx. lia. }
  apply le_trans with p.
  - apply (IH (parent i)); [lia | done].
  - apply (Hh i); [lia | lia | done | done].
Qed.

Lemma heappop_min (h : list A) x h' :
  heap_above 0 h → heappop lt h = Some (x, h') → Forall (le x) h'.
Proof.
  intros Hh Hpop.
  assert (h !! 0%nat = Some x) as Hroot.
  { revert Hpop. unfold heappop. destruct (last h) as [lastelt|] eqn:E; [|done].
    apply last_Some in E as [t ->]. rewrite removelast_last.
    by destruct t as [|r t]; intros [= <- <-]. }
  apply heappop_perm in Hpop.
  assert (Forall (le x) h) as Hall.
  { apply Forall_lookup. intros i y Hy. by apply (heap_root_le h x i y). }
  rewrite Hpop in Hall. by apply Forall_cons in Hall as [_ ?].
Qed.

Lemma heapify_loop_length i (x : list A) : length (heapify_loop lt i x) = length x.
Proof.
  revert x. induction i as [|i IH]; intros x; simpl; [done|].
  by rewrite IH, siftup_length.
Qed.

Lemma heapify_loop_perm i (x : list A) : heapify_loop lt i x ≡ₚ x.
Proof.
  revert x. induction i as [|i IH]; intros x; simpl; [done|].
  by rewrite IH, siftup_perm.
Qed.

Lemma heapify_loop_heap i (x : list A) :
  heap_above i x → heap_above 0 (heapify_loop lt i x).
Proof.
  revert x. induction i as [|i IH]; intros x Hx; simpl; [done|].
  by apply IH, siftup_heap.
Qed.

Lemma heapify_perm (x : list A) : heapify lt x ≡ₚ x.
Proof. apply heapify_loop_perm. Qed.

Lemma heapify_heap (x : list A) : heap_above 0 (heapify lt x).
Proof.
  apply heapify_loop_heap. intros c v p Hc Hs Hv _.
  apply lookup_lt_Some in Hv. lia.
Qed.

End HeapqFacts.

Example heappush_135 :
  foldl (heappush Z.ltb) [] [5; 3; 8; 1; 9; 2] = [1; 3; 2; 5; 9; 8].
Proof. reflexivity. Qed.

Example heapify_ex :
  heapify Z.ltb [9; 8; 7; 6; 5; 4; 3; 2; 1] = [1; 2; 3; 6; 5; 4; 7; 8; 9].
Proof. reflexivity. Qed.

Example heappop_ex :
  heappop Z.ltb [1; 3; 2; 5; 9; 8] = Some (1, [2; 3; 8; 5; 9]).
Proof. reflexivity. Qed.

(** ** The order on queue entries *)

Lemma entry_lt_spec a b :
  entry_lt a b = true ↔
  entry_key a < entry_key b ∨
  (entry_key a = entry_key b ∧ (entry_counter a < entry_counter b)%nat).
Proof.
  unfold entry_lt.
  destruct (Z.eqb_spec (entry_key a) (entry_key b)) as [Hk|Hk]; simpl.
  - destruct (Nat.eqb_spec (entry_counter a) (entry_counter b)) as [Hc|Hc]; simpl.
    + split; [done | lia].
    + rewrite Nat.ltb_lt. lia.
  - rewrite Z.ltb_lt. lia.
Qed.

Lemma entry_lt_false a b :
  entry_lt a b = false ↔
  entry_key b < entry_key a ∨
  (entry_key a = entry_key b ∧ (entry_counter b ≤ entry_counter a)%nat).
Proof.
  rewrite <-not_true_iff_false, entry_lt_spec. lia.
Qed.

Lemma entry_lt_asym a b : entry_lt a b = true → entry_lt b a = false.
Proof. rewrite entry_lt_spec, entry_lt_false. lia. Qed.

Lemma entry_le_trans a b c :
  item_le entry_lt a b → item_le entry_lt b c → item_le entry_lt a c.
Proof. unfold item_le. rewrite !entry_lt_false. lia. Qed.

(** Between entries with different counters, [not (b < a)] is [a < b]. *)
Lemma entry_le_lt a b :
  entry_counter a ≠ entry_counter b → item_le entry_lt a b → entry_lt a b = true.
Proof. unfold item_le. rewrite entry_lt_false, entry_lt_spec. lia. Qed.

(** ** The queue's methods keep its invariant *)

Lemma queue_inv_init cap : queue_inv (MessageQueue_init cap).
Proof.
  split; simpl; try done.
  constructor.
Qed.

Lemma put_inv q m : queue_inv q → queue_inv (put q m).2.
Proof.
  intros [Hheap Hsize Hctr Hnd Hkey]. unfold put.
  case_bool_decide; [by split|]. cbn [snd _queue _size _counter].
  split; cbn [_queue _size _counter].
  - by apply (heappush_heap _ entry_lt_asym entry_le_trans).
  - rewrite (heappush_length _ entry_lt_asym entry_le_trans). lia.
  - rewrite (heappush_perm _ entry_lt_asym entry_le_trans). constructor; [unfold entry_counter; simpl; lia|].
    eapply Forall_impl; [exact Hctr|]. intros e. simpl. lia.
  - rewrite (heappush_perm _ entry_lt_asym entry_le_trans). cbn [fmap list_fmap]. constructor; [|done].
    intros Hin. apply list_elem_of_fmap in Hin as (e & He & Hin).
    rewrite Forall_forall in Hctr. apply Hctr in Hin.
    unfold entry_counter in He at 1. simpl in He. lia.
  - rewrite (heappush_perm _ entry_lt_asym entry_le_trans). by constructor.
Qed.

Lemma get_unfold q :
  get q =
    match heappop entry_lt (_queue q) with
    | Some ((_, _, message), heap) =>
        (Some message,
         {| max_size := max_size q; _queue := heap;
            _counter := _counter q; _size := _size q - 1 |})
    | None => (None, q)
    end.
Proof. unfold get. by destruct (_queue q). Qed.

Lemma get_inv q : queue_inv q → queue_inv (get q).2.
Proof.
  intros [Hheap Hsize Hctr Hnd Hkey]. rewrite get_unfold.
  destruct (heappop entry_lt (_queue q)) as [[[[k c] m] h]|] eqn:Hpop; [|by split].
  pose proof (heappop_perm _ entry_lt_asym entry_le_trans _ _ _ Hpop) as Hperm.
  cbn [snd]. split; cbn [_queue _size _counter].
  - by eapply (heappop_heap _ entry_lt_asym entry_le_trans).
  - rewrite Hsize, Hperm. simpl. lia.
  - rewrite Hperm in Hctr. by apply Forall_cons in Hctr as [_ ?].
  - rewrite Hperm in Hnd. cbn [fmap list_fmap] in Hnd. by apply NoDup_cons in Hnd as [_ ?].
  - rewrite Hperm in Hkey. by apply Forall_cons in Hkey as [_ ?].
Qed.

Lemma clear_expired_loop_spec now l :
  clear_expired_loop now l =
    (Z.of_nat (length (filter (λ e, is_expired now (entry_message e) = true) l)),
     filter (λ e, is_expired now (entry_message e) = false) l).
Proof.
  unfold clear_expired_loop.
  enough (∀ k acc,
    foldl (λ '(expired_count, new_queue) e,
             if is_expired now (entry_message e)
             then (expired_count + 1, new_queue)
             else (expired_count, new_queue ++ [e])) (k, acc) l =
    (k + Z.of_nat (length (filter (λ e, is_expired now (entry_message e) = true) l)),
     acc ++ filter (λ e, is_expired now (entry_message e) = false) l)) as H.
  { by rewrite H. }
  induction l as [|e l IH]; intros k acc; simpl.
  { by rewrite Z.add_0_r, app_nil_r. }
  rewrite !filter_cons.
  destruct (is_expired now (entry_message e)) eqn:E.
  - rewrite IH, decide_True, decide_False by done. simpl. f_equal. lia.
  - rewrite IH, decide_False, decide_True by done. rewrite <-app_assoc. done.
Qed.

Lemma clear_expired_queue now q :
  _queue (clear_expired now q).2 ≡ₚ
    filter (λ e, is_expired now (entry_message e) = false) (_queue q).
Proof.
  unfold clear_expired. destruct (_queue q) as [|e l] eqn:Hq; [simpl; by rewrite Hq|].
  rewrite clear_expired_loop_spec. cbn [snd _queue].
  apply (heapify_perm _ entry_lt_asym entry_le_trans).
Qed.

Lemma clear_expired_inv now q : queue_inv q → queue_inv (clear_expired now q).2.
Proof.
  intros Hinv. pose proof (clear_expired_queue now q) as Hperm.
  revert Hperm. unfold clear_expired.
  destruct (_queue q) as [|e l] eqn:Hq; [done|]. rewrite <-Hq in *. clear Hq.
  destruct Hinv as [Hheap Hsize Hctr Hnd Hkey].
  rewrite clear_expired_loop_spec. cbn [snd]. intros Hperm.
  split; cbn [_queue _size _counter] in *.
  - apply (heapify_heap _ entry_lt_asym entry_le_trans).
  - unfold heapify. by rewrite (heapify_loop_length _ entry_lt_asym entry_le_trans).
  - rewrite Hperm. apply Forall_forall. intros x [_ Hx]%list_elem_of_filter.
    by apply (proj1 (Forall_forall _ _) Hctr).
  - rewrite Hperm. eapply sublist_NoDup; [done|]. apply fmap_sublist, sublist_filter.
  - rewrite Hperm. apply Forall_forall. intros x [_ Hx]%list_elem_of_filter.
    by apply (proj1 (Forall_forall _ _) Hkey).
Qed.

Lemma queue_do_inv q c : queue_inv q → queue_inv (queue_do q c).
Proof.
  destruct c; simpl; auto using put_inv, get_inv, clear_expired_inv.
Qed.

Lemma queue_after_inv cap calls : queue_inv (queue_after cap calls).
Proof.
  unfold queue_after. generalize (queue_inv_init cap).
  generalize (MessageQueue_init cap). induction calls as [|c calls IH]; simpl; [done|].
  intros q Hq. by apply IH, queue_do_inv.
Qed.

Lemma queue_counters_NoDup cap calls :
  NoDup (entry_counter <$> _queue (queue_after cap calls)).
Proof. apply queue_after_inv. Qed.

(** ** [get] returns the least entry *)

Lemma entry_before_spec a b :
  entry_before a b ↔
  entry_key a < entry_key b ∨
  (entry_key a = entry_key b ∧ (entry_counter a < entry_counter b)%nat).
Proof. apply entry_lt_spec. Qed.

Lemma StronglySorted_lookup_lt {A} (R : relation A) (l : list A) i j a b :
  StronglySorted R l → (i < j)%nat → l !! i = Some a → l !! j = Some b → R a b.
Proof.
  intros Hl. revert i j. induction Hl as [|x l _ IH Hx]; intros i j Hij Ha Hb; [done|].
  destruct j as [|j]; [lia|]. destruct i as [|i]; simpl in *.
  - simplify_eq. rewrite Forall_forall in Hx. apply Hx. by eapply list_elem_of_lookup_2.
  - apply (IH i j); [lia | done | done].
Qed.

Lemma entry_sorted_unique (l1 l2 : list entry) :
  StronglySorted entry_before l1 → StronglySorted entry_before l2 →
  l1 ≡ₚ l2 → l1 = l2.
Proof.
  apply StronglySorted_unique_strong. intros a b _ _ Hab Hba.
  apply entry_lt_asym in Hab. unfold entry_before in Hba. congruence.
Qed.

Lemma StronglySorted_filter {A} (R : relation A) (P : A → Prop)
    `{!∀ x, Decision (P x)} (l : list A) :
  StronglySorted R l → StronglySorted R (filter P l).
Proof.
  induction 1 as [|x l _ IH Hx]; [constructor|].
  rewrite filter_cons. case_decide; [|done].
  constructor; [done|]. apply Forall_forall. intros y [_ Hy]%list_elem_of_filter.
  by apply (proj1 (Forall_forall _ _) Hx).
Qed.

Lemma get_None q : (get q).1 = None ↔ _queue q = [].
Proof.
  rewrite get_unfold, <-(heappop_None entry_lt entry_lt_asym entry_le_trans).
  destruct (heappop entry_lt (_queue q)) as [[[[k c] m] h]|]; simpl; by split.
Qed.

Lemma get_Some q r q' :
  queue_inv q → _queue q ≠ [] → get q = (r, q') →
  ∃ e, r = Some (entry_message e) ∧ _queue q ≡ₚ e :: _queue q' ∧
       Forall (entry_before e) (_queue q').
Proof.
  intros Hinv Hne. rewrite get_unfold.
  destruct (heappop entry_lt (_queue q)) as [[e h]|] eqn:Hpop.
  2:{ by apply (heappop_None entry_lt entry_lt_asym entry_le_trans) in Hpop. }
  pose proof (heappop_perm _ entry_lt_asym entry_le_trans _ _ _ Hpop) as Hperm.
  pose proof (heappop_min _ entry_lt_asym entry_le_trans _ _ _ (inv_heap _ Hinv) Hpop) as Hmin.
  destruct e as [[k c] m]. intros [= <- <-]. exists (k, c, m). cbn [_queue].
  split_and!; [done | done |].
  pose proof (inv_nodup _ Hinv) as Hnd. rewrite Hperm in Hnd.
  cbn [fmap list_fmap] in Hnd. apply NoDup_cons in Hnd as [Hnotin _].
  apply Forall_forall. intros e He. apply entry_le_lt.
  - intros Heq. apply Hnotin. rewrite Heq. by apply list_elem_of_fmap_2.
  - by apply (proj1 (Forall_forall _ _) Hmin).
Qed.

(** Draining a queue gives its entries in increasing order of
    [(priority key, counter)], and leaves it empty. *)
Lemma gets_sorted n q :
  queue_inv q → n = length (_queue q) →
  ∃ es, es ≡ₚ _queue q ∧ StronglySorted entry_before es ∧
        (gets n q).1 = (Some ∘ entry_message) <$> es ∧
        _queue (gets n q).2 = [].
Proof.
  revert q. induction n as [|n IH]; intros q Hinv Hn.
  { exists []. symmetry in Hn. apply nil_length_inv in Hn.
    simpl. rewrite Hn. split_and!; [done | constructor | done | done]. }
  assert (_queue q ≠ []) as Hne by (intros E; by rewrite E in Hn).
  cbn [gets]. destruct (get q) as [r q'] eqn:Hget.
  destruct (get_Some _ _ _ Hinv Hne Hget) as (e & -> & Hperm & Hmin).
  assert (queue_inv q') as Hinv'.
  { replace q' with (get q).2 by (by rewrite Hget). by apply get_inv. }
  destruct (IH q' Hinv') as (es & Hes & Hsorted & Hgets & Hempty).
  { rewrite Hperm in Hn. simpl in Hn. lia. }
  destruct (gets n q') as [rs q''] eqn:Hrest. simpl in *.
  exists (e :: es). split_and!.
  - by rewrite Hperm, Hes.
  - constructor; [done|]. by rewrite Hes.
  - by rewrite Hgets.
  - done.
Qed.

Lemma get_all_sorted q :
  queue_inv q →
  ∃ es, es ≡ₚ _queue q ∧ StronglySorted entry_before es ∧
        get_all q = (Some ∘ entry_message) <$> es.
Proof.
  intros Hinv. destruct (gets_sorted _ q Hinv eq_refl) as (es & ? & ? & ? & _).
  by exists es.
Qed.

(** Whatever the calls that built the queue, [get] returns a message of
    the highest priority in it, the one inserted first among those. *)
Lemma get_returns_best cap calls m q' :
  get (queue_after cap calls) = (Some m, q') →
  ∃ e, entry_message e = m ∧
       _queue (queue_after cap calls) ≡ₚ e :: _queue q' ∧
       ∀ e', e' ∈ _queue q' →
         priority (entry_message e') < priority m ∨
         (priority (entry_message e') = priority m ∧
          (entry_counter e < entry_counter e')%nat).
Proof.
  intros Hget. pose proof (queue_after_inv cap calls) as Hinv.
  assert (_queue (queue_after cap calls) ≠ []) as Hne.
  { intros Hnil%get_None. by rewrite Hget in Hnil. }
  destruct (get_Some _ _ _ Hinv Hne Hget) as (e & [= ->] & Hperm & Hmin).
  exists e. split_and!; [done | done |]. intros e' He'.
  pose proof (proj1 (Forall_forall _ _) Hmin e' He') as Hlt.
  apply entry_before_spec in Hlt.
  pose proof (inv_key _ Hinv) as Hkey. rewrite Hperm in Hkey.
  apply Forall_cons in Hkey as [Hke Hkey].
  pose proof (proj1 (Forall_forall _ _) Hkey e' He') as Hke'.
  rewrite Hke, Hke' in Hlt. lia.
Qed.

(** ** Insertions *)

Lemma put_accepts q m :
  _size q < max_size q →
  put q m =
    (true,
     {| max_size := max_size q;
        _queue := heappush entry_lt (_queue q) (- priority m, _counter q, m);
        _counter := S (_counter q);
        _size := _size q + 1 |}).
Proof. intros H. unfold put. by rewrite bool_decide_false by lia. Qed.

Lemma put_rejects q m : max_size q ≤ _size q → put q m = (false, q).
Proof. intros H. unfold put. by rewrite bool_decide_true. Qed.

Lemma puts_queue q ms :
  _size q + Z.of_nat (length ms) ≤ max_size q →
  _queue (puts q ms) ≡ₚ
    _queue q ++ imap (λ i m, (- priority m, (_counter q + i)%nat, m)) ms.
Proof.
  revert q. induction ms as [|m ms IH]; intros q Hroom.
  { simpl. by rewrite app_nil_r. }
  cbn [puts foldl]. simpl in Hroom. rewrite put_accepts by lia.
  cbn [snd]. fold (puts {| max_size := max_size q;
        _queue := heappush entry_lt (_queue q) (- priority m, _counter q, m);
        _counter := S (_counter q);
        _size := _size q + 1 |} ms).
  rewrite IH by (cbn [_size max_size]; lia). cbn [_queue _counter].
  rewrite (heappush_perm _ entry_lt_asym entry_le_trans), imap_cons.
  rewrite Nat.add_0_r. rewrite <-Permutation_middle. simpl.
  apply perm_skip, Permutation_app_head.
  erewrite imap_ext; [reflexivity|].
  intros i x _. simpl. do 2 f_equal. lia.
Qed.

Lemma puts_inv q ms : queue_inv q → queue_inv (puts q ms).
Proof.
  revert q. induction ms as [|m ms IH]; intros q Hq; [done|].
  apply IH. by apply put_inv.
Qed.

(** ** Dequeue order (claim C1) *)

(** The test of the specification: priorities 1, 4, 2, 4, 1 leave the queue
    as 4, 4, 2, 1, 1, equal priorities in the order of insertion. *)
Example gets_14241 :
  let ms := [sample_message "a" 1 None; sample_message "b" 4 None;
             sample_message "c" 2 None; sample_message "d" 4 None;
             sample_message "e" 1 None] in
  msg_id <$> omap id (gets 5 (puts (MessageQueue_init 10) ms)).1
  = ["b"; "d"; "c"; "a"; "e"].
Proof. reflexivity. Qed.

(** C1. Messages inserted with [put] come out of successive [get] calls by
    descending priority, and in insertion order among equal priorities:
    the [k]-th call returns the message inserted [idx !! k]-th, where [idx]
    lists every insertion index once, and of two calls the earlier one
    returns the message of higher priority or, at equal priority, the
    one inserted first.  After that the queue is empty.  The entries are
    keyed on minus the priority and the insertion counter. *)
Theorem put_get_priority_fifo (cap : Z) (ms : list Message) :
  Z.of_nat (length ms) ≤ cap →
  let q := puts (MessageQueue_init cap) ms in
  ∃ idx : list nat,
    idx ≡ₚ seq 0 (length ms) ∧
    (gets (length ms) q).1 = (λ i, ms !! i) <$> idx ∧
    (get (gets (length ms) q).2).1 = None ∧
    (∀ k l i j mi mj,
        (k < l)%nat → idx !! k = Some i → idx !! l = Some j →
        ms !! i = Some mi → ms !! j = Some mj →
        priority mj < priority mi ∨
        (priority mi = priority mj ∧ (i < j)%nat)) ∧
    _queue q ≡ₚ imap (λ i m, (- priority m, i, m)) ms.
Proof.
  intros Hcap q.
  assert (queue_inv q) as Hinv by apply puts_inv, queue_inv_init.
  assert (_queue q ≡ₚ imap (λ i m, (- priority m, i, m)) ms) as Hq.
  { unfold q. rewrite puts_queue by (simpl; lia). done. }
  assert (length ms = length (_queue q)) as Hlen by (by rewrite Hq, length_imap).
  destruct (gets_sorted (length ms) q Hinv Hlen) as (es & Hes & Hsorted & Hgets & Hempty).
  assert (∀ e, e ∈ es →
    ms !! entry_counter e = Some (entry_message e) ∧
    entry_key e = - priority (entry_message e)) as Hentries.
  { intros e He. rewrite Hes, Hq in He.
    apply elem_of_lookup_imap in He as (i & m & -> & Hm). done. }
  exists (entry_counter <$> es). split_and!.
  - rewrite Hes, Hq, fmap_imap. apply reflexive_eq.
    transitivity (imap (λ j (_ : Message), id j) ms); [by apply imap_ext|].
    rewrite imap_seq_0. apply list_fmap_id.
  - rewrite Hgets, <-list_fmap_compose. apply list_fmap_ext.
    intros i e He. simpl. symmetry. apply Hentries. by eapply list_elem_of_lookup_2.
  - by apply get_None.
  - intros k l i j mi mj Hkl Hk Hl Hmi Hmj.
    apply list_lookup_fmap_Some in Hk as (ek & -> & Hek).
    apply list_lookup_fmap_Some in Hl as (el & -> & Hel).
    pose proof (StronglySorted_lookup_lt _ _ _ _ _ _ Hsorted Hkl Hek Hel) as Hlt.
    apply entry_before_spec in Hlt.
    destruct (Hentries ek) as [Hk1 Hk2]; [by eapply list_elem_of_lookup_2|].
    destruct (Hentries el) as [Hl1 Hl2]; [by eapply list_elem_of_lookup_2|].
    rewrite Hk2, Hl2 in Hlt. simplify_eq. lia.
  - done.
Qed.

Lemma put_get_priority_fifo_witness :
  let ms := [sample_message "a" 1 None; sample_message "b" 4 None;
             sample_message "c" 2 None; sample_message "d" 4 None;
             sample_message "e" 1 None] in
  let q := puts (MessageQueue_init 5) ms in
  ∃ idx : list nat,
    idx ≡ₚ seq 0 (length ms) ∧
    (gets (length ms) q).1 = (λ i, ms !! i) <$> idx ∧
    (get (gets (length ms) q).2).1 = None ∧
    (∀ k l i j mi mj,
        (k < l)%nat → idx !! k = Some i → idx !! l = Some j →
        ms !! i = Some mi → ms !! j = Some mj →
        priority mj < priority mi ∨
        (priority mi = priority mj ∧ (i < j)%nat)) ∧
    _queue q ≡ₚ imap (λ i m, (- priority m, i, m)) ms.
Proof.
  intros ms. apply (put_get_priority_fifo 5 ms). simpl. lia.
Defined.

(** ** Expiry (claims C3 and C4) *)

(** [is_expired] is the specification's notion, except that a TTL of 0 is
    taken for no TTL. *)
Lemma is_expired_ttl_elapsed now m :
  is_expired now m = true ↔ ttl_elapsed now m = true ∧ ttl m ≠ Some 0.
Proof.
  unfold is_expired, ttl_elapsed. destruct (ttl m) as [t|].
  - destruct (bool_decide_reflect (t = 0)) as [->|Ht].
    + split; [done | by intros [_ ?]].
    + split; [intros; split; [done | congruence] | by intros [? _]].
  - split; [done | by intros [? _]].
Qed.

Lemma is_expired_no_ttl now m : ttl m = None → is_expired now m = false.
Proof. unfold is_expired. by intros ->. Qed.

Lemma is_expired_zero_ttl now m : ttl m = Some 0 → is_expired now m = false.
Proof. unfold is_expired. by intros ->. Qed.

Lemma is_expired_negative_ttl now m t :
  ttl m = Some t → t < 0 → timestamp m ≤ now → is_expired now m = true.
Proof.
  unfold is_expired, microseconds_per_second. intros -> Ht Hnow.
  rewrite bool_decide_false by lia. apply bool_decide_eq_true. lia.
Qed.

Lemma clear_expired_count now q :
  (clear_expired now q).1 =
    Z.of_nat (length (filter (λ e, is_expired now (entry_message e) = true) (_queue q))).
Proof.
  unfold clear_expired. destruct (_queue q) as [|e l] eqn:Hq; [done|].
  by rewrite clear_expired_loop_spec.
Qed.

Lemma filter_length_complement {A} (P : A → bool) (l : list A) :
  length l =
    (length (filter (λ x, P x = true) l) + length (filter (λ x, P x = false) l))%nat.
Proof.
  induction l as [|x l IH]; [done|]. rewrite !filter_cons.
  destruct (P x); simpl; rewrite ?decide_True, ?decide_False by done; simpl; lia.
Qed.

(** C3 as the specification words it fails on a message whose TTL is 0:
    five seconds after its timestamp that TTL has elapsed, yet the sweep
    removes nothing and reports 0. *)
Lemma clear_expired_zero_ttl_counterexample :
  let m := sample_message "z" 1 (Some 0) in
  let q := queue_after 10 [CallPut m] in
  let now := 5000000 in
  ttl_elapsed now m = true ∧
  clear_expired now q = (0, q) ∧
  ¬ (_queue (clear_expired now q).2 ≡ₚ
       filter (λ e, ttl_elapsed now (entry_message e) = false) (_queue q)).
Proof.
  split_and!; [done | done |].
  intros H. by apply Permutation_nil_r in H.
Qed.

(** C3 (amended). On a queue built by any calls of its methods,
    [clear_expired] removes exactly the entries whose message has a TTL
    other than 0 that has elapsed at [now]; it returns their number, and
    [size] drops by it; the [get] calls that follow return the remaining
    messages in the order in which they would have come without the sweep;
    no message without TTL, and none with TTL 0, is removed. *)
Theorem clear_expired_removes_expired (cap : Z) (calls : list queue_call) (now : Z) :
  let q := queue_after cap calls in
  let removed := (clear_expired now q).1 in
  let q' := (clear_expired now q).2 in
  let gone (m : Message) : Prop := ttl_elapsed now m = true ∧ ttl m ≠ Some 0 in
  _queue q' ≡ₚ filter (λ e, ¬ gone (entry_message e)) (_queue q) ∧
  removed = Z.of_nat (length (filter (λ e, gone (entry_message e)) (_queue q))) ∧
  size q' = size q - removed ∧
  (∃ before,
      get_all q = Some <$> before ∧
      get_all q' = Some <$> filter (λ m, ¬ gone m) before) ∧
  (∀ e, e ∈ _queue q →
      ttl (entry_message e) = None ∨ ttl (entry_message e) = Some 0 →
      e ∈ _queue q').
Proof.
  intros q removed q' gone.
  assert (queue_inv q) as Hinv by apply queue_after_inv.
  assert (queue_inv q') as Hinv' by by apply clear_expired_inv.
  assert (∀ m, ¬ gone m ↔ is_expired now m = false) as Hgone.
  { intros m. unfold gone. rewrite <-is_expired_ttl_elapsed. by destruct (is_expired now m). }
  assert (∀ m, gone m ↔ is_expired now m = true) as Hgone'.
  { intros m. unfold gone. by rewrite <-is_expired_ttl_elapsed. }
  assert (_queue q' ≡ₚ filter (λ e, ¬ gone (entry_message e)) (_queue q)) as Hperm.
  { unfold q'. rewrite clear_expired_queue. apply reflexive_eq, list_filter_iff.
    intros e. by rewrite Hgone. }
  assert (removed = Z.of_nat (length (filter (λ e, gone (entry_message e)) (_queue q))))
    as Hremoved.
  { unfold removed. rewrite clear_expired_count. do 2 f_equal. apply list_filter_iff.
    intros e. by rewrite Hgone'. }
  split_and!; [done | done | | |].
  - unfold size. rewrite (inv_size _ Hinv), (inv_size _ Hinv'), Hremoved, Hperm.
    rewrite (filter_length_complement (λ e, is_expired now (entry_message e)) (_queue q)).
    rewrite (list_filter_iff (λ e, gone (entry_message e))
               (λ e, is_expired now (entry_message e) = true))
      by (intros e; apply Hgone').
    rewrite (list_filter_iff (λ e, ¬ gone (entry_message e))
               (λ e, is_expired now (entry_message e) = false))
      by (intros e; apply Hgone).
    lia.
  - destruct (get_all_sorted q Hinv) as (es & Hes & Hsorted & Hget).
    destruct (get_all_sorted q' Hinv') as (es' & Hes' & Hsorted' & Hget').
    exists (entry_message <$> es). split; [by rewrite Hget, list_fmap_compose|].
    assert (es' = filter (λ e, ¬ gone (entry_message e)) es) as ->.
    { apply entry_sorted_unique; [done | by apply StronglySorted_filter |].
      by rewrite Hes', Hperm, Hes. }
    rewrite Hget', list_fmap_compose. f_equal.
    clear. induction es as [|e es IH]; [done|].
    cbn [fmap list_fmap]. rewrite !filter_cons.
    case_decide; cbn [fmap list_fmap]; by rewrite IH.
  - intros e He Httl. rewrite Hperm. apply list_elem_of_filter. split; [|done].
    intros [Hel Hne]. unfold ttl_elapsed in Hel.
    destruct Httl as [Httl|Httl]; [by rewrite Httl in Hel | done].
Qed.

(** C4 as worded fails on a message whose TTL is 0: [put] accepts it, it is
    not expired five seconds later, and the sweep keeps it. *)
Lemma zero_ttl_survives_sweep_counterexample :
  let m := sample_message "z" 1 (Some 0) in
  let q := (put (MessageQueue_init 10) m).2 in
  let now := 5000000 in
  (put (MessageQueue_init 10) m).1 = true ∧
  is_expired now m ≠ true ∧
  (-1, 0%nat, m) ∈ _queue (clear_expired now q).2.
Proof.
  split_and!; [done | done |]. vm_compute. by left.
Qed.

(** C4 (amended). A message with a TTL of 0 or less is accepted by [put]
    when there is room.  With a negative TTL it is expired at any instant
    from its timestamp on: the next sweep removes its entry, and
    [send_message], which checks expiry before it enqueues, refuses it.
    With a TTL of 0 it is never expired and every sweep keeps its entry. *)
Theorem nonpositive_ttl_insert_then_sweep (q : MessageQueue) (m : Message) (t : Z) :
  ttl m = Some t → t ≤ 0 → _size q < max_size q →
  let q1 := (put q m).2 in
  let e : entry := (- priority m, _counter q, m) in
  (put q m).1 = true ∧ e ∈ _queue q1 ∧
  (t < 0 → ∀ now, timestamp m ≤ now →
     is_expired now m = true ∧
     (e ∉ _queue (clear_expired now q1).2) ∧
     ∀ b, (send_message now b m).1 = false) ∧
  (t = 0 → ∀ now,
     is_expired now m = false ∧ e ∈ _queue (clear_expired now q1).2).
Proof.
  intros Httl Ht Hroom q1 e.
  assert (e ∈ _queue q1) as He.
  { unfold q1. rewrite put_accepts by done. cbn [snd _queue].
    rewrite (heappush_perm _ entry_lt_asym entry_le_trans). by left. }
  split_and!.
  - by rewrite put_accepts.
  - done.
  - intros Hneg now Hnow.
    pose proof (is_expired_negative_ttl now m t Httl Hneg Hnow) as Hexp.
    split_and!; [done | |].
    + rewrite clear_expired_queue. intros [Hne _]%list_elem_of_filter.
      unfold e, entry_message in Hne. simpl in Hne. congruence.
    + intros b. unfold send_message. destruct (_apply_filters b m); [|done].
      simpl. by rewrite Hexp.
  - intros -> now.
    pose proof (is_expired_zero_ttl now m Httl) as Hexp. split; [done|].
    rewrite clear_expired_queue. apply list_elem_of_filter. by split.
Qed.

Lemma nonpositive_ttl_insert_then_sweep_witness :
  let m := sample_message "late" 2 (Some (-5)) in
  let q := MessageQueue_init 3 in
  let q1 := (put q m).2 in
  let e : entry := (- priority m, _counter q, m) in
  (put q m).1 = true ∧ e ∈ _queue q1 ∧
  (-5 < 0 → ∀ now, timestamp m ≤ now →
     is_expired now m = true ∧
     (e ∉ _queue (clear_expired now q1).2) ∧
     ∀ b, (send_message now b m).1 = false) ∧
  (-5 = 0 → ∀ now,
     is_expired now m = false ∧ e ∈ _queue (clear_expired now q1).2).
Proof.
  intros m q. apply (nonpositive_ttl_insert_then_sweep q m (-5)).
  - reflexivity.
  - lia.
  - simpl. lia.
Defined.

(** ** Dictionaries *)

Lemma filter_all {A} (P : A → Prop) `{!∀ x, Decision (P x)} (l : list A) :
  Forall P l → filter P l = l.
Proof.
  induction 1 as [|x l Hx _ IH]; [done|].
  by rewrite filter_cons_True, IH by done.
Qed.

Lemma filter_none {A} (P : A → Prop) `{!∀ x, Decision (P x)} (l : list A) :
  Forall (λ x, ¬ P x) l → filter P l = [].
Proof.
  induction 1 as [|x l Hx _ IH]; [done|].
  by rewrite filter_cons_False, IH by done.
Qed.

Section DictFacts.
Context {V : Type}.
Implicit Types (d : list (string * V)) (k : string) (v : V).

Lemma dict_get_None d k : dict_get d k = None ↔ k ∉ dict_keys d.
Proof.
  unfold dict_keys. induction d as [|[k' v'] d IH]; csimpl.
  { split; [intros _; apply not_elem_of_nil | done]. }
  rewrite not_elem_of_cons. case_decide as Hk.
  - split; [done | by intros [? _]].
  - rewrite IH. split; [by split | by intros [_ ?]].
Qed.

Lemma dict_in_keys d k : dict_in k d = true ↔ k ∈ dict_keys d.
Proof.
  unfold dict_in. rewrite bool_decide_eq_true, <-not_eq_None_Some, dict_get_None.
  destruct (decide (k ∈ dict_keys d)); naive_solver.
Qed.

Lemma dict_in_false d k : dict_in k d = false ↔ dict_get d k = None.
Proof.
  rewrite dict_get_None, <-dict_in_keys. by destruct (dict_in k d).
Qed.

Lemma dict_get_set_eq d k v : dict_get (dict_set d k v) k = Some v.
Proof.
  induction d as [|[k' v'] d IH]; simpl; [by rewrite decide_True|].
  case_decide; simpl; [by rewrite decide_True|]. by rewrite decide_False.
Qed.

Lemma dict_get_set_ne d k k' v :
  k ≠ k' → dict_get (dict_set d k v) k' = dict_get d k'.
Proof.
  intros Hne. induction d as [|[k1 v1] d IH]; simpl; [by rewrite decide_False|].
  case_decide; simpl; [subst; by rewrite !decide_False|].
  by rewrite IH.
Qed.

Lemma dict_keys_set d k v :
  dict_keys (dict_set d k v) =
    if dict_in k d then dict_keys d else dict_keys d ++ [k].
Proof.
  unfold dict_keys, dict_in. induction d as [|[k' v'] d IH]; [done|].
  cbn [dict_set dict_get]. destruct (decide (k' = k)) as [->|Hne].
  - by rewrite bool_decide_true by eauto.
  - rewrite fmap_cons, IH. by destruct (bool_decide _).
Qed.

Lemma dict_set_id d k v : dict_get d k = Some v → dict_set d k v = d.
Proof.
  induction d as [|[k' v'] d IH]; simpl; [done|].
  case_decide; [by intros [= ->]; subst|]. intros. by rewrite IH.
Qed.

Lemma dict_keys_del d k :
  NoDup (dict_keys d) → dict_keys (dict_del d k) = filter (λ k', k' ≠ k) (dict_keys d).
Proof.
  unfold dict_keys. induction d as [|[k' v'] d IH]; [done|].
  rewrite fmap_cons. intros [Hnotin Hnd]%NoDup_cons.
  cbn [dict_del fst]. destruct (decide (k' = k)) as [->|Hne].
  - rewrite filter_cons_False by (by intros ?).
    symmetry. apply filter_all, Forall_forall. by intros x Hx ->.
  - rewrite filter_cons_True, fmap_cons by done. by rewrite IH.
Qed.

Lemma dict_get_del_eq d k : NoDup (dict_keys d) → dict_get (dict_del d k) k = None.
Proof.
  intros Hnd. rewrite dict_get_None, dict_keys_del by done.
  rewrite list_elem_of_filter. by intros [? _].
Qed.

Lemma dict_get_del_ne d k k' : k ≠ k' → dict_get (dict_del d k) k' = dict_get d k'.
Proof.
  intros Hne. induction d as [|[k1 v1] d IH]; simpl; [done|].
  case_decide; simpl; [subst; by rewrite decide_False|]. by rewrite IH.
Qed.

Lemma dict_set_NoDup d k v : NoDup (dict_keys d) → NoDup (dict_keys (dict_set d k v)).
Proof.
  intros Hnd. rewrite dict_keys_set. destruct (dict_in k d) eqn:E; [done|].
  apply NoDup_app. split_and!; [done | | apply NoDup_singleton].
  intros x Hx ->%list_elem_of_singleton.
  apply dict_in_keys in Hx. congruence.
Qed.

Lemma dict_del_NoDup d k : NoDup (dict_keys d) → NoDup (dict_keys (dict_del d k)).
Proof.
  intros Hnd. rewrite dict_keys_del by done. by apply NoDup_filter.
Qed.

End DictFacts.

(** ** [send_message] (claims C2 and C10) *)

Lemma apply_filters_loop_false fs m :
  apply_filters_loop fs m = false ↔ ∃ f, f ∈ fs ∧ f m = FilterFalse.
Proof.
  induction fs as [|f fs IH]; simpl.
  { split; [done | by intros (f & ?%elem_of_nil & _)]. }
  destruct (f m) eqn:Hf.
  - rewrite IH. split.
    + intros (g & Hg & Hgm). exists g. split; [by right | done].
    + intros (g & Hg & Hgm). apply elem_of_cons in Hg as [->|Hg]; [congruence|eauto].
  - split; [intros _; exists f; split; [by left | done] | done].
  - rewrite IH. split.
    + intros (g & Hg & Hgm). exists g. split; [by right | done].
    + intros (g & Hg & Hgm). apply elem_of_cons in Hg as [->|Hg]; [congruence|eauto].
Qed.

Lemma apply_filters_loop_true fs m :
  apply_filters_loop fs m = true ↔ ∀ f, f ∈ fs → f m ≠ FilterFalse.
Proof.
  rewrite <-not_false_iff_true, apply_filters_loop_false. split.
  - intros Hno f Hf Hfm. apply Hno. eauto.
  - intros Hall (f & Hf & Hfm). by apply (Hall f).
Qed.

(** A filter that raises on [m] weighs on the verdict like no filter: the
    filters before and after it decide. *)
Lemma apply_filters_loop_raises fs1 f fs2 m :
  f m = FilterRaises →
  apply_filters_loop (fs1 ++ f :: fs2) m = apply_filters_loop (fs1 ++ fs2) m.
Proof.
  intros Hf. induction fs1 as [|g fs1 IH]; simpl; [by rewrite Hf|].
  by rewrite IH.
Qed.

Lemma notify_fields b m :
  message_queue (_notify_websocket_clients b m) = message_queue b ∧
  subscribers (_notify_websocket_clients b m) = subscribers b ∧
  failed_deliveries (_notify_websocket_clients b m) = failed_deliveries b ∧
  message_filters (_notify_websocket_clients b m) = message_filters b ∧
  message_history (_notify_websocket_clients b m) = message_history b ∧
  messages_sent (metrics (_notify_websocket_clients b m)) = messages_sent (metrics b) ∧
  messages_delivered (metrics (_notify_websocket_clients b m))
    = messages_delivered (metrics b) ∧
  messages_failed (metrics (_notify_websocket_clients b m)) = messages_failed (metrics b) ∧
  messages_expired (metrics (_notify_websocket_clients b m)) = messages_expired (metrics b).
Proof. unfold _notify_websocket_clients. by destruct (websocket_clients b). Qed.

(** [send_message] in one formula: the verdict, and what becomes of the
    parts of the state that the claims speak of. *)
Lemma send_message_spec now b m :
  let accepted :=
    _apply_filters b m && negb (is_expired now m) && negb (is_full (message_queue b)) in
  let b' := (send_message now b m).2 in
  (send_message now b m).1 = accepted ∧
  message_queue b' = (if accepted then (put (message_queue b) m).2 else message_queue b) ∧
  subscribers b' = subscribers b ∧
  failed_deliveries b' = failed_deliveries b ∧
  message_filters b' = message_filters b ∧
  messages_sent (metrics b')
    = messages_sent (metrics b) + (if accepted then 1 else 0) ∧
  messages_expired (metrics b')
    = messages_expired (metrics b)
      + (if _apply_filters b m && is_expired now m then 1 else 0) ∧
  messages_delivered (metrics b') = messages_delivered (metrics b) ∧
  messages_failed (metrics b') = messages_failed (metrics b).
Proof.
  unfold send_message, is_full.
  destruct (_apply_filters b m); simpl.
  2:{ split_and!; try done; lia. }
  destruct (is_expired now m); simpl.
  { split_and!; try done; lia. }
  unfold put. case_bool_decide; simpl.
  { split_and!; try done; lia. }
  match goal with |- context [_notify_websocket_clients ?x m] =>
    destruct (notify_fields x m) as (-> & -> & -> & -> & _ & -> & -> & -> & ->) end.
  simpl. split_and!; try done; lia.
Qed.

(** ** Every run keeps the invariant of the bus *)

Lemma put_size q m :
  max_size (put q m).2 = max_size q ∧
  (_size q ≤ max_size q → _size (put q m).2 ≤ max_size q).
Proof.
  unfold put. case_bool_decide; simpl; [done|]. split; [done | lia].
Qed.

Lemma get_size q :
  max_size (get q).2 = max_size q ∧ _size (get q).2 ≤ _size q.
Proof.
  rewrite get_unfold. destruct (heappop entry_lt (_queue q)) as [[[[k c] m] h]|]; simpl;
    split; (done || lia).
Qed.

Lemma clear_expired_size now q :
  queue_inv q →
  max_size (clear_expired now q).2 = max_size q ∧
  _size (clear_expired now q).2 ≤ _size q.
Proof.
  intros Hinv. unfold clear_expired.
  destruct (_queue q) as [|e l] eqn:Hq; [done|]. rewrite <-Hq.
  rewrite clear_expired_loop_spec. simpl. split; [done|].
  rewrite (inv_size _ Hinv).
  pose proof (length_filter (λ e, is_expired now (entry_message e) = false) (_queue q)).
  lia.
Qed.

Lemma bus_inv_init start cap : 0 ≤ cap → bus_inv cap (CommunicationBus_init start cap).
Proof.
  intros Hcap. split; simpl; [apply queue_inv_init | done | done | constructor..|].
  by intros a ?%elem_of_nil.
Qed.

Lemma bus_inv_send cap now b m :
  bus_inv cap b → bus_inv cap (send_message now b m).2.
Proof.
  intros [Hq Hcap Hbound Hs Hf Hfs].
  destruct (send_message_spec now b m) as (_ & Hq' & Hs' & Hf' & _).
  destruct (put_size (message_queue b) m) as [Hmax Hsize].
  split; rewrite ?Hq', ?Hs', ?Hf'; try done.
  - destruct (_ && _); [by apply put_inv | done].
  - destruct (_ && _); [congruence | done].
  - unfold size in *. destruct (_ && _); [|done]. rewrite <-Hcap. apply Hsize. lia.
Qed.

Lemma bus_inv_subscribe cap now fresh b a cb :
  bus_inv cap b → bus_inv cap (subscribe now fresh b a cb).
Proof.
  intros [Hq Hcap Hbound Hs Hf Hfs]. unfold subscribe. apply bus_inv_send.
  split; simpl; try done.
  - by apply dict_set_NoDup.
  - intros x Hx. rewrite dict_keys_set. destruct (dict_in a (subscribers b)); [eauto|].
    apply elem_of_app. left. eauto.
Qed.

Lemma bus_inv_unsubscribe cap b a : bus_inv cap b → bus_inv cap (unsubscribe b a).
Proof.
  intros [Hq Hcap Hbound Hs Hf Hfs]. unfold unsubscribe.
  destruct (dict_in a (subscribers b)) eqn:Hin; [|by split].
  cbn [failed_deliveries with_metrics with_subscribers].
  destruct (dict_in a (failed_deliveries b)) eqn:Hinf.
  - split; simpl; try done.
    + by apply dict_del_NoDup.
    + by apply dict_del_NoDup.
    + intros x. rewrite !dict_keys_del by done. rewrite !list_elem_of_filter.
      intros [? ?]. eauto.
  - split; simpl; try done.
    + by apply dict_del_NoDup.
    + intros x Hx. rewrite dict_keys_del by done. rewrite list_elem_of_filter.
      split; [|eauto]. intros ->. apply dict_in_keys in Hx. congruence.
Qed.

Lemma deliver_fields b r m :
  let b' := (_deliver_to_subscriber b r m).2 in
  message_queue b' = message_queue b ∧ subscribers b' = subscribers b ∧
  metrics b' = metrics b ∧ message_filters b' = message_filters b ∧
  (failed_deliveries b' = failed_deliveries b ∨
   (r ∈ dict_keys (subscribers b) ∧
    failed_deliveries b' = failed_append (failed_deliveries b) r m)).
Proof.
  unfold _deliver_to_subscriber.
  destruct (dict_get (subscribers b) r) as [cb|] eqn:Hr; simpl; [|by split_and!; auto].
  destruct (cb _); simpl; [by split_and!; auto|].
  split_and!; try done. right. split; [|done].
  apply dict_in_keys. unfold dict_in. rewrite Hr. by apply bool_decide_eq_true.
Qed.

Lemma bus_inv_deliver cap b r m :
  bus_inv cap b → bus_inv cap (_deliver_to_subscriber b r m).2.
Proof.
  intros [Hq Hcap Hbound Hs Hf Hfs].
  destruct (deliver_fields b r m) as (Hq' & Hs' & _ & _ & [Hf'|[Hr Hf']]).
  - split; rewrite ?Hq', ?Hs', ?Hf'; done.
  - split; rewrite ?Hq', ?Hs', ?Hf'; try done.
    + by apply dict_set_NoDup.
    + intros x. unfold failed_append. rewrite dict_keys_set.
      destruct (dict_in r (failed_deliveries b)); [eauto|].
      intros [?| ->%list_elem_of_singleton]%elem_of_app; eauto.
Qed.

Lemma gather_fields b rs m :
  let b' := (gather_deliveries b rs m).2 in
  message_queue b' = message_queue b ∧ subscribers b' = subscribers b ∧
  metrics b' = metrics b ∧ message_filters b' = message_filters b.
Proof.
  revert b. induction rs as [|r rs IH]; intros b; [done|].
  cbn [gather_deliveries].
  destruct (deliver_fields b r m) as (Hq & Hs & Hm & Hfl & _).
  destruct (_deliver_to_subscriber b r m) as [res b1]. cbn [snd] in *.
  specialize (IH b1). destruct (gather_deliveries b1 rs m) as [ress b2]. cbn [snd] in *.
  destruct IH as (-> & -> & -> & ->). done.
Qed.

Lemma bus_inv_gather cap b rs m :
  bus_inv cap b → bus_inv cap (gather_deliveries b rs m).2.
Proof.
  revert b. induction rs as [|r rs IH]; intros b Hb; [done|].
  cbn [gather_deliveries].
  pose proof (bus_inv_deliver cap b r m Hb) as Hb1.
  destruct (_deliver_to_subscriber b r m) as [res b1]. cbn [snd] in *.
  specialize (IH b1 Hb1). by destruct (gather_deliveries b1 rs m) as [ress b2].
Qed.

Lemma bus_inv_with_metrics cap b mt : bus_inv cap b → bus_inv cap (with_metrics b mt).
Proof. by intros []. Qed.

Lemma bus_inv_route cap b m : bus_inv cap b → bus_inv cap (_route_message b m).
Proof.
  intros Hb. unfold _route_message.
  destruct (filter _ (_determine_recipients b m)) as [|r rs]; [done|].
  pose proof (bus_inv_gather cap b (r :: rs) m Hb) as Hb'.
  destruct (gather_deliveries b (r :: rs) m) as [res b']. by apply bus_inv_with_metrics.
Qed.

Lemma bus_inv_process cap b : bus_inv cap b → bus_inv cap (process_one b).
Proof.
  intros Hb. unfold process_one.
  pose proof (get_inv (message_queue b) (bus_queue_inv _ _ Hb)) as Hq.
  pose proof (get_size (message_queue b)) as [Hmax Hsize].
  destruct (get (message_queue b)) as [[m|] q]; [|done]. cbn [snd] in *.
  apply bus_inv_route. destruct Hb as [? Hcap Hbound ? ? ?].
  split; simpl; try done; [congruence | unfold size in *; lia].
Qed.

Lemma bus_inv_cleanup cap now b : bus_inv cap b → bus_inv cap (cleanup_once now b).
Proof.
  intros [Hq Hcap Hbound Hs Hf Hfs]. unfold cleanup_once.
  pose proof (clear_expired_inv now _ Hq) as Hq'.
  pose proof (clear_expired_size now _ Hq) as [Hmax Hsize].
  destruct (clear_expired now (message_queue b)) as [k q]. cbn [snd] in *.
  assert (∀ (fd : list (string * list Message)) (f : list Message → list Message),
            dict_keys (prod_map id f <$> fd) = dict_keys fd) as Hkeys.
  { intros fd f. unfold dict_keys. rewrite <-list_fmap_compose.
    apply list_fmap_ext. by intros i []. }
  case_bool_decide; split; simpl; rewrite ?Hkeys; try done;
    (congruence || unfold size in *; lia).
Qed.

Lemma retry_messages_inv cap now b ms n :
  bus_inv cap b → bus_inv cap (retry_messages now b ms n).2.
Proof.
  revert b n. induction ms as [|m ms IH]; intros b n Hb; [done|].
  cbn [retry_messages]. destruct (is_expired now m); simpl; [by apply IH|].
  pose proof (bus_inv_send cap now b m Hb) as Hb'.
  destruct (send_message now b m) as [r b']. by apply IH.
Qed.

Lemma retry_agents_inv cap now b aids n :
  bus_inv cap b → bus_inv cap (retry_agents now b aids n).2.
Proof.
  revert b n. induction aids as [|a aids IH]; intros b n Hb; [done|].
  cbn [retry_agents].
  destruct (dict_get (failed_deliveries b) a) as [msgs|] eqn:Ha; [|by apply IH].
  assert (bus_inv cap (with_failed b (dict_set (failed_deliveries b) a []))) as Hb1.
  { destruct Hb as [Hq Hcap Hbound Hs Hf Hfs]. split; simpl; try done.
    - by apply dict_set_NoDup.
    - intros x. rewrite dict_keys_set.
      assert (dict_in a (failed_deliveries b) = true) as ->; [|by eauto].
      unfold dict_in. rewrite Ha. by apply bool_decide_eq_true. }
  pose proof (retry_messages_inv cap now _ msgs n Hb1) as Hb2.
  destruct (retry_messages now _ msgs n) as [n' b2]. by apply IH.
Qed.

Lemma bus_do_inv cap b c : bus_inv cap b → bus_inv cap (bus_do b c).
Proof.
  intros Hb. destruct c as [now []]; unfold bus_do; cbn [fst snd].
  - by destruct Hb.
  - by destruct Hb.
  - by apply bus_inv_subscribe.
  - by apply bus_inv_unsubscribe.
  - by apply bus_inv_send.
  - destruct (running b); [by apply bus_inv_process | done].
  - destruct (running b); [by apply bus_inv_cleanup | done].
  - by apply retry_agents_inv.
  - by destruct Hb.
  - by destruct Hb.
  - by destruct Hb.
  - by destruct Hb.
  - done.
Qed.

Lemma bus_after_inv start cap calls : 0 ≤ cap → bus_inv cap (bus_after start cap calls).
Proof.
  intros Hcap. unfold bus_after. generalize (bus_inv_init start cap Hcap).
  generalize (CommunicationBus_init start cap).
  induction calls as [|c calls IH]; simpl; [done|].
  intros b Hb. by apply IH, bus_do_inv.
Qed.

Lemma put_accepted_entry q m :
  (put q m).1 = true →
  _size (put q m).2 = _size q + 1 ∧
  (- priority m, _counter q, m) ∈ _queue (put q m).2.
Proof.
  unfold put. case_bool_decide; simpl; [done|]. intros _. split; [done|].
  rewrite (heappush_perm _ entry_lt_asym entry_le_trans). by left.
Qed.

Lemma put_verdict q m : (put q m).1 = negb (is_full q).
Proof. unfold put, is_full. by case_bool_decide. Qed.

(** The test of the specification: capacity 2, three sends; the third is
    refused and the size stays 2. *)
Example send_third_refused :
  let b := bus_after 0 2 [(2, CallSend (sample_message "a" 1 None));
                          (3, CallSend (sample_message "b" 2 None))] in
  (send_message 4 b (sample_message "c" 4 None)).1 = false ∧
  size (message_queue (send_message 4 b (sample_message "c" 4 None)).2) = 2.
Proof. done. Qed.

(** C10. A filter that raises on a message does not reject it: the
    verdict of [_apply_filters] is that of the other filters, those before
    it and those after it.  So the message is queued when no filter returns
    a false value (and it is not expired, and there is room), and it is
    refused when another filter returns a false value. *)
Theorem raising_filter_is_absorbed (now : Z) (b : CommunicationBus) (m : Message)
    (fs1 fs2 : list message_filter) (f : message_filter) :
  message_filters b = fs1 ++ f :: fs2 →
  f m = FilterRaises →
  _apply_filters b m = apply_filters_loop (fs1 ++ fs2) m ∧
  ((∀ g, g ∈ message_filters b → g m ≠ FilterFalse) →
   is_expired now m = false → is_full (message_queue b) = false →
   (send_message now b m).1 = true ∧
   (- priority m, _counter (message_queue b), m)
     ∈ _queue (message_queue (send_message now b m).2)) ∧
  ((∃ g, g ∈ fs1 ++ fs2 ∧ g m = FilterFalse) →
   (send_message now b m).1 = false ∧
   message_queue (send_message now b m).2 = message_queue b).
Proof.
  intros Hfs Hf.
  assert (_apply_filters b m = apply_filters_loop (fs1 ++ fs2) m) as Happly.
  { unfold _apply_filters. rewrite Hfs. by apply apply_filters_loop_raises. }
  destruct (send_message_spec now b m) as (Hv & Hq & _).
  split_and!; [done | |].
  - intros Hall Hexp Hfull.
    assert (_apply_filters b m = true) as Hpass by by apply apply_filters_loop_true.
    rewrite Hpass, Hexp, Hfull in Hv, Hq. simpl in Hv, Hq.
    split; [done|]. rewrite Hq. apply put_accepted_entry.
    by rewrite put_verdict, Hfull.
  - intros Hrej. apply apply_filters_loop_false in Hrej.
    rewrite Happly, Hrej in Hv, Hq. done.
Qed.

Lemma raising_filter_is_absorbed_witness :
  let b := bus_after 0 5 [(1, CallAddFilter (always FilterTrue));
                          (2, CallAddFilter (always FilterRaises));
                          (3, CallAddFilter (always FilterTrue))] in
  let m := sample_message "a" 1 None in
  _apply_filters b m = apply_filters_loop ([always FilterTrue] ++ [always FilterTrue]) m ∧
  ((∀ g, g ∈ message_filters b → g m ≠ FilterFalse) →
   is_expired 4 m = false → is_full (message_queue b) = false →
   (send_message 4 b m).1 = true ∧
   (- priority m, _counter (message_queue b), m)
     ∈ _queue (message_queue (send_message 4 b m).2)) ∧
  ((∃ g, g ∈ [always FilterTrue] ++ [always FilterTrue] ∧ g m = FilterFalse) →
   (send_message 4 b m).1 = false ∧
   message_queue (send_message 4 b m).2 = message_queue b).
Proof.
  intros b m.
  apply (raising_filter_is_absorbed 4 b m [always FilterTrue] [always FilterTrue]
           (always FilterRaises)); reflexivity.
Defined.

(** A filter that raises, then one that accepts: the message is queued.  A
    filter that raises, then one that rejects: it is not. *)
Example send_past_raising_filter :
  let m := sample_message "a" 1 None in
  (send_message 3 (bus_after 0 5 [(1, CallAddFilter (always FilterRaises));
                                  (2, CallAddFilter (always FilterTrue))]) m).1 = true ∧
  (send_message 3 (bus_after 0 5 [(1, CallAddFilter (always FilterRaises));
                                  (2, CallAddFilter (always FilterFalse))]) m).1 = false.
Proof. done. Qed.

(** ** Routing (claims C5 and C6) *)

(** C6. For a message to ["broadcast"], the recipients the router
    resolves are exactly the subscribed addresses other than the sender's:
    the keys of [subscribers], in their order, without the sender. *)
Theorem broadcast_recipients (b : CommunicationBus) (m : Message) :
  recipient m = "broadcast" →
  (∀ a, a ∈ _determine_recipients b m ↔
        dict_in a (subscribers b) = true ∧ a ≠ sender m) ∧
  (sender m ∉ _determine_recipients b m) ∧
  _determine_recipients b m
    = filter (λ a, a ≠ sender m) (dict_keys (subscribers b)).
Proof.
  intros Hr. unfold _determine_recipients. rewrite decide_True by done.
  split_and!; [|by intros [? _]%list_elem_of_filter | done].
  intros a. rewrite list_elem_of_filter, dict_in_keys. tauto.
Qed.

Lemma broadcast_recipients_witness :
  let b := bus_after 0 10 [(1, CallSubscribe "w1" "A" (λ _, true));
                           (2, CallSubscribe "w2" "B" (λ _, true));
                           (3, CallSubscribe "w3" "C" (λ _, true))] in
  let m := message_to "hello" "A" "broadcast" 1 None in
  (∀ a, a ∈ _determine_recipients b m ↔
        dict_in a (subscribers b) = true ∧ a ≠ sender m) ∧
  (sender m ∉ _determine_recipients b m) ∧
  _determine_recipients b m
    = filter (λ a, a ≠ sender m) (dict_keys (subscribers b)).
Proof.
  intros b m. apply (broadcast_recipients b m). reflexivity.
Defined.

(** The test of the specification: A, B and C subscribed, A broadcasts; B
    and C are the recipients. *)
Example broadcast_ABC :
  let b := bus_after 0 10 [(1, CallSubscribe "w1" "A" (λ _, true));
                           (2, CallSubscribe "w2" "B" (λ _, true));
                           (3, CallSubscribe "w3" "C" (λ _, true))] in
  _determine_recipients b (message_to "hello" "A" "broadcast" 1 None) = ["B"; "C"].
Proof. reflexivity. Qed.

(** C5 as worded fails: a message to an address nobody subscribed is sent,
    taken from the queue and routed, and [messages_failed] is still 0. *)
Lemma unroutable_not_counted_counterexample :
  let m := message_to "lost" "alice" "ghost" 1 None in
  let b := bus_after 0 10 [(1, CallStart);
                           (2, CallSubscribe "w1" "bob" (λ _, true));
                           (3, CallProcess)] in
  dict_in (recipient m) (subscribers b) = false ∧
  _determine_recipients b m = [] ∧
  messages_failed (metrics b) = 0 ∧
  ¬ (messages_failed (metrics b) < messages_failed (metrics (_route_message b m))) ∧
  messages_failed (metrics (bus_after 0 10 [(1, CallStart);
                                            (2, CallSubscribe "w1" "bob" (λ _, true));
                                            (3, CallProcess);
                                            (4, CallSend m);
                                            (5, CallProcess)])) = 0.
Proof. split_and!; [done | done | done | | done]. vm_compute. by intros [=]. Qed.

(** C5 (amended). When the recipient of a message is not a subscribed
    address and is neither ["broadcast"] nor a ["group:"] token, the router
    resolves no recipient, and routing the message changes nothing in the
    bus: no callback runs, no backlog grows, and no counter moves,
    [messages_failed] included. *)
Theorem unroutable_changes_nothing (b : CommunicationBus) (m : Message) :
  recipient m ≠ "broadcast" →
  String.prefix "group:" (recipient m) = false →
  dict_in (recipient m) (subscribers b) = false →
  _determine_recipients b m = [] ∧
  _route_message b m = b ∧
  messages_failed (metrics (_route_message b m)) = messages_failed (metrics b).
Proof.
  intros Hb Hg Hs.
  assert (_determine_recipients b m = []) as Hnone.
  { unfold _determine_recipients. by rewrite decide_False, Hg, Hs by done. }
  assert (_route_message b m = b) as Hsame.
  { unfold _route_message. by rewrite Hnone. }
  by rewrite Hsame.
Qed.

Lemma unroutable_changes_nothing_witness :
  let m := message_to "lost" "alice" "ghost" 1 None in
  let b := bus_after 0 10 [(1, CallStart); (2, CallSubscribe "w1" "bob" (λ _, true))] in
  _determine_recipients b m = [] ∧
  _route_message b m = b ∧
  messages_failed (metrics (_route_message b m)) = messages_failed (metrics b).
Proof.
  intros m b. apply (unroutable_changes_nothing b m); [discriminate | reflexivity..].
Defined.

(** ** Retrying failed deliveries (claims C7 and C8) *)

Lemma with_failed_id b : with_failed b (failed_deliveries b) = b.
Proof. by destruct b. Qed.

(** [send_message] neither reads nor writes the backlogs. *)
Lemma send_message_with_failed now b fd m :
  send_message now (with_failed b fd) m =
    ((send_message now b m).1, with_failed (send_message now b m).2 fd).
Proof.
  unfold send_message, _apply_filters. cbn [message_filters with_failed].
  destruct (apply_filters_loop _ m); simpl; [|done].
  destruct (is_expired now m); simpl; [done|].
  destruct (put (message_queue b) m) as [[] q]; [|done].
  unfold _notify_websocket_clients. simpl. by destruct (websocket_clients b).
Qed.

Lemma send_all_with_failed now b fd ms :
  send_all now (with_failed b fd) ms =
    ((send_all now b ms).1, with_failed (send_all now b ms).2 fd).
Proof.
  revert b. induction ms as [|m ms IH]; intros b; [done|].
  cbn [send_all]. rewrite send_message_with_failed.
  destruct (send_message now b m) as [r b1]. cbn [fst snd].
  rewrite IH. by destruct (send_all now b1 ms).
Qed.

Lemma send_all_app now b l1 l2 :
  send_all now b (l1 ++ l2) =
    ((send_all now b l1).1 + (send_all now (send_all now b l1).2 l2).1,
     (send_all now (send_all now b l1).2 l2).2).
Proof.
  revert b. induction l1 as [|m l1 IH]; intros b.
  { simpl. by destruct (send_all now b l2). }
  cbn [send_all app]. destruct (send_message now b m) as [r b1].
  rewrite IH. destruct (send_all now b1 l1) as [k1 b2]. cbn [fst snd].
  destruct (send_all now b2 l2) as [k2 b3]. cbn [fst snd]. f_equal. lia.
Qed.

Lemma retry_messages_send_all now b ms n :
  let live := filter (λ m, is_expired now m = false) ms in
  retry_messages now b ms n =
    (n + (send_all now b live).1, (send_all now b live).2).
Proof.
  revert b n. induction ms as [|m ms IH]; intros b n; simpl.
  { f_equal. lia. }
  rewrite filter_cons. destruct (is_expired now m) eqn:E; simpl.
  { apply IH. }
  destruct (send_message now b m) as [r b1]. rewrite IH.
  destruct (send_all now b1 _) as [k b2]. cbn [fst snd]. f_equal.
  destruct r; lia.
Qed.

Lemma send_all_fields now b ms :
  failed_deliveries (send_all now b ms).2 = failed_deliveries b ∧
  subscribers (send_all now b ms).2 = subscribers b ∧
  message_filters (send_all now b ms).2 = message_filters b.
Proof.
  revert b. induction ms as [|m ms IH]; intros b; [done|].
  cbn [send_all].
  destruct (send_message_spec now b m) as (_ & _ & Hs & Hf & Hfl & _).
  destruct (send_message now b m) as [r b1]. cbn [snd] in *.
  specialize (IH b1). destruct (send_all now b1 ms) as [k b2]. cbn [snd] in *.
  destruct IH as (-> & -> & ->). done.
Qed.

(** The count [send_all] returns is the number of accepted messages: the
    growth of [messages_sent] and of the queue. *)
Lemma send_all_count now b ms :
  let n := (send_all now b ms).1 in
  let b' := (send_all now b ms).2 in
  n = messages_sent (metrics b') - messages_sent (metrics b) ∧
  n = size (message_queue b') - size (message_queue b) ∧
  0 ≤ n ≤ Z.of_nat (length ms) ∧
  messages_delivered (metrics b') = messages_delivered (metrics b) ∧
  messages_failed (metrics b') = messages_failed (metrics b) ∧
  (Forall (λ m, is_expired now m = false) ms →
   messages_expired (metrics b') = messages_expired (metrics b)).
Proof.
  revert b. induction ms as [|m ms IH]; intros b.
  { simpl. split_and!; (done || lia). }
  cbn [send_all].
  destruct (send_message_spec now b m) as (Hv & Hq & _ & _ & _ & Hsent & Hexp & Hdel & Hfail).
  destruct (send_message now b m) as [r b1]. cbn [fst snd] in *.
  specialize (IH b1). destruct (send_all now b1 ms) as [k b2]. cbn [fst snd] in *.
  destruct IH as (IH1 & IH2 & IH3 & IH4 & IH5 & IH6).
  assert (size (message_queue b1) = size (message_queue b) + (if r then 1 else 0)) as Hsize.
  { rewrite Hq, <-Hv. destruct r; [|lia].
    apply put_accepted_entry. rewrite put_verdict.
    symmetry in Hv. by apply andb_true_iff in Hv as [_ ?]. }
  rewrite <-Hv in Hsent.
  split_and!; try (destruct r; simpl length; lia); try congruence.
  intros [Hm Hall]%Forall_cons. rewrite IH6, Hexp by done.
  rewrite Hm, andb_false_r. lia.
Qed.

Lemma send_all_accepts_all now b ms :
  Forall (λ m, is_expired now m = false ∧ _apply_filters b m = true) ms →
  size (message_queue b) + Z.of_nat (length ms) ≤ max_size (message_queue b) →
  (send_all now b ms).1 = Z.of_nat (length ms).
Proof.
  revert b. induction ms as [|m ms IH]; intros b Hall Hroom; [done|].
  apply Forall_cons in Hall as [[Hexp Hpass] Hall]. cbn [send_all].
  destruct (send_message_spec now b m) as (Hv & Hq & _ & _ & Hfl & _).
  rewrite Hpass, Hexp in Hv, Hq. unfold is_full, size in *.
  rewrite bool_decide_false in Hv, Hq by (simpl in Hroom; lia). simpl in Hv, Hq.
  destruct (send_message now b m) as [r b1]. cbn [fst snd] in *. subst r.
  specialize (IH b1). destruct (send_all now b1 ms) as [k b2]. cbn [fst snd] in *.
  rewrite IH.
  - simpl length. lia.
  - eapply Forall_impl; [done|]. intros x [? Hx]. split; [done|].
    unfold _apply_filters in *. by rewrite Hfl.
  - rewrite Hq. rewrite put_accepts by (simpl in Hroom; lia). simpl in *. lia.
Qed.

Lemma clear_backlogs_lookup (fd : list (string * list Message)) aids x :
  dict_get (foldl (λ fd a, if dict_in a fd then dict_set fd a [] else fd) fd aids) x
  = if bool_decide (x ∈ aids) then (λ _, []) <$> dict_get fd x else dict_get fd x.
Proof.
  revert fd. induction aids as [|a aids IH]; intros fd; [done|].
  cbn [foldl]. rewrite IH.
  assert (dict_get (if dict_in a fd then dict_set fd a [] else fd) x
          = if decide (a = x) then (λ _, []) <$> dict_get fd x else dict_get fd x) as Hstep.
  { destruct (dict_in a fd) eqn:Hin; destruct (decide (a = x)) as [->|Hne]; try done.
    - rewrite dict_get_set_eq. unfold dict_in in Hin.
      apply bool_decide_eq_true in Hin as [v ->]. done.
    - by rewrite dict_get_set_ne.
    - apply dict_in_false in Hin. by rewrite Hin. }
  rewrite Hstep.
  destruct (decide (a = x)) as [->|Hne].
  - rewrite (bool_decide_true (x ∈ x :: aids)) by by left.
    case_bool_decide; [|done]. by destruct (dict_get fd x).
  - rewrite (bool_decide_ext (x ∈ a :: aids) (x ∈ aids)); [done|].
    rewrite elem_of_cons. split; [by intros [?|?] | by right].
Qed.

Lemma clear_backlogs_keys (fd : list (string * list Message)) aids :
  dict_keys (foldl (λ fd a, if dict_in a fd then dict_set fd a [] else fd) fd aids)
  = dict_keys fd.
Proof.
  revert fd. induction aids as [|a aids IH]; intros fd; [done|].
  cbn [foldl]. rewrite IH. destruct (dict_in a fd) eqn:Hin; [|done].
  by rewrite dict_keys_set, Hin.
Qed.

(** A retry is: empty the selected backlogs, then send the messages they
    held that are not expired, in order. *)
Lemma retry_agents_spec now b aids n :
  NoDup aids →
  let live := filter (λ m, is_expired now m = false) (selected_backlog b aids) in
  retry_agents now b aids n =
    (n + (send_all now (clear_backlogs b aids) live).1,
     (send_all now (clear_backlogs b aids) live).2).
Proof.
  revert b n. induction aids as [|a aids IH]; intros b n Hnd.
  { simpl. unfold clear_backlogs. simpl. rewrite with_failed_id. f_equal. lia. }
  apply NoDup_cons in Hnd as [Ha Hnd].
  cbn [retry_agents]. unfold selected_backlog, clear_backlogs. cbn [omap list_omap foldl].
  destruct (dict_get (failed_deliveries b) a) as [msgs|] eqn:Hget.
  2:{ apply dict_in_false in Hget. rewrite Hget. by apply IH. }
  assert (dict_in a (failed_deliveries b) = true) as ->.
  { unfold dict_in. rewrite Hget. by apply bool_decide_eq_true. }
  rewrite retry_messages_send_all.
  rewrite send_all_with_failed. cbn [fst snd].
  rewrite IH by done. unfold selected_backlog, clear_backlogs.
  destruct (send_all_fields now b (filter (λ m, is_expired now m = false) msgs))
    as (Hfd & _).
  cbn [concat]. rewrite filter_app, send_all_app.
  rewrite !send_all_with_failed. cbn [fst snd failed_deliveries with_failed].
  assert (omap (dict_get (dict_set (failed_deliveries b) a [])) aids
          = omap (dict_get (failed_deliveries b)) aids) as ->.
  { apply list_omap_ext, Forall2_same_length_lookup_2; [done|].
    intros i x y Hx Hy. simplify_eq. apply dict_get_set_ne.
    intros ->. apply Ha. by eapply list_elem_of_lookup_2. }
  repeat (rewrite send_all_with_failed; cbn [fst snd]).
  f_equal. lia.
Qed.

Lemma cleared_backlogs_fixed (fd : list (string * list Message)) aids :
  (∀ a, a ∈ aids → dict_get fd a = None ∨ dict_get fd a = Some []) →
  concat (omap (dict_get fd) aids) = [] ∧
  foldl (λ fd a, if dict_in a fd then dict_set fd a [] else fd) fd aids = fd.
Proof.
  induction aids as [|a aids IH]; intros Hall; [done|].
  destruct IH as [IH1 IH2]; [intros x Hx; apply Hall; by right|].
  cbn [omap list_omap foldl].
  destruct (Hall a) as [Ha|Ha]; [by left | |]; rewrite Ha.
  - apply dict_in_false in Ha. by rewrite Ha.
  - assert (dict_in a fd = true) as ->.
    { unfold dict_in. rewrite Ha. by apply bool_decide_eq_true. }
    by rewrite (dict_set_id fd a []).
Qed.

Lemma agents_to_retry_NoDup b agent_id :
  NoDup (dict_keys (failed_deliveries b)) → NoDup (agents_to_retry b agent_id).
Proof.
  intros Hnd. unfold agents_to_retry.
  destruct agent_id as [a|]; [|done]. case_decide; [done | apply NoDup_singleton].
Qed.

(** C7 as worded fails on the count: the queue of this bus is full when
    the retry runs, so the one backlog message, which is not expired, is
    submitted to [send_message] and refused; the call returns 0, and the
    backlog is empty. *)
Lemma retry_count_counterexample :
  let b := bus_after 0 1 [(1, CallStart);
                          (2, CallSubscribe "w1" "bob" (λ _, false));
                          (3, CallProcess);
                          (4, CallSend (message_to "x" "alice" "ghost" 1 None))] in
  let welcome := {| msg_id := "w1"; sender := "communication_bus"; recipient := "bob";
                    content := "subscribed"; message_type := "status_update";
                    timestamp := 2; metadata := []; priority := 1; ttl := None |} in
  dict_get (failed_deliveries b) "bob" = Some [welcome] ∧
  is_expired 5 welcome = false ∧
  (send_message 5 (clear_backlogs b ["bob"]) welcome).1 = false ∧
  (retry_failed_deliveries 5 b (Some "bob")).1 = 0 ∧
  (retry_failed_deliveries 5 b (Some "bob")).1
    ≠ Z.of_nat (length (filter (λ m, is_expired 5 m = false) [welcome])) ∧
  dict_get (failed_deliveries (retry_failed_deliveries 5 b (Some "bob")).2) "bob" = Some [].
Proof. split_and!; done. Qed.

(** C7 (amended). [retry_failed_deliveries] empties the backlog of the
    given address (of every address when the argument is omitted or is the
    empty string), then submits to [send_message], in order, the messages
    those backlogs held that are not expired.  It returns the number of
    these that [send_message] accepted: the growth of [messages_sent] and
    of the queue, at most the number of submitted messages, and equal to it
    when they pass the filters and the queue has room for them.  Expired
    backlog messages are dropped and [messages_expired] does not move.  A
    second call finds the backlogs empty: it returns 0 and changes
    nothing. *)
Theorem retry_failed_deliveries_spec (start cap : Z) (calls : list (Z * bus_call))
    (now : Z) (agent_id : option string) :
  0 ≤ cap →
  let b := bus_after start cap calls in
  let aids := agents_to_retry b agent_id in
  let live := filter (λ m, is_expired now m = false) (selected_backlog b aids) in
  let n := (retry_failed_deliveries now b agent_id).1 in
  let b' := (retry_failed_deliveries now b agent_id).2 in
  retry_failed_deliveries now b agent_id = send_all now (clear_backlogs b aids) live ∧
  (∀ a, dict_get (failed_deliveries b') a =
        if bool_decide (a ∈ aids)
        then (λ _, []) <$> dict_get (failed_deliveries b) a
        else dict_get (failed_deliveries b) a) ∧
  n = messages_sent (metrics b') - messages_sent (metrics b) ∧
  n = size (message_queue b') - size (message_queue b) ∧
  0 ≤ n ≤ Z.of_nat (length live) ∧
  (Forall (λ m, _apply_filters b m = true) live →
   size (message_queue b) + Z.of_nat (length live) ≤ cap →
   n = Z.of_nat (length live)) ∧
  messages_expired (metrics b') = messages_expired (metrics b) ∧
  ∀ now', retry_failed_deliveries now' b' agent_id = (0, b').
Proof.
  intros Hcap b aids live n b'.
  pose proof (bus_after_inv start cap calls Hcap) as Hb. fold b in Hb.
  pose proof (agents_to_retry_NoDup b agent_id (bus_failed_nodup _ _ Hb)) as Hnd.
  fold aids in Hnd.
  assert (retry_failed_deliveries now b agent_id
          = send_all now (clear_backlogs b aids) live) as Heq.
  { unfold retry_failed_deliveries. fold aids. rewrite retry_agents_spec by done.
    fold live. destruct (send_all now (clear_backlogs b aids) live). by rewrite Z.add_0_l. }
  assert (Forall (λ m, is_expired now m = false) live) as Hlive.
  { apply Forall_forall. by intros m [? _]%list_elem_of_filter. }
  destruct (send_all_count now (clear_backlogs b aids) live)
    as (Hsent & Hsize & Hbound & _ & _ & Hexp).
  destruct (send_all_fields now (clear_backlogs b aids) live) as (Hfd & _ & _).
  unfold n, b'. rewrite Heq.
  assert (∀ a, dict_get (failed_deliveries (send_all now (clear_backlogs b aids) live).2) a
               = if bool_decide (a ∈ aids)
                 then (λ _, []) <$> dict_get (failed_deliveries b) a
                 else dict_get (failed_deliveries b) a) as Hlookup.
  { intros a. rewrite Hfd. apply clear_backlogs_lookup. }
  split; [done|]. split; [exact Hlookup|]. split; [exact Hsent|].
  split; [exact Hsize|]. split; [exact Hbound|]. split; [|split].
  - intros Hpass Hroom. apply send_all_accepts_all.
    + apply Forall_forall. intros m Hm. split.
      * by apply (proj1 (Forall_forall _ _) Hlive).
      * by apply (proj1 (Forall_forall _ _) Hpass).
    + cbn [clear_backlogs message_queue with_failed]. by rewrite (bus_capacity _ _ Hb).
  - by apply Hexp, Hlive.
  - intros now'. set (b2 := (send_all now (clear_backlogs b aids) live).2) in *.
    assert (dict_keys (failed_deliveries b2) = dict_keys (failed_deliveries b)) as Hkeys.
    { rewrite Hfd. apply clear_backlogs_keys. }
    assert (agents_to_retry b2 agent_id = aids) as Haids.
    { unfold aids, agents_to_retry. by rewrite Hkeys. }
    unfold retry_failed_deliveries. rewrite Haids, retry_agents_spec by done.
    destruct (cleared_backlogs_fixed (failed_deliveries b2) aids) as [Hnil Hfix].
    { intros a Ha. rewrite Hlookup, bool_decide_true by done.
      destruct (dict_get (failed_deliveries b) a); auto. }
    unfold selected_backlog, clear_backlogs. rewrite Hnil, Hfix, with_failed_id. done.
Qed.

Lemma retry_failed_deliveries_spec_witness :
  let b := bus_after 0 4 [(1, CallStart);
                          (2, CallSubscribe "w1" "bob" (λ _, false));
                          (3, CallProcess)] in
  let aids := agents_to_retry b (Some "bob") in
  let live := filter (λ m, is_expired 9 m = false) (selected_backlog b aids) in
  let n := (retry_failed_deliveries 9 b (Some "bob")).1 in
  let b' := (retry_failed_deliveries 9 b (Some "bob")).2 in
  retry_failed_deliveries 9 b (Some "bob") = send_all 9 (clear_backlogs b aids) live ∧
  (∀ a, dict_get (failed_deliveries b') a =
        if bool_decide (a ∈ aids)
        then (λ _, []) <$> dict_get (failed_deliveries b) a
        else dict_get (failed_deliveries b) a) ∧
  n = messages_sent (metrics b') - messages_sent (metrics b) ∧
  n = size (message_queue b') - size (message_queue b) ∧
  0 ≤ n ≤ Z.of_nat (length live) ∧
  (Forall (λ m, _apply_filters b m = true) live →
   size (message_queue b) + Z.of_nat (length live) ≤ 4 →
   n = Z.of_nat (length live)) ∧
  messages_expired (metrics b') = messages_expired (metrics b) ∧
  ∀ now', retry_failed_deliveries now' b' (Some "bob") = (0, b').
Proof.
  apply (retry_failed_deliveries_spec 0 4). lia.
Defined.

(** One failed delivery, then a retry: the message is back in the queue,
    the call returns 1, and a second call returns 0. *)
Example retry_once :
  let b := bus_after 0 4 [(1, CallStart);
                          (2, CallSubscribe "w1" "bob" (λ _, false));
                          (3, CallProcess)] in
  (retry_failed_deliveries 9 b (Some "bob")).1 = 1 ∧
  size (message_queue (retry_failed_deliveries 9 b (Some "bob")).2) = 1 ∧
  (retry_failed_deliveries 10 (retry_failed_deliveries 9 b (Some "bob")).2 (Some "bob")).1 = 0.
Proof. done. Qed.

(** The test of the specification: a callback that always fails; whatever
    the number of retries, the backlog holds the message once. *)
Example retry_twice_no_duplicates :
  let b := bus_after 0 4 [(1, CallStart);
                          (2, CallSubscribe "w1" "bob" (λ _, false));
                          (3, CallProcess);
                          (4, CallRetry (Some "bob"));
                          (5, CallRetry (Some "bob"));
                          (6, CallProcess);
                          (7, CallRetry (Some "bob"));
                          (8, CallProcess);
                          (9, CallProcess)] in
  length <$> dict_get (failed_deliveries b) "bob" = Some 1%nat ∧
  size (message_queue b) = 0 ∧
  messages_sent (metrics b) = 3 ∧
  messages_failed (metrics b) = 3.
Proof. done. Qed.

(** The test of the specification: one failed delivery for X, then X
    unsubscribes; a retry for X returns 0.  Without the [unsubscribe] it
    returns 1. *)
Example unsubscribe_then_retry :
  let b := bus_after 0 4 [(1, CallStart);
                          (2, CallSubscribe "w1" "X" (λ _, false));
                          (3, CallProcess)] in
  length <$> dict_get (failed_deliveries b) "X" = Some 1%nat ∧
  (retry_failed_deliveries 5 (unsubscribe b "X") (Some "X")).1 = 0 ∧
  (retry_failed_deliveries 5 b (Some "X")).1 = 1.
Proof. done. Qed.

(** ** Rounding to a float

    What is needed of [SpecFloat]'s rounding: a quotient or a product that
    is at most [k * 2^j] is rounded to a float that is at most [k * 2^j],
    never to an infinity. *)

Lemma digits2_pos_size p : digits2_pos p = Pos.size p.
Proof. induction p; simpl; congruence. Qed.

Lemma Zdigits2_upper m t : 0 ≤ m → 0 ≤ t → m < 2 ^ t → Zdigits2 m ≤ t.
Proof.
  intros Hm Ht Hlt. destruct m as [|p|p]; simpl; [done| |lia].
  rewrite digits2_pos_size.
  pose proof (Pos.size_le p) as Hle.
  assert (2 ^ Z.pos (Pos.size p) ≤ 2 * Z.pos p) as Hle'.
  { change (2 * Z.pos p) with (Z.pos p~0). rewrite <-Pos2Z.inj_pow. by apply Pos2Z.pos_le_pos. }
  destruct (decide (Z.pos (Pos.size p) ≤ t)) as [|Hgt]; [done|].
  assert (2 ^ (t + 1) ≤ 2 ^ Z.pos (Pos.size p)) by (apply Z.pow_le_mono_r; lia).
  rewrite Z.pow_add_r in * by lia. lia.
Qed.

Lemma Zdigits2_lower m : 0 < m → 2 ^ (Zdigits2 m - 1) ≤ m.
Proof.
  destruct m as [|p|p]; [lia| |lia]. intros _. simpl. rewrite digits2_pos_size.
  pose proof (Pos.size_le p) as Hle.
  assert (2 ^ Z.pos (Pos.size p) ≤ 2 * Z.pos p) as Hle'.
  { change (2 * Z.pos p) with (Z.pos p~0). rewrite <-Pos2Z.inj_pow. by apply Pos2Z.pos_le_pos. }
  replace (Z.pos (Pos.size p)) with (Z.pos (Pos.size p) - 1 + 1) in Hle' by lia.
  rewrite Z.pow_add_r in Hle' by lia. lia.
Qed.

Lemma Zdigits2_nonneg m : 0 ≤ Zdigits2 m.
Proof. destruct m; simpl; lia. Qed.

Lemma shr_1_m r : 0 ≤ shr_m r → shr_m (shr_1 r) = shr_m r / 2.
Proof.
  destruct r as [m r s]. simpl. intros Hm.
  destruct m as [|[p|p|]|p]; simpl; lia.
Qed.

Lemma divide_div a b c : 0 < b → (b * c | a) → (c | a / b).
Proof.
  intros Hb [k ->]. exists k. replace (k * (b * c)) with (k * c * b) by ring.
  by rewrite Z.div_mul by lia.
Qed.

Lemma shr_1_exact r :
  0 ≤ shr_m r → shr_r r = false → shr_s r = false → (2 | shr_m r) →
  shr_r (shr_1 r) = false ∧ shr_s (shr_1 r) = false.
Proof.
  destruct r as [m r s]. simpl. intros Hm -> -> [k Hk].
  destruct m as [|[p|p|]|p]; simpl; try done; lia.
Qed.

Lemma iter_shr_m p r :
  0 ≤ shr_m r → shr_m (iter_pos shr_1 p r) = shr_m r / 2 ^ Z.pos p.
Proof.
  revert r. induction p as [p IH|p IH|]; intros r Hr; simpl.
  - assert (0 ≤ shr_m (shr_1 r)) by (rewrite shr_1_m by done; lia).
    assert (0 ≤ shr_m (iter_pos shr_1 p (shr_1 r))).
    { rewrite IH by done. apply Z.div_pos; lia. }
    rewrite !IH, shr_1_m by done.
    rewrite !Z.div_div by lia. f_equal.
    replace (Z.pos p~1) with (1 + Z.pos p + Z.pos p) by lia.
    rewrite !Z.pow_add_r by lia. lia.
  - assert (0 ≤ shr_m (iter_pos shr_1 p r)).
    { rewrite IH by done. apply Z.div_pos; lia. }
    rewrite !IH by done. rewrite Z.div_div by lia. f_equal.
    replace (Z.pos p~0) with (Z.pos p + Z.pos p) by lia.
    by rewrite Z.pow_add_r by lia.
  - rewrite shr_1_m by done. done.
Qed.

Lemma iter_shr_exact p r :
  0 ≤ shr_m r → shr_r r = false → shr_s r = false → (2 ^ Z.pos p | shr_m r) →
  shr_r (iter_pos shr_1 p r) = false ∧ shr_s (iter_pos shr_1 p r) = false.
Proof.
  revert r. induction p as [p IH|p IH|]; intros r Hr Hrr Hrs Hmod; simpl.
  - replace (Z.pos p~1) with (1 + (Z.pos p + Z.pos p)) in Hmod by lia.
    rewrite !Z.pow_add_r in Hmod by lia. change (2 ^ 1) with 2 in Hmod.
    assert (0 < 2 ^ Z.pos p) by lia.
    destruct (shr_1_exact r) as [H1 H2]; [done..| |].
    { etrans; [|exact Hmod]. by apply Z.divide_factor_l. }
    assert (0 ≤ shr_m (shr_1 r)) by (rewrite shr_1_m by done; lia).
    assert ((2 ^ Z.pos p * 2 ^ Z.pos p | shr_m (shr_1 r))) as Hd1.
    { rewrite shr_1_m by done. by apply divide_div. }
    destruct (IH (shr_1 r)) as [H3 H4]; [done..| |].
    { etrans; [|exact Hd1]. by apply Z.divide_factor_l. }
    apply IH; [|done..|].
    + rewrite iter_shr_m by done. apply Z.div_pos; lia.
    + rewrite iter_shr_m by done. by apply divide_div.
  - replace (Z.pos p~0) with (Z.pos p + Z.pos p) in Hmod by lia.
    rewrite !Z.pow_add_r in Hmod by lia.
    assert (0 < 2 ^ Z.pos p) by lia.
    destruct (IH r) as [H3 H4]; [done..| |].
    { etrans; [|exact Hmod]. by apply Z.divide_factor_l. }
    apply IH; [|done..|].
    + rewrite iter_shr_m by done. apply Z.div_pos; lia.
    + rewrite iter_shr_m by done. by apply divide_div.
  - by apply shr_1_exact.
Qed.

Local Abbreviation fexp64 := (fexp 53 1024).

Lemma fexp64_eq e : fexp64 e = Z.max (e - 53) (-1074).
Proof. done. Qed.

Lemma round_nearest_even_bounds m l :
  m ≤ round_nearest_even m l ≤ m + 1 ∧ (l = loc_Exact → round_nearest_even m l = m).
Proof.
  split; [|by intros ->]. destruct l as [|[]]; simpl; try lia.
  destruct (Z.even m); lia.
Qed.

(** Shifting right by [shr_fexp]: the mantissa is divided by a power of
    two, and an exact input that the power divides stays exact. *)
Lemma shr_fexp_spec m e l :
  0 ≤ m →
  let n := Z.max 0 (fexp64 (Zdigits2 m + e) - e) in
  let r := shr_fexp 53 1024 m e l in
  shr_m r.1 = m / 2 ^ n ∧ r.2 = e + n ∧
  (l = loc_Exact → (2 ^ n | m) → loc_of_shr_record r.1 = loc_Exact).
Proof.
  intros Hm n r. unfold r, shr_fexp, shr.
  assert (shr_m (shr_record_of_loc m l) = m) as Hrm by by destruct l as [|[]].
  destruct (fexp64 (Zdigits2 m + e) - e) as [|p|p] eqn:E; subst n; simpl.
  - rewrite Hrm, Z.div_1_r. split_and!; [done | lia |]. by intros ->.
  - rewrite iter_shr_m, Hrm by by rewrite Hrm.
    split_and!; [done | done |]. intros -> Hdiv.
    destruct (iter_shr_exact p (shr_record_of_loc m loc_Exact)) as [H1 H2]; try done.
    destruct (iter_pos shr_1 p _) as [m' r' s']. simpl in *. by subst.
  - rewrite Hrm, Z.div_1_r. split_and!; [done | lia |]. by intros ->.
Qed.

Lemma div_pow_le m K n : 0 ≤ m → 0 ≤ n → m ≤ K * 2 ^ n → m / 2 ^ n ≤ K.
Proof.
  intros Hm Hn Hle. assert (0 < 2 ^ n) by lia.
  apply Z.div_le_upper_bound; lia.
Qed.

Lemma fexp_shift_le m e k j :
  0 ≤ m → 0 < k < 2 ^ 53 → -1074 ≤ j → e ≤ j → m ≤ k * 2 ^ (j - e) →
  e + Z.max 0 (fexp64 (Zdigits2 m + e) - e) ≤ j.
Proof.
  intros Hm Hk Hj He Hle. rewrite fexp64_eq.
  assert (Zdigits2 m ≤ 53 + (j - e)).
  { apply Zdigits2_upper; [done | lia |]. rewrite Z.pow_add_r by lia.
    assert (0 < 2 ^ (j - e)) by lia. nia. }
  lia.
Qed.

(** Rounding does not cross a bound that is itself a multiple of the
    input's unit: a value at most [k * 2^j] rounds to a float at most
    [k * 2^j], and never to an infinity. *)
Lemma binary_round_aux_le s m e l k j :
  0 ≤ m → 0 < k < 2 ^ 53 → -1074 ≤ j ≤ 971 → e ≤ j →
  m ≤ k * 2 ^ (j - e) → (m = k * 2 ^ (j - e) → l = loc_Exact) →
  match binary_round_aux 53 1024 s m e l with
  | S754_zero s' => s' = s
  | S754_finite s' m' e' => s' = s ∧ e' ≤ j ∧ Z.pos m' ≤ k * 2 ^ (j - e')
  | _ => False
  end.
Proof.
  intros Hm Hk Hj He Hle Hex. unfold binary_round_aux.
  pose proof (shr_fexp_spec m e l Hm) as (Hq1 & He1 & Hx1).
  pose proof (fexp_shift_le m e k j Hm Hk (proj1 Hj) He Hle) as Hej1.
  set (n1 := Z.max 0 (fexp64 (Zdigits2 m + e) - e)) in *.
  destruct (shr_fexp 53 1024 m e l) as [mrs1 e1]. cbn [fst snd] in *. subst e1.
  set (q1 := shr_m mrs1) in *.
  set (K1 := k * 2 ^ (j - (e + n1))).
  assert (0 ≤ n1) as Hn1 by lia.
  assert (k * 2 ^ (j - e) = K1 * 2 ^ n1) as HK.
  { unfold K1. rewrite <-Z.mul_assoc, <-Z.pow_add_r by lia. do 2 f_equal. lia. }
  assert (0 < 2 ^ n1) as Hp1 by lia.
  assert (0 ≤ q1) as Hq1pos by (rewrite Hq1; apply Z.div_pos; lia).
  assert (q1 ≤ K1) as Hq1le by (rewrite Hq1; apply div_pow_le; lia).
  pose proof (round_nearest_even_bounds q1 (loc_of_shr_record mrs1)) as [Hrb Hrx].
  set (q2 := round_nearest_even q1 (loc_of_shr_record mrs1)) in *.
  assert (q2 ≤ K1) as Hq2le.
  { destruct (decide (q1 = K1)) as [Heq|Hne]; [|lia].
    assert (m = k * 2 ^ (j - e)) as Hmeq.
    { rewrite HK. rewrite Hq1 in Heq. nia. }
    rewrite Hrx; [lia|]. apply Hx1; [by apply Hex|].
    rewrite Hmeq, HK. by apply Z.divide_factor_r. }
  assert (0 ≤ q2) as Hq2pos by lia.
  pose proof (shr_fexp_spec q2 (e + n1) loc_Exact Hq2pos) as (Hq3 & He3 & _).
  pose proof (fexp_shift_le q2 (e + n1) k j Hq2pos Hk (proj1 Hj) Hej1 Hq2le) as Hej3.
  set (n2 := Z.max 0 (fexp64 (Zdigits2 q2 + (e + n1)) - (e + n1))) in *.
  destruct (shr_fexp 53 1024 q2 (e + n1) loc_Exact) as [mrs3 e3]. cbn [fst snd] in *. subst e3.
  assert (0 ≤ n2) as Hn2 by lia.
  assert (K1 = k * 2 ^ (j - (e + n1 + n2)) * 2 ^ n2) as HK3.
  { unfold K1. rewrite <-Z.mul_assoc, <-Z.pow_add_r by lia. do 2 f_equal. lia. }
  assert (0 < 2 ^ n2) as Hp2 by lia.
  assert (shr_m mrs3 ≤ k * 2 ^ (j - (e + n1 + n2))) as Hq3le.
  { rewrite Hq3. apply div_pow_le; lia. }
  assert (0 ≤ shr_m mrs3) as Hq3pos by (rewrite Hq3; apply Z.div_pos; lia).
  destruct (shr_m mrs3) as [|m3|m3]; [done| |lia].
  rewrite (proj2 (Z.leb_le _ _)) by lia. done.
Qed.

Lemma new_location_0 nb : new_location nb 0 = loc_Exact.
Proof. unfold new_location. by destruct (Z.even nb). Qed.

Lemma SFdiv_within sa pa sb pb k j :
  0 < k < 2 ^ 53 → 0 ≤ j ≤ 971 → Z.pos pa ≤ k * 2 ^ j * Z.pos pb →
  let x := SFdiv 53 1024 (S754_finite sa pa 0) (S754_finite sb pb 0) in
  float_within x k j ∧ (xorb sa sb = false → float_nonneg x).
Proof.
  intros Hk Hj Hle. unfold SFdiv, SFdiv_core_binary.
  set (e' := Z.min _ _). assert (e' ≤ 0) as He' by (unfold e'; lia).
  replace (0 - 0 - e') with (- e') by lia.
  set (m' := match - e' with
             | Z.pos _ => Z.shiftl (Z.pos pa) (- e') | 0 => Z.pos pa | Z.neg _ => 0
             end).
  assert (m' = Z.pos pa * 2 ^ (- e')) as Hm'.
  { unfold m'. destruct (- e') as [|p|p] eqn:E; [lia| |lia].
    by rewrite Z.shiftl_mul_pow2 by lia. }
  clearbody m'. pose proof (Z_div_mod m' (Z.pos pb) ltac:(lia)) as Hdm.
  destruct (Z.div_eucl m' (Z.pos pb)) as [q r]. destruct Hdm as [Hdm Hr].
  assert (0 < 2 ^ (- e')) as Hp by lia.
  assert (0 ≤ q) as Hq by nia.
  assert (k * 2 ^ (j - e') = k * 2 ^ j * 2 ^ (- e')) as HK.
  { replace (j - e') with (j + - e') by lia. by rewrite Z.pow_add_r, Z.mul_assoc by lia. }
  pose proof (binary_round_aux_le (xorb sa sb) q e' (new_location (Z.pos pb) r) k j) as Hround.
  cbv zeta.
  destruct (binary_round_aux 53 1024 (xorb sa sb) q e' (new_location (Z.pos pb) r))
    as [s|s| |s m e]; simpl.
  1: done.
  1-2: exfalso; apply Hround; try lia.
  5: { destruct Hround as (-> & ? & ?); try lia.
       - rewrite HK. nia.
       - intros Heq; rewrite HK in Heq; assert (r = 0) as -> by nia; apply new_location_0.
       - done. }
  all: try (rewrite HK; nia).
  all: intros Heq; rewrite HK in Heq; assert (r = 0) as -> by nia; apply new_location_0.
Qed.

Lemma SFmul_hundred_within x k j :
  0 < k → 25 * k < 2 ^ 53 → -1074 ≤ j ≤ 969 → float_within x k j →
  float_within (float_mul x hundred) (25 * k) (j + 2) ∧
  (float_nonneg x → float_nonneg (float_mul x hundred)).
Proof.
  intros Hk Hk' Hj Hx. unfold float_mul, hundred.
  change (float_of_int 100) with (S754_finite false 7036874417766400 (-46)).
  destruct x as [s|s| |s m e]; simpl in Hx; try done. destruct Hx as (He & Hm).
  unfold SFmul.
  assert (2 ^ (j + 2 - (e + -46)) = 2 ^ 48 * 2 ^ (j - e)) as Hpow.
  { rewrite <-Z.pow_add_r by lia. f_equal. lia. }
  assert (0 < 2 ^ (j - e)) by lia.
  pose proof (binary_round_aux_le (xorb s false) (Z.pos (m * 7036874417766400)) (e + -46)
                loc_Exact (25 * k) (j + 2)) as Hround.
  assert (Z.pos (m * 7036874417766400) ≤ 25 * k * 2 ^ (j + 2 - (e + -46))) as Hle.
  { rewrite Hpow, Pos2Z.inj_mul; change (2 ^ 48) with 281474976710656; nia. }
  destruct (binary_round_aux 53 1024 (xorb s false) _ (e + -46) loc_Exact)
    as [s'|s'| |s' m' e'].
  - done.
  - exfalso. apply Hround; try lia; done.
  - exfalso. apply Hround; try lia; done.
  - destruct Hround as (-> & ? & ?); try lia; try done.
    split; [done|]. simpl. intros ->. done.
Qed.

Lemma int_truediv_within a b k j :
  b ≠ 0 → 0 < k < 2 ^ 53 → 0 ≤ j ≤ 971 → Z.abs a ≤ k * 2 ^ j * Z.abs b →
  ∃ x, int_truediv a b = Returns x ∧ float_within x k j ∧
       (0 ≤ a → 0 < b → float_nonneg x).
Proof.
  intros Hb Hk Hj Hle. unfold int_truediv. rewrite bool_decide_false by done.
  destruct b as [|pb|pb]; [done|..]; (destruct a as [|pa|pa]; [by eexists|..]);
    simpl int_operand;
    match goal with
    | |- context [SFdiv 53 1024 (S754_finite ?sa _ 0) (S754_finite ?sb _ 0)] =>
        destruct (SFdiv_within sa pa sb pb k j Hk Hj) as [Hw Hn]; [simpl in Hle; lia|]
    end;
    destruct (SFdiv 53 1024 _ _); try done; eexists; (split; [done|]); (split; [done|]);
    intros; try lia; by apply Hn.
Qed.

Lemma Qpower_2_pos e : (0 < Qpower 2 e)%Q.
Proof. by apply Qpower_0_lt. Qed.

Lemma float_within_value x k j :
  0 ≤ j → 0 ≤ k → float_within x k j →
  ∃ u, float_value x = Some u ∧ (u <= inject_Z (k * 2 ^ j))%Q ∧
       (float_nonneg x → (0 <= u)%Q).
Proof.
  intros Hj Hk Hx. destruct x as [s|s| |s m e]; simpl in Hx; try done.
  - exists 0%Q. split; [done|]. split; [|done].
    change 0%Q with (inject_Z 0). rewrite <-Zle_Qle. lia.
  - destruct Hx as (He & Hm). eexists. split; [done|].
    pose proof (Qpower_2_pos e) as Hpos.
    assert (inject_Z (k * 2 ^ j) == inject_Z (k * 2 ^ (j - e)) * Qpower 2 e)%Q as HK.
    { rewrite !inject_Z_mult, !Zpower_Qpower by lia.
      rewrite <-Qmult_assoc, <-Qpower_plus by done.
      by replace (j - e + e) with j by lia. }
    split.
    + rewrite HK. apply Qmult_le_compat_r; [|by apply Qlt_le_weak].
      rewrite <-Zle_Qle. destruct s; simpl; lia.
    + simpl. intros ->. simpl.
      apply Qmult_le_0_compat; [done | by apply Qlt_le_weak].
Qed.

Lemma percentage_bounds a b x :
  0 ≤ a ≤ b → 0 < b → int_truediv a b = Returns x →
  ∃ u, float_value (float_mul x hundred) = Some u ∧ (0 <= u)%Q ∧ (u <= 100)%Q.
Proof.
  intros Ha Hb Hx.
  destruct (int_truediv_within a b 1 0) as (x' & Hx' & Hw & Hn);
    [lia | done | lia | simpl; lia |].
  rewrite Hx in Hx'. injection Hx' as <-.
  destruct (SFmul_hundred_within x 1 0 ltac:(lia) ltac:(done) ltac:(lia) Hw) as [Hw' Hn'].
  destruct (float_within_value _ (25 * 1) (0 + 2) ltac:(lia) ltac:(lia) Hw')
    as (u & Hu & H100 & H0).
  exists u. split_and!; [done | | done]. apply H0, Hn', Hn; lia.
Qed.

(** ** Statistics (claim C9) *)

Lemma div_eucl_mul_pow p n :
  0 ≤ n → Z.div_eucl (Z.shiftl (Z.pos p) n) (Z.pos p) = (2 ^ n, 0).
Proof.
  intros Hn. rewrite Z.shiftl_mul_pow2 by done.
  pose proof (Z.div_mul (2 ^ n) (Z.pos p) ltac:(lia)) as Hq.
  pose proof (Z.mod_mul (2 ^ n) (Z.pos p) ltac:(lia)) as Hr.
  rewrite (Z.mul_comm (Z.pos p)).
  unfold Z.div, Z.modulo in Hq, Hr.
  destruct (Z.div_eucl (2 ^ n * Z.pos p) (Z.pos p)) as [q r]. by subst.
Qed.

(** A positive integer divided by itself is [1.0], the float [2^52 * 2^-52]. *)
Lemma int_truediv_same a :
  0 < a → int_truediv a a = Returns (S754_finite false 4503599627370496 (-52)).
Proof.
  intros Ha. destruct a as [|p|p]; try lia.
  unfold int_truediv. rewrite bool_decide_false by lia. cbn [int_operand].
  unfold SFdiv, SFdiv_core_binary. cbv zeta.
  rewrite ?Z.add_0_r, !Z.sub_diag.
  change (fexp 53 1024 0 `min` 0) with (-53). change (0 - -53) with 53.
  cbv beta iota.
  rewrite (div_eucl_mul_pow p 53) by done. rewrite new_location_0.
  reflexivity.
Qed.

Lemma int_truediv_zero b : 0 < b → int_truediv 0 b = Returns (S754_zero false).
Proof.
  intros Hb. unfold int_truediv. rewrite bool_decide_false by lia.
  by destruct b.
Qed.

(** With a capacity other than 0, and counters and an uptime below 2^63,
    the three divisions of [get_statistics] return. *)
Lemma statistics_returns now b :
  max_size (message_queue b) ≠ 0 →
  Z.abs (now - start_time (metrics b)) < 2 ^ 63 →
  Z.abs (size (message_queue b)) < 2 ^ 63 →
  Z.abs (messages_delivered (metrics b)) < 2 ^ 63 →
  ∃ uptime utilization rate st,
    total_seconds (now - start_time (metrics b)) = Returns uptime ∧
    int_truediv (size (message_queue b)) (max_size (message_queue b)) = Returns utilization ∧
    int_truediv (messages_delivered (metrics b)) (Z.max 1 (messages_sent (metrics b)))
      = Returns rate ∧
    float_within rate 1 63 ∧
    (0 ≤ messages_delivered (metrics b) → float_nonneg rate) ∧
    statistics now b = Returns st ∧
    stat_metrics st = metrics b ∧
    queue_size st = size (message_queue b) ∧
    queue_capacity st = max_size (message_queue b) ∧
    queue_utilization st = float_mul utilization hundred ∧
    success_rate st = float_mul rate hundred ∧
    history_size st = Z.of_nat (length (message_history b)) ∧
    active_subscribers st = Z.of_nat (length (subscribers b)) ∧
    failed_delivery_queues st = Z.of_nat (length (failed_deliveries b)).
Proof.
  intros Hcap Hup Hsize Hdel.
  assert (0 < 2 ^ 63) as Hp by done.
  destruct (int_truediv_within (now - start_time (metrics b)) microseconds_per_second 1 63)
    as (uptime & Hu & _); [done | done | lia | unfold microseconds_per_second; lia |].
  destruct (int_truediv_within (size (message_queue b)) (max_size (message_queue b)) 1 63)
    as (utilization & Hq & _); [done | done | lia | nia |].
  destruct (int_truediv_within (messages_delivered (metrics b))
              (Z.max 1 (messages_sent (metrics b))) 1 63)
    as (rate & Hr & Hw & Hn); [lia | done | lia | nia |].
  exists uptime, utilization, rate. eexists.
  unfold statistics, total_seconds in *. rewrite Hu, Hq, Hr. cbn.
  split_and!; try done. intros ?. apply Hn; lia.
Qed.

(** C9 (amended). On a bus whose capacity is not 0, with counters and an
    uptime below 2^63, [get_statistics] returns a snapshot whose
    [success_rate] is what Python's
    [messages_delivered / max(1, messages_sent) * 100] evaluates to: the
    quotient of the two counters rounded to a float, times 100.0, rounded
    again.  It is a finite float, 0.0 when nothing was delivered, 100.0
    when every message sent was delivered, not negative, and at most 100
    when no more was delivered than sent.  It is computed from the
    counters as they are at the call; the bus is handed back as it was
    (queue, subscribers, backlogs, history and counters are untouched),
    and a second call gives the same snapshot. *)
Theorem get_statistics_success_rate (now : Z) (b : CommunicationBus) :
  max_size (message_queue b) ≠ 0 →
  Z.abs (now - start_time (metrics b)) < 2 ^ 63 →
  Z.abs (size (message_queue b)) < 2 ^ 63 →
  Z.abs (messages_delivered (metrics b)) < 2 ^ 63 →
  ∃ st rate,
    get_statistics now b = (Returns st, b) ∧
    int_truediv (messages_delivered (metrics b)) (Z.max 1 (messages_sent (metrics b)))
      = Returns rate ∧
    success_rate st = float_mul rate hundred ∧
    (∃ v, float_value (success_rate st) = Some v ∧
          (0 ≤ messages_delivered (metrics b) → (0 <= v)%Q) ∧
          (0 ≤ messages_delivered (metrics b) ≤ messages_sent (metrics b) →
             (v <= 100)%Q)) ∧
    (messages_delivered (metrics b) = 0 → success_rate st = S754_zero false) ∧
    (0 < messages_delivered (metrics b) →
     messages_delivered (metrics b) = messages_sent (metrics b) →
     success_rate st = hundred) ∧
    stat_metrics st = metrics b ∧
    queue_size st = size (message_queue b) ∧
    get_statistics now (get_statistics now b).2 = get_statistics now b.
Proof.
  intros Hcap Hup Hsize Hdel.
  destruct (statistics_returns now b Hcap Hup Hsize Hdel)
    as (uptime & utilization & rate & st & _ & _ & Hr & Hw & Hn & Hst & Hm & Hqs & _ & _ &
        Hsr & _).
  exists st, rate. unfold get_statistics. rewrite Hst. cbn [snd]. rewrite Hst.
  split_and!; try done.
  - destruct (SFmul_hundred_within rate 1 63 ltac:(lia) ltac:(done) ltac:(lia) Hw)
      as [Hw' Hn'].
    destruct (float_within_value _ (25 * 1) (63 + 2) ltac:(lia) ltac:(lia) Hw')
      as (v & Hv & _ & H0).
    exists v. rewrite Hsr. split_and!; [done | by auto |].
    intros Hle.
    destruct (percentage_bounds (messages_delivered (metrics b))
                (Z.max 1 (messages_sent (metrics b))) rate) as (u & Hu & _ & H100);
      [lia | lia | done |].
    rewrite Hv in Hu. by injection Hu as ->.
  - intros H0. rewrite H0, int_truediv_zero in Hr by lia. injection Hr as <-.
    by rewrite Hsr.
  - intros Hpos Hall. rewrite <-Hall, Z.max_r, int_truediv_same in Hr by lia.
    injection Hr as <-. by rewrite Hsr.
Qed.

Lemma get_statistics_success_rate_witness :
  let b := with_metrics (CommunicationBus_init 0 100)
             {| messages_sent := 10; messages_delivered := 7; messages_failed := 3;
                messages_expired := 0; total_subscribers := 0;
                websocket_connections := 0; start_time := 0;
                last_message_time := None |} in
  ∃ st rate,
    get_statistics 5 b = (Returns st, b) ∧
    int_truediv (messages_delivered (metrics b)) (Z.max 1 (messages_sent (metrics b)))
      = Returns rate ∧
    success_rate st = float_mul rate hundred ∧
    (∃ v, float_value (success_rate st) = Some v ∧
          (0 ≤ messages_delivered (metrics b) → (0 <= v)%Q) ∧
          (0 ≤ messages_delivered (metrics b) ≤ messages_sent (metrics b) →
             (v <= 100)%Q)) ∧
    (messages_delivered (metrics b) = 0 → success_rate st = S754_zero false) ∧
    (0 < messages_delivered (metrics b) →
     messages_delivered (metrics b) = messages_sent (metrics b) →
     success_rate st = hundred) ∧
    stat_metrics st = metrics b ∧
    queue_size st = size (message_queue b) ∧
    get_statistics 5 (get_statistics 5 b).2 = get_statistics 5 b.
Proof.
  intros b. apply (get_statistics_success_rate 5 b); simpl; lia.
Defined.

(** C9 as the specification words it fails twice.  The rate is not the
    exact ratio: with 29 messages delivered of 100 sent Python computes
    [29 / 100 * 100 = 28.999999999999996], the float
    [8162774324609023 * 2^-48], not 29.  And on a bus of capacity 0 there
    is no snapshot: [size / max_size] raises [ZeroDivisionError]. *)
Lemma success_rate_not_exact_counterexample :
  let b := with_metrics (CommunicationBus_init 0 100)
             {| messages_sent := 100; messages_delivered := 29; messages_failed := 0;
                messages_expired := 0; total_subscribers := 0;
                websocket_connections := 0; start_time := 0;
                last_message_time := None |} in
  (∃ st v, get_statistics 5 b = (Returns st, b) ∧
           success_rate st = S754_finite false 8162774324609023 (-48) ∧
           float_value (success_rate st) = Some v ∧
           ¬ (v == inject_Z 29 / inject_Z (Z.max 1 100) * inject_Z 100)%Q) ∧
  get_statistics 5 (CommunicationBus_init 0 0)
    = (Raises ZeroDivisionError, CommunicationBus_init 0 0).
Proof.
  split; [|done]. eexists _, _. split_and!; [by vm_compute | done | done |].
  intros H. vm_compute in H. discriminate.
Qed.

(** The method gives the state back also when it raises. *)
Lemma get_statistics_pure now b : (get_statistics now b).2 = b.
Proof. done. Qed.

(** The test of the specification: 10 sent, 7 delivered, 3 failed give a
    success rate of 70.0; with nothing sent the rate is 0.0. *)
Example success_rate_70 :
  let b := with_metrics (CommunicationBus_init 0 100)
             {| messages_sent := 10; messages_delivered := 7; messages_failed := 3;
                messages_expired := 0; total_subscribers := 0;
                websocket_connections := 0; start_time := 0;
                last_message_time := None |} in
  (∃ st, (get_statistics 5 b).1 = Returns st ∧
         success_rate st = S754_finite false 4925812092436480 (-46) ∧
         ∃ v, float_value (success_rate st) = Some v ∧ (v == 70)%Q) ∧
  (∃ st, (get_statistics 5 (CommunicationBus_init 0 100)).1 = Returns st ∧
         success_rate st = S754_zero false).
Proof.
  split.
  - eexists. split_and!; [by vm_compute | done |]. eexists. split; [done|]. done.
  - eexists. split; [by vm_compute | done].
Qed.

(** * Further properties of the queue *)

Lemma heappop_head {A} (lt : A → A → bool) (x : A) (l : list A) :
  ∃ h', heappop lt (x :: l) = Some (x, h').
Proof.
  unfold heappop. destruct (last (x :: l)) as [lastelt|] eqn:E.
  2:{ by apply last_None in E. }
  apply last_Some in E as [t E]. rewrite E, removelast_last.
  destruct t as [|r t]; simplify_eq/=; eauto.
Qed.

(** X1. [peek] shows the message that the next [get] returns, on any
    queue, empty or not. *)
Theorem peek_agrees_with_get (q : MessageQueue) : peek q = (get q).1.
Proof.
  unfold peek, get. destruct (_queue q) as [|[[k c] m] l] eqn:Hq; [done|].
  by destruct (heappop_head entry_lt (k, c, m) l) as [h' ->].
Qed.

(** X2. On a queue built by any calls, [size] is the number of entries
    held, and [get] and [peek] return nothing exactly when it is 0. *)
Theorem size_counts_entries (cap : Z) (calls : list queue_call) :
  let q := queue_after cap calls in
  size q = Z.of_nat (length (_queue q)) ∧
  ((get q).1 = None ↔ size q = 0) ∧
  (peek q = None ↔ size q = 0) ∧
  (∀ m, (get q).1 = Some m → size (get q).2 = size q - 1).
Proof.
  intros q. pose proof (queue_after_inv cap calls) as Hinv. fold q in Hinv.
  pose proof (inv_size _ Hinv) as Hsize. unfold size.
  assert ((get q).1 = None ↔ _size q = 0) as Hget.
  { rewrite get_None, Hsize. destruct (_queue q); simpl; [done|]. split; [done | lia]. }
  split_and!; [done | done | |].
  { rewrite <-Hget, get_None. unfold peek. by destruct (_queue q) as [|[[k c] m] l]. }
  intros m Hm. rewrite get_unfold in *.
  by destruct (heappop entry_lt (_queue q)) as [[[[k c] m'] h]|].
Qed.

Lemma queue_after_snoc cap calls c :
  queue_after cap (calls ++ [c]) = queue_do (queue_after cap calls) c.
Proof. unfold queue_after. by rewrite foldl_app. Qed.

Lemma get_entry q r q' :
  get q = (Some r, q') → ∃ e, e ∈ _queue q ∧ entry_message e = r ∧ _queue q ≡ₚ e :: _queue q'.
Proof.
  rewrite get_unfold.
  destruct (heappop entry_lt (_queue q)) as [[[[k c] m] h]|] eqn:Hpop; [|done].
  intros [= <- <-]. exists (k, c, m).
  pose proof (heappop_perm _ entry_lt_asym entry_le_trans _ _ _ Hpop) as Hperm.
  split_and!; [rewrite Hperm; by left | done | done].
Qed.

Lemma get_queue_subset q e : e ∈ _queue (get q).2 → e ∈ _queue q.
Proof.
  destruct (get q) as [[r|] q'] eqn:Hget.
  - destruct (get_entry _ _ _ Hget) as (e0 & _ & _ & Hperm).
    simpl. rewrite Hperm. by right.
  - rewrite get_unfold in Hget.
    destruct (heappop entry_lt (_queue q)) as [[[[k c] m] h]|]; by simplify_eq.
Qed.

Lemma put_queue_subset q m e :
  e ∈ _queue (put q m).2 → e = (- priority m, _counter q, m) ∨ e ∈ _queue q.
Proof.
  unfold put. case_bool_decide; simpl; [by right|].
  rewrite (heappush_perm _ entry_lt_asym entry_le_trans).
  by intros [->|?]%elem_of_cons; [left | right].
Qed.

Lemma clear_expired_queue_subset now q e :
  e ∈ _queue (clear_expired now q).2 → e ∈ _queue q.
Proof. rewrite clear_expired_queue. by intros [_ ?]%list_elem_of_filter. Qed.

(** X3. The queue hands out only what was put in: a message that [get]
    returns after any calls is the argument of one of the [put] calls. *)
Theorem get_returns_put_message (cap : Z) (calls : list queue_call) (m : Message) :
  (get (queue_after cap calls)).1 = Some m → CallPut m ∈ calls.
Proof.
  assert (∀ e, e ∈ _queue (queue_after cap calls) → CallPut (entry_message e) ∈ calls) as Hall.
  { induction calls as [|c calls IH] using rev_ind; intros e He.
    { by apply elem_of_nil in He. }
    rewrite queue_after_snoc in He. apply elem_of_app.
    destruct c as [m'| |now]; simpl in He.
    - apply put_queue_subset in He as [->|He]; [right; by left | left; eauto].
    - apply get_queue_subset in He. left; eauto.
    - apply clear_expired_queue_subset in He. left; eauto. }
  intros Hget. destruct (get (queue_after cap calls)) as [r q'] eqn:E.
  simpl in Hget. subst r. destruct (get_entry _ _ _ E) as (e & He & <- & _). eauto.
Qed.

Lemma get_returns_put_message_witness :
  CallPut (sample_message "a" 2 None)
    ∈ [CallPut (sample_message "b" 1 None); CallPut (sample_message "a" 2 None)].
Proof.
  apply (get_returns_put_message 5). reflexivity.
Defined.

Lemma put_then_get q m :
  queue_inv q → _size q < max_size q →
  let q1 := (put q m).2 in
  ((∀ e, e ∈ _queue q → priority (entry_message e) < priority m) →
     (get q1).1 = Some m ∧ _queue (get q1).2 ≡ₚ _queue q) ∧
  ((∃ e, e ∈ _queue q ∧ priority m ≤ priority (entry_message e)) →
     (- priority m, _counter q, m) ∈ _queue (get q1).2).
Proof.
  intros Hinv Hroom q1.
  assert (queue_inv q1) as Hinv1 by by apply put_inv.
  set (new := (- priority m, _counter q, m) : entry).
  assert (_queue q1 ≡ₚ new :: _queue q) as Hq1.
  { unfold q1. rewrite put_accepts by done. cbn [snd _queue].
    apply (heappush_perm _ entry_lt_asym entry_le_trans). }
  assert (_queue q1 ≠ []) as Hne.
  { intros E. rewrite E in Hq1. by apply Permutation_nil_cons in Hq1. }
  destruct (get q1) as [r q2] eqn:Hget.
  destruct (get_Some _ _ _ Hinv1 Hne Hget) as (e0 & -> & Hperm & Hmin).
  rewrite Forall_forall in Hmin. cbn [fst snd].
  assert (∀ e, e ∈ _queue q →
            entry_key e = - priority (entry_message e) ∧
            (entry_counter e < _counter q)%nat) as Hold.
  { intros e He. split.
    - by apply (proj1 (Forall_forall _ _) (inv_key _ Hinv)).
    - by apply (proj1 (Forall_forall _ _) (inv_counter _ Hinv)). }
  assert (e0 ∈ new :: _queue q) as He0 by (rewrite <-Hq1, Hperm; by left).
  assert (new ∈ e0 :: _queue q2) as Hnew by (rewrite <-Hperm, Hq1; by left).
  assert (entry_key new = - priority m) as Hnk by done.
  assert (entry_counter new = _counter q) as Hnc by done.
  assert (entry_message new = m) as Hnm by done.
  clearbody new.
  split.
  - intros Hlow. assert (e0 = new) as ->.
    { apply elem_of_cons in He0 as [?|He0]; [done|].
      apply elem_of_cons in Hnew as [?|Hnew]; [done|].
      apply Hmin, entry_before_spec in Hnew.
      destruct (Hold _ He0) as [Hk Hc]. specialize (Hlow _ He0). lia. }
    split; [by rewrite Hnm|]. rewrite Hq1 in Hperm. by apply Permutation_cons_inv in Hperm.
  - intros (e & He & Hprio).
    apply elem_of_cons in Hnew as [Heq|Hnew]; [|done]. subst e0.
    rewrite Hq1 in Hperm. apply Permutation_cons_inv in Hperm.
    destruct (Hold _ He) as [Hk Hc].
    rewrite Hperm in He. apply Hmin, entry_before_spec in He. lia.
Qed.

(** X4. A message just put overtakes exactly the messages of strictly
    lower priority: it is the next one out if every message already in the
    queue has a lower priority, and it still waits after the next [get] if
    some message in the queue has the same or a higher priority. *)
Theorem put_overtakes_lower (cap : Z) (calls : list queue_call) (m : Message) :
  let q := queue_after cap calls in
  _size q < max_size q →
  let q1 := (put q m).2 in
  ((∀ e, e ∈ _queue q → priority (entry_message e) < priority m) →
     (get q1).1 = Some m ∧ _queue (get q1).2 ≡ₚ _queue q) ∧
  ((∃ e, e ∈ _queue q ∧ priority m ≤ priority (entry_message e)) →
     (- priority m, _counter q, m) ∈ _queue (get q1).2).
Proof.
  intros q Hroom. apply put_then_get; [apply queue_after_inv | done].
Qed.

Lemma put_overtakes_lower_witness :
  let calls := [CallPut (sample_message "a" 1 None); CallPut (sample_message "b" 2 None)] in
  let m := sample_message "c" 2 None in
  let q := queue_after 5 calls in
  let q1 := (put q m).2 in
  ((∀ e, e ∈ _queue q → priority (entry_message e) < priority m) →
     (get q1).1 = Some m ∧ _queue (get q1).2 ≡ₚ _queue q) ∧
  ((∃ e, e ∈ _queue q ∧ priority m ≤ priority (entry_message e)) →
     (- priority m, _counter q, m) ∈ _queue (get q1).2).
Proof.
  intros calls m. apply (put_overtakes_lower 5 calls m). simpl. lia.
Defined.

Lemma get_all_perm q q' :
  queue_inv q → queue_inv q' → _queue q ≡ₚ _queue q' → get_all q = get_all q'.
Proof.
  intros Hq Hq' Hperm.
  destruct (get_all_sorted q Hq) as (es & Hes & Hs & ->).
  destruct (get_all_sorted q' Hq') as (es' & Hes' & Hs' & ->).
  f_equal. apply entry_sorted_unique; [done..|]. by rewrite Hes, Hes'.
Qed.

(** X5. A sweep leaves nothing for a second sweep at the same instant:
    the second one removes no entry, returns 0, and the messages come out
    of the queue in the same order as after the first. *)
Theorem clear_expired_twice (cap : Z) (calls : list queue_call) (now : Z) :
  let q1 := (clear_expired now (queue_after cap calls)).2 in
  (clear_expired now q1).1 = 0 ∧
  _queue (clear_expired now q1).2 ≡ₚ _queue q1 ∧
  size (clear_expired now q1).2 = size q1 ∧
  get_all (clear_expired now q1).2 = get_all q1.
Proof.
  intros q1.
  assert (queue_inv q1) as Hinv by apply clear_expired_inv, queue_after_inv.
  assert (queue_inv (clear_expired now q1).2) as Hinv' by by apply clear_expired_inv.
  assert (Forall (λ e, is_expired now (entry_message e) = false) (_queue q1)) as Hlive.
  { apply Forall_forall. intros e He. unfold q1 in He.
    rewrite clear_expired_queue in He. by apply list_elem_of_filter in He as [? _]. }
  assert (_queue (clear_expired now q1).2 ≡ₚ _queue q1) as Hperm.
  { rewrite clear_expired_queue. by rewrite filter_all. }
  split_and!; [| done | | by apply get_all_perm].
  - rewrite clear_expired_count, filter_none; [done|].
    eapply Forall_impl; [done|]. intros e He. simpl in *. congruence.
  - unfold size. by rewrite (inv_size _ Hinv), (inv_size _ Hinv'), Hperm.
Qed.

(** * Invariants of a run of the bus

    A property of the bus holds after every run as soon as the steps the
    methods are made of keep it: [send_message], the registration of
    [subscribe], [unsubscribe], the [get] of the routing loop, the recording
    of a failed delivery, the delivery counters, a cleanup turn, the emptying
    of a backlog by a retry, and the small updates.  [Ok] is what is known
    of the messages that travel through the bus. *)
Section BusInduction.
Context (P : CommunicationBus → Prop) (Ok : Message → Prop).
Context (P_send : ∀ now b m, P b → Ok m → P (send_message now b m).2).
Context (P_register : ∀ b a cb, P b →
  P (with_metrics (with_subscribers b (dict_set (subscribers b) a cb))
       (set_total_subscribers (metrics b)
          (Z.of_nat (length (dict_set (subscribers b) a cb)))))).
Context (P_unsubscribe : ∀ b a, P b → P (unsubscribe b a)).
Context (P_get : ∀ b, P b → P (with_queue b (get (message_queue b)).2)).
Context (P_fail : ∀ b r cb m, P b → Ok m → dict_get (subscribers b) r = Some cb →
  P (with_failed b (failed_append (failed_deliveries b) r m))).
Context (P_counts : ∀ b (results : list bool), P b →
  let successful := Z.of_nat (length (filter (λ r, r = true) results)) in
  P (with_metrics b
       (set_messages_failed
          (set_messages_delivered (metrics b) (messages_delivered (metrics b) + successful))
          (messages_failed (metrics b) + (Z.of_nat (length results) - successful))))).
Context (P_cleanup : ∀ now b, P b → P (cleanup_once now b)).
Context (P_clear : ∀ b a ms, P b → dict_get (failed_deliveries b) a = Some ms →
  P (with_failed b (dict_set (failed_deliveries b) a []))).
Context (P_filter : ∀ b f, P b → P (add_message_filter b f)).
Context (P_rule : ∀ b r, P b → P (add_routing_rule b r)).
Context (P_add_client : ∀ b c, P b → P (add_websocket_client b c)).
Context (P_remove_client : ∀ b c, P b → P (remove_websocket_client b c)).
Context (P_running : ∀ b r, P b → P (with_running b r)).
Context (Ok_queue : ∀ b e, P b → e ∈ _queue (message_queue b) → Ok (entry_message e)).
Context (Ok_backlog : ∀ b a ms, P b → dict_get (failed_deliveries b) a = Some ms →
  Forall Ok ms).

Lemma deliver_preserves b r m : P b → Ok m → P (_deliver_to_subscriber b r m).2.
Proof using P_fail.
  intros Hb Hm. unfold _deliver_to_subscriber.
  destruct (dict_get (subscribers b) r) as [cb|] eqn:Hr; [|done].
  destruct (cb _); [done|]. simpl. eauto.
Qed.

Lemma gather_preserves b rs m : P b → Ok m → P (gather_deliveries b rs m).2.
Proof using P_fail.
  intros Hb Hm. revert b Hb. induction rs as [|r rs IH]; intros b Hb; [done|].
  cbn [gather_deliveries].
  pose proof (deliver_preserves b r m Hb Hm) as H1.
  destruct (_deliver_to_subscriber b r m) as [res b1]. cbn [snd] in H1.
  specialize (IH b1 H1). by destruct (gather_deliveries b1 rs m) as [ress b2].
Qed.

Lemma route_preserves b m : P b → Ok m → P (_route_message b m).
Proof using P_fail P_counts.
  intros Hb Hm. unfold _route_message.
  destruct (filter _ (_determine_recipients b m)) as [|r rs]; [done|].
  pose proof (gather_preserves b (r :: rs) m Hb Hm) as H1.
  destruct (gather_deliveries b (r :: rs) m) as [results b1]. cbn [snd] in H1.
  by apply P_counts.
Qed.

Lemma process_preserves b : P b → P (process_one b).
Proof using P_get P_fail P_counts Ok_queue.
  intros Hb. unfold process_one.
  destruct (get (message_queue b)) as [[m|] q'] eqn:Hget; [|done].
  destruct (get_entry _ _ _ Hget) as (e & He & <- & _).
  apply route_preserves; [|by eauto].
  specialize (P_get b Hb). by rewrite Hget in P_get.
Qed.

Lemma retry_messages_preserves now b ms n :
  P b → Forall Ok ms → P (retry_messages now b ms n).2.
Proof using P_send.
  intros Hb Hms. revert b n Hb.
  induction Hms as [|m ms Hm Hms IH]; intros b n Hb; [done|].
  cbn [retry_messages]. destruct (is_expired now m); cbn [negb]; [by apply IH|].
  pose proof (P_send now b m Hb Hm) as H1.
  destruct (send_message now b m) as [ok b1]. by apply IH.
Qed.

Lemma retry_agents_preserves now b aids n : P b → P (retry_agents now b aids n).2.
Proof using P_send P_clear Ok_backlog.
  revert b n. induction aids as [|a aids IH]; intros b n Hb; [done|].
  cbn [retry_agents].
  destruct (dict_get (failed_deliveries b) a) as [ms|] eqn:Ha; [|by apply IH].
  pose proof (retry_messages_preserves now
    (with_failed b (dict_set (failed_deliveries b) a [])) ms n
    (P_clear _ _ _ Hb Ha) (Ok_backlog _ _ _ Hb Ha)) as H1.
  destruct (retry_messages now _ ms n) as [n1 b1]. by apply IH.
Qed.

Lemma bus_do_preserves b c : P b → Forall Ok (submitted c) → P (bus_do b c).
Proof using All.
  intros Hb Hc. destruct c as [now [| |fresh_id a cb|a|m| | |a|f|r|cl|cl|]];
    unfold bus_do, submitted in *; cbn [fst snd] in *.
  - by apply P_running.
  - by apply P_running.
  - apply Forall_inv in Hc. unfold subscribe.
    apply P_send; [|exact Hc]. by apply P_register.
  - by apply P_unsubscribe.
  - apply Forall_inv in Hc. by apply P_send.
  - destruct (running b); [by apply process_preserves | done].
  - destruct (running b); [by apply P_cleanup | done].
  - by apply retry_agents_preserves.
  - by apply P_filter.
  - by apply P_rule.
  - by apply P_add_client.
  - by apply P_remove_client.
  - done.
Qed.

Lemma bus_run_preserves b calls :
  P b → (∀ c, c ∈ calls → Forall Ok (submitted c)) → P (foldl bus_do b calls).
Proof using All.
  revert b. induction calls as [|c calls IH]; intros b Hb Hcalls; [done|].
  simpl. apply IH.
  - apply bus_do_preserves; [done|]. apply Hcalls. by left.
  - intros c' Hc'. apply Hcalls. by right.
Qed.

End BusInduction.

Lemma bus_after_unfold start cap calls :
  bus_after start cap calls = foldl bus_do (CommunicationBus_init start cap) calls.
Proof. done. Qed.

(** Steps that leave alone what an invariant speaks of. *)
Ltac untouched :=
  intros; destruct_and?; simpl in *;
  try (apply Forall_forall; intros);
  by auto.

Lemma submitted_unrestricted (calls : list (Z * bus_call)) :
  ∀ c, c ∈ calls → Forall (λ _, True) (submitted c).
Proof. intros c _. by apply Forall_forall. Qed.

Lemma notify_gauges b m :
  total_subscribers (metrics b) = Z.of_nat (length (subscribers b)) →
  websocket_connections (metrics b) = Z.of_nat (length (websocket_clients b)) →
  let b' := _notify_websocket_clients b m in
  total_subscribers (metrics b') = Z.of_nat (length (subscribers b')) ∧
  websocket_connections (metrics b') = Z.of_nat (length (websocket_clients b')).
Proof.
  intros Hs Hw. cbv zeta. unfold _notify_websocket_clients.
  destruct (websocket_clients b) as [|c cs] eqn:E; [by rewrite E|].
  split; [exact Hs | reflexivity].
Qed.

Lemma bus_after_gauges (start cap : Z) (calls : list (Z * bus_call)) :
  let b := bus_after start cap calls in
  total_subscribers (metrics b) = Z.of_nat (length (subscribers b)) ∧
  websocket_connections (metrics b) = Z.of_nat (length (websocket_clients b)).
Proof.
  intros b. unfold b. rewrite bus_after_unfold.
  apply (bus_run_preserves
    (λ b, total_subscribers (metrics b) = Z.of_nat (length (subscribers b)) ∧
          websocket_connections (metrics b) = Z.of_nat (length (websocket_clients b)))
    (λ _, True)); try apply submitted_unrestricted; try by untouched.
  - intros now b0 m [Hs Hw] _. unfold send_message.
    destruct (_apply_filters b0 m); [|done]. cbn [negb].
    destruct (is_expired now m); [done|].
    destruct (put (message_queue b0) m) as [[|] q]; [|done].
    cbn [snd]. by apply notify_gauges.
  - intros b0 a [Hs Hw]. unfold unsubscribe.
    destruct (dict_in a (subscribers b0)); [|done]. cbn.
    by destruct (dict_in a (failed_deliveries b0)).
  - intros now b0 [Hs Hw]. unfold cleanup_once.
    destruct (clear_expired now (message_queue b0)) as [n q].
    by case_bool_decide.
Qed.

(** X6. After any run of the bus the two gauges of the metrics agree with
    the state: [total_subscribers] is the number of subscribed addresses
    and [websocket_connections] the number of WebSocket clients held, also
    after clients were dropped because a notification failed. *)
Theorem gauges_agree_with_state (start cap : Z) (calls : list (Z * bus_call)) :
  let b := bus_after start cap calls in
  total_subscribers (metrics b) = Z.of_nat (length (subscribers b)) ∧
  websocket_connections (metrics b) = Z.of_nat (length (websocket_clients b)).
Proof. apply bus_after_gauges. Qed.

Lemma prod_map_keys (fd : list (string * list Message)) (f : list Message → list Message) :
  dict_keys (prod_map id f <$> fd) = dict_keys fd.
Proof.
  unfold dict_keys. rewrite <-list_fmap_compose. apply list_fmap_ext. by intros i [].
Qed.

Lemma dict_get_in {V} (d : list (string * V)) k v :
  dict_get d k = Some v → dict_in k d = true.
Proof. intros H. unfold dict_in. rewrite H. by apply bool_decide_eq_true. Qed.

(** Whatever the capacity, after any run the queue of the bus is a
    well-formed heap, no address is subscribed twice or has two backlogs,
    and only subscribed addresses have a backlog. *)
Lemma bus_after_wf (start cap : Z) (calls : list (Z * bus_call)) :
  let b := bus_after start cap calls in
  queue_inv (message_queue b) ∧
  NoDup (dict_keys (subscribers b)) ∧
  NoDup (dict_keys (failed_deliveries b)) ∧
  (∀ a, a ∈ dict_keys (failed_deliveries b) → a ∈ dict_keys (subscribers b)).
Proof.
  intros b. unfold b. rewrite bus_after_unfold.
  apply (bus_run_preserves
    (λ b, queue_inv (message_queue b) ∧
          NoDup (dict_keys (subscribers b)) ∧
          NoDup (dict_keys (failed_deliveries b)) ∧
          (∀ a, a ∈ dict_keys (failed_deliveries b) → a ∈ dict_keys (subscribers b)))
    (λ _, True)); try apply submitted_unrestricted; try by untouched.
  - intros now b0 m (Hq & Hs & Hf & Hfs) _.
    destruct (send_message_spec now b0 m) as (_ & -> & -> & -> & _).
    split_and!; try done. destruct (_ && _); [by apply put_inv | done].
  - intros b0 a cb (Hq & Hs & Hf & Hfs). simpl. split_and!; try done.
    + by apply dict_set_NoDup.
    + intros x Hx. rewrite dict_keys_set. destruct (dict_in a (subscribers b0)); [eauto|].
      apply elem_of_app. left. eauto.
  - intros b0 a (Hq & Hs & Hf & Hfs). unfold unsubscribe.
    destruct (dict_in a (subscribers b0)) eqn:Hin; [|done].
    cbn [failed_deliveries with_metrics with_subscribers].
    destruct (dict_in a (failed_deliveries b0)) eqn:Hinf; simpl.
    + split_and!; try done; try by apply dict_del_NoDup.
      intros x. rewrite !dict_keys_del by done. rewrite !list_elem_of_filter.
      intros [? ?]. eauto.
    + split_and!; try done; try by apply dict_del_NoDup.
      intros x Hx. rewrite dict_keys_del by done. rewrite list_elem_of_filter.
      split; [|eauto]. intros ->. apply dict_in_keys in Hx. congruence.
  - intros b0 (Hq & Hs & Hf & Hfs). simpl. split_and!; try done. by apply get_inv.
  - intros b0 r cb m (Hq & Hs & Hf & Hfs) _ Hr. simpl. split_and!; try done.
    + by apply dict_set_NoDup.
    + intros x. unfold failed_append. rewrite dict_keys_set.
      destruct (dict_in r (failed_deliveries b0)); [eauto|].
      intros [?| ->%list_elem_of_singleton]%elem_of_app; [eauto|].
      by eapply dict_in_keys, dict_get_in.
  - intros now b0 (Hq & Hs & Hf & Hfs). unfold cleanup_once.
    pose proof (clear_expired_inv now _ Hq) as Hq'.
    destruct (clear_expired now (message_queue b0)) as [k q]. cbn [snd] in *.
    case_bool_decide; simpl; rewrite prod_map_keys; done.
  - intros b0 a ms (Hq & Hs & Hf & Hfs) Ha. simpl. split_and!; try done.
    + by apply dict_set_NoDup.
    + intros x. rewrite dict_keys_set. by rewrite (dict_get_in _ _ _ Ha); eauto.
  - simpl. split_and!; [apply queue_inv_init | constructor | constructor |].
    by intros a ?%elem_of_nil.
Qed.

Lemma history_append_length h m :
  Z.of_nat (length h) ≤ history_maxlen →
  Z.of_nat (length (history_append h m)) ≤ history_maxlen.
Proof.
  unfold history_append, history_maxlen. intros Hh.
  case_bool_decide; rewrite length_app, ?length_drop; simpl; lia.
Qed.

Lemma send_message_history now b m :
  message_history (send_message now b m).2 =
    if (send_message now b m).1 then history_append (message_history b) m
    else message_history b.
Proof.
  unfold send_message. destruct (_apply_filters b m); [|done]. cbn [negb].
  destruct (is_expired now m); [done|].
  destruct (put (message_queue b) m) as [[|] q]; [|done]. cbn [fst snd].
  match goal with
  | |- message_history (_notify_websocket_clients ?x ?y) = _ =>
      by destruct (notify_fields x y) as (_ & _ & _ & _ & -> & _)
  end.
Qed.

Lemma bus_after_history_bound (start cap : Z) (calls : list (Z * bus_call)) :
  Z.of_nat (length (message_history (bus_after start cap calls))) ≤ history_maxlen.
Proof.
  rewrite bus_after_unfold.
  apply (bus_run_preserves
    (λ b, Z.of_nat (length (message_history b)) ≤ history_maxlen) (λ _, True));
    try apply submitted_unrestricted; try by untouched.
  - intros now0 b0 m0 Hb0 _. rewrite send_message_history.
    destruct (send_message now0 b0 m0).1; [by apply history_append_length | done].
  - intros b0 a Hb0. unfold unsubscribe.
    destruct (dict_in a (subscribers b0)); [|done]. cbn.
    by destruct (dict_in a (failed_deliveries b0)).
  - intros now0 b0 Hb0. unfold cleanup_once.
    destruct (clear_expired now0 (message_queue b0)) as [n q].
    by case_bool_decide.
Qed.

(** X7. The history never holds more than 10000 messages, whatever the run:
    an accepted message is appended as the last one, the oldest one giving
    way once the history is full, and a refused message leaves the history
    as it is. *)
Theorem history_is_bounded (start cap : Z) (calls : list (Z * bus_call))
    (now : Z) (m : Message) :
  let b := bus_after start cap calls in
  let b' := (send_message now b m).2 in
  Z.of_nat (length (message_history b)) ≤ 10000 ∧
  ((send_message now b m).1 = true →
     last (message_history b') = Some m ∧
     ∃ dropped, dropped ++ message_history b' = message_history b ++ [m] ∧
                (length dropped ≤ 1)%nat) ∧
  ((send_message now b m).1 = false → message_history b' = message_history b).
Proof.
  intros b b'.
  pose proof (bus_after_history_bound start cap calls) as Hb. fold b in Hb.
  split; [done|]. unfold b'. rewrite send_message_history.
  destruct (send_message now b m).1; split; try done. intros _.
  unfold history_append. case_bool_decide.
  - split; [by rewrite last_snoc|]. exists (take 1 (message_history b)).
    split; [by rewrite app_assoc, take_drop | rewrite length_take; lia].
  - split; [by rewrite last_snoc|]. exists []. split; [done | simpl; lia].
Qed.

(** X8. A filter stays for good: once a filter that returns a false value
    for a message has been added, [send_message] refuses that message
    after any further calls, and the refusal leaves the bus as it was. *)
Theorem rejecting_filter_is_permanent (start cap : Z)
    (before after : list (Z * bus_call)) (t now : Z) (f : message_filter) (m : Message) :
  f m = FilterFalse →
  let b := bus_after start cap (before ++ (t, CallAddFilter f) :: after) in
  send_message now b m = (false, b).
Proof.
  intros Hf b.
  assert (f ∈ message_filters b) as Hin.
  { unfold b. rewrite bus_after_unfold, foldl_app. cbn [foldl].
    apply (bus_run_preserves (λ b, f ∈ message_filters b) (λ _, True));
      try apply submitted_unrestricted; try by untouched.
    - intros now0 b0 m0 Hb0 _.
      by destruct (send_message_spec now0 b0 m0) as (_ & _ & _ & _ & -> & _).
    - intros b0 a Hb0. unfold unsubscribe.
      destruct (dict_in a (subscribers b0)); [|done]. cbn.
      by destruct (dict_in a (failed_deliveries b0)).
    - intros now0 b0 Hb0. unfold cleanup_once.
      destruct (clear_expired now0 (message_queue b0)) as [n q].
      by case_bool_decide.
    - intros b0 g Hb0. simpl. apply elem_of_app. by left.
    - simpl. apply elem_of_app. right. by left. }
  unfold send_message, _apply_filters.
  assert (apply_filters_loop (message_filters b) m = false) as ->; [|done].
  apply apply_filters_loop_false. eauto.
Qed.

Lemma rejecting_filter_is_permanent_witness :
  let f : message_filter := λ m, if decide (msg_id m = "spam") then FilterFalse else FilterTrue in
  let m := sample_message "spam" 4 None in
  let b := bus_after 0 5 ([(1, CallStart)] ++ (2, CallAddFilter f)
                          :: [(3, CallAddFilter (λ _, FilterTrue)); (4, CallProcess)]) in
  send_message 5 b m = (false, b).
Proof.
  intros f m. apply (rejecting_filter_is_permanent 0 5 [(1, CallStart)] _ 2 5 f m).
  reflexivity.
Defined.

(** * Sending, subscribing, routing *)

(** X9. What [send_message] leaves behind.  A message refused by a filter
    or dropped because the queue is full changes nothing at all, so it is
    counted nowhere; an expired message that the filters let through only
    adds 1 to [messages_expired]; an accepted message adds 1 to
    [messages_sent] and nothing to [messages_expired], stamps
    [last_message_time], and leaves subscribers and backlogs alone. *)
Theorem send_message_accounting (now : Z) (b : CommunicationBus) (m : Message) :
  let b' := (send_message now b m).2 in
  (_apply_filters b m = false → b' = b) ∧
  (_apply_filters b m = true → is_expired now m = false →
     is_full (message_queue b) = true → b' = b) ∧
  (_apply_filters b m = true → is_expired now m = true →
     b' = with_metrics b
            (set_messages_expired (metrics b) (messages_expired (metrics b) + 1))) ∧
  ((send_message now b m).1 = true →
     messages_sent (metrics b') = messages_sent (metrics b) + 1 ∧
     messages_expired (metrics b') = messages_expired (metrics b) ∧
     last_message_time (metrics b') = Some now ∧
     size (message_queue b') = size (message_queue b) + 1 ∧
     subscribers b' = subscribers b ∧ failed_deliveries b' = failed_deliveries b).
Proof.
  unfold send_message, is_full, size, put.
  destruct (_apply_filters b m); cbn [negb];
    [|split_and!; done].
  destruct (is_expired now m); [split_and!; done|].
  case_bool_decide; [split_and!; done|]. cbn [fst snd].
  split_and!; try done. intros _.
  match goal with
  | |- context [_notify_websocket_clients ?x ?y] =>
      destruct (notify_fields x y) as (-> & -> & -> & _ & _ & -> & _ & _ & ->);
      set (b1 := x)
  end.
  split_and!; try done.
  unfold _notify_websocket_clients. by destruct (websocket_clients b1).
Qed.

Lemma send_message_total_subscribers now b m :
  total_subscribers (metrics (send_message now b m).2) = total_subscribers (metrics b).
Proof.
  unfold send_message. destruct (_apply_filters b m); [|done]. cbn [negb].
  destruct (is_expired now m); [done|].
  destruct (put (message_queue b) m) as [[|] q]; [|done]. cbn [snd].
  unfold _notify_websocket_clients. simpl. by destruct (websocket_clients b).
Qed.

Lemma subscribe_fields now fresh_id b a cb :
  subscribers (subscribe now fresh_id b a cb) = dict_set (subscribers b) a cb ∧
  message_queue (subscribe now fresh_id b a cb) =
    (if _apply_filters b (welcome_message now fresh_id a)
        && negb (is_full (message_queue b))
     then (put (message_queue b) (welcome_message now fresh_id a)).2
     else message_queue b).
Proof.
  unfold subscribe. fold (welcome_message now fresh_id a).
  set (b1 := with_metrics _ _).
  destruct (send_message_spec now b1 (welcome_message now fresh_id a))
    as (_ & -> & -> & _).
  change (_apply_filters b1) with (_apply_filters b).
  split; [done|]. simpl. by rewrite andb_true_r.
Qed.

(** X10. [subscribe] registers the callback whether or not the welcome
    message can be queued: the address maps to the new callback, every
    other address keeps its own, a new address comes last and an address
    already subscribed keeps its place and its backlog, and
    [total_subscribers] is the number of subscribers.  The welcome message
    is queued exactly when the filters let it through and the queue has
    room. *)
Theorem subscribe_registers (now : Z) (fresh_id : string) (b : CommunicationBus)
    (a : string) (cb : callback) :
  let b' := subscribe now fresh_id b a cb in
  let welcome := welcome_message now fresh_id a in
  dict_get (subscribers b') a = Some cb ∧
  (∀ a', a' ≠ a → dict_get (subscribers b') a' = dict_get (subscribers b) a') ∧
  dict_keys (subscribers b') =
    (if dict_in a (subscribers b) then dict_keys (subscribers b)
     else dict_keys (subscribers b) ++ [a]) ∧
  total_subscribers (metrics b') = Z.of_nat (length (subscribers b')) ∧
  failed_deliveries b' = failed_deliveries b ∧
  message_queue b' =
    (if _apply_filters b welcome && negb (is_full (message_queue b))
     then (put (message_queue b) welcome).2 else message_queue b).
Proof.
  intros b' welcome. unfold b', subscribe. fold (welcome_message now fresh_id a).
  fold welcome.
  set (b1 := with_metrics _ _).
  destruct (send_message_spec now b1 welcome) as (_ & Hq & Hs & Hf & _).
  rewrite Hq, Hs, Hf. simpl.
  split_and!; try done.
  - apply dict_get_set_eq.
  - intros a' Hne. by apply dict_get_set_ne.
  - apply dict_keys_set.
  - by rewrite send_message_total_subscribers.
  - change (_apply_filters b1 welcome) with (_apply_filters b welcome).
    by rewrite andb_true_r.
Qed.

Lemma filter_fmap_length {A} (f : A → bool) (l : list A) :
  length (filter (λ r, r = true) (f <$> l)) = length (filter (λ x, f x = true) l).
Proof.
  induction l as [|x l IH]; [done|]. rewrite fmap_cons, !filter_cons.
  destruct (f x); simpl; rewrite ?decide_True, ?decide_False by done; simpl; by rewrite ?IH.
Qed.

Lemma gather_accounting b rs m :
  NoDup rs → Forall (λ r, is_Some (dict_get (subscribers b) r)) rs →
  (gather_deliveries b rs m).1 = callback_completes b m <$> rs ∧
  ∀ a, dict_get (failed_deliveries (gather_deliveries b rs m).2) a =
       if bool_decide (a ∈ filter (λ r, callback_completes b m r = false) rs)
       then Some (default [] (dict_get (failed_deliveries b) a) ++ [m])
       else dict_get (failed_deliveries b) a.
Proof.
  revert b. induction rs as [|r rs IH]; intros b Hnd Hsub.
  { split; [done|]. intros a. rewrite bool_decide_false; [done | by intros ?%elem_of_nil]. }
  apply NoDup_cons in Hnd as [Hr Hnd]. apply Forall_cons in Hsub as [[cb Hcb] Hsub].
  assert (callback_completes b m r = cb (delivery_message r m)) as Hcomp.
  { unfold callback_completes. by rewrite Hcb. }
  cbn [gather_deliveries]. unfold _deliver_to_subscriber. rewrite Hcb.
  rewrite fmap_cons, filter_cons, Hcomp.
  destruct (cb (delivery_message r m)) eqn:Hres.
  - specialize (IH b Hnd Hsub). destruct (gather_deliveries b rs m) as [ress b2].
    cbn [fst snd] in *. destruct IH as [-> IH]. split; [done|].
    intros a. by rewrite IH, decide_False.
  - set (b1 := with_failed b _).
    specialize (IH b1 Hnd Hsub). destruct (gather_deliveries b1 rs m) as [ress b2].
    cbn [fst snd] in *. destruct IH as [-> IH].
    change (callback_completes b1 m) with (callback_completes b m) in *.
    split; [done|]. intros a. rewrite IH, decide_True by done.
    unfold b1, failed_append. cbn [failed_deliveries with_failed].
    destruct (decide (a = r)) as [->|Hne].
    + rewrite dict_get_set_eq, bool_decide_false, bool_decide_true; [done|by left|].
      by intros [_ ?]%list_elem_of_filter.
    + rewrite dict_get_set_ne by done.
      destruct (decide (a ∈ filter (λ r0, callback_completes b m r0 = false) rs)).
      * rewrite !bool_decide_true; [done | by right | done].
      * rewrite !bool_decide_false; [done | | done].
        by intros [?|?]%elem_of_cons.
Qed.

Lemma recipients_subscribed b m :
  Forall (λ r, is_Some (dict_get (subscribers b) r)) (_determine_recipients b m).
Proof.
  apply Forall_forall. intros r. unfold _determine_recipients.
  assert (∀ r, r ∈ dict_keys (subscribers b) → is_Some (dict_get (subscribers b) r)) as Hk.
  { intros r' Hr'. apply dict_in_keys in Hr'. unfold dict_in in Hr'.
    by apply bool_decide_eq_true in Hr'. }
  case_decide.
  - intros [_ ?]%list_elem_of_filter. eauto.
  - destruct (String.prefix _ _); [by intros ?%elem_of_nil|].
    destruct (dict_in _ _) eqn:E; [|by intros ?%elem_of_nil].
    intros ->%list_elem_of_singleton. by apply Hk, dict_in_keys.
Qed.

Lemma recipients_NoDup b m :
  NoDup (dict_keys (subscribers b)) → NoDup (_determine_recipients b m).
Proof.
  intros Hnd. unfold _determine_recipients. case_decide; [by apply NoDup_filter|].
  destruct (String.prefix _ _); [constructor|].
  destruct (dict_in _ _); [apply NoDup_singleton | constructor].
Qed.

Lemma route_message_effect b m :
  NoDup (dict_keys (subscribers b)) →
  let rs := _determine_recipients b m in
  let failing := filter (λ r, callback_completes b m r = false) rs in
  let b' := _route_message b m in
  messages_delivered (metrics b') =
    messages_delivered (metrics b)
    + Z.of_nat (length (filter (λ r, callback_completes b m r = true) rs)) ∧
  messages_failed (metrics b') = messages_failed (metrics b) + Z.of_nat (length failing) ∧
  (∀ a, dict_get (failed_deliveries b') a =
        if bool_decide (a ∈ failing)
        then Some (default [] (dict_get (failed_deliveries b) a) ++ [m])
        else dict_get (failed_deliveries b) a) ∧
  message_queue b' = message_queue b ∧ subscribers b' = subscribers b ∧
  messages_sent (metrics b') = messages_sent (metrics b) ∧
  messages_expired (metrics b') = messages_expired (metrics b).
Proof.
  intros Hs rs failing b'.
  pose proof (recipients_subscribed b m) as Hsub. fold rs in Hsub.
  pose proof (recipients_NoDup b m Hs) as Hnd. fold rs in Hnd.
  unfold b', _route_message. fold rs.
  assert (filter (λ recipient, dict_in recipient (subscribers b) = true) rs = rs) as ->.
  { apply filter_all. eapply Forall_impl; [exact Hsub|].
    intros r Hr. simpl. unfold dict_in. by apply bool_decide_eq_true. }
  unfold failing. clear failing b'. clearbody rs.
  destruct rs as [|r rs'].
  { split_and!; try done; simpl; lia. }
  set (rs := r :: rs') in *.
  destruct (gather_accounting b rs m Hnd Hsub) as [Hres Hfd].
  destruct (gather_fields b rs m) as (Hq & Hsb & Hmt & _).
  destruct (gather_deliveries b rs m) as [results b2]. cbn [fst snd] in *.
  cbn [metrics with_metrics messages_delivered messages_failed messages_sent
       messages_expired
       set_messages_failed set_messages_delivered failed_deliveries message_queue
       subscribers].
  rewrite Hmt, Hres, filter_fmap_length, length_fmap.
  split_and!; try done.
  pose proof (filter_length_complement (callback_completes b m) rs). lia.
Qed.

Lemma entry_before_priority q e e' :
  queue_inv q → e ∈ _queue q → e' ∈ _queue q → entry_before e e' →
  priority (entry_message e') ≤ priority (entry_message e).
Proof.
  intros Hinv He He' Hlt. apply entry_before_spec in Hlt.
  pose proof (proj1 (Forall_forall _ _) (inv_key _ Hinv)) as Hkey.
  rewrite (Hkey _ He), (Hkey _ He') in Hlt. lia.
Qed.

(** What the messages that a callback sends change in the bus: the queue
    and [messages_sent] grow together, by the number of messages that are
    accepted. *)
Lemma send_each_effect now b ms :
  let b' := send_each now b ms in
  subscribers b' = subscribers b ∧
  failed_deliveries b' = failed_deliveries b ∧
  messages_delivered (metrics b') = messages_delivered (metrics b) ∧
  messages_failed (metrics b') = messages_failed (metrics b) ∧
  0 ≤ messages_sent (metrics b') - messages_sent (metrics b) ≤ Z.of_nat (length ms) ∧
  size (message_queue b')
    = size (message_queue b) + (messages_sent (metrics b') - messages_sent (metrics b)).
Proof.
  revert b. induction ms as [|m ms IH]; intros b; cbn zeta.
  { simpl. split_and!; try done; lia. }
  unfold send_each. cbn [foldl]. fold (send_each now (send_message now b m).2 ms).
  destruct (IH (send_message now b m).2) as (-> & -> & -> & -> & Hn & ->).
  destruct (send_message_spec now b m) as (_ & Hq & -> & -> & _ & Hsent & _ & -> & ->).
  cbv zeta in Hq, Hsent.
  assert (size (message_queue (send_message now b m).2)
          = size (message_queue b)
            + (messages_sent (metrics (send_message now b m).2)
               - messages_sent (metrics b))) as Hsize.
  { rewrite Hq, Hsent.
    destruct (_apply_filters b m && negb (is_expired now m)
              && negb (is_full (message_queue b))) eqn:Hacc; [|lia].
    apply andb_true_iff in Hacc as [_ Hroom]. apply negb_true_iff in Hroom.
    destruct (put_accepted_entry (message_queue b) m) as [Hs _].
    { by rewrite put_verdict, Hroom. }
    unfold size. lia. }
  assert (0 ≤ messages_sent (metrics (send_message now b m).2)
              - messages_sent (metrics b) ≤ 1) as H1.
  { rewrite Hsent. destruct (_ && _ && _); lia. }
  rewrite length_cons. split_and!; try done; lia.
Qed.

Lemma send_each_nil now b : send_each now b [] = b.
Proof. done. Qed.

(** [asyncio.gather] over the deliveries: the results, the backlogs, and
    what the callbacks sent. *)
Lemma gather_as_effect now runs b rs m :
  NoDup rs → Forall (λ r, is_Some (dict_get (subscribers b) r)) rs →
  let g := gather_deliveries_as now runs b rs m in
  g.1 = (λ r, result_of (callback_ends runs m r)) <$> rs ∧
  (∀ a, dict_get (failed_deliveries g.2) a =
        if bool_decide (a ∈ filter (λ r, callback_ends runs m r = RaisesException) rs)
        then Some (default [] (dict_get (failed_deliveries b) a) ++ [m])
        else dict_get (failed_deliveries b) a) ∧
  subscribers g.2 = subscribers b ∧
  messages_delivered (metrics g.2) = messages_delivered (metrics b) ∧
  messages_failed (metrics g.2) = messages_failed (metrics b) ∧
  0 ≤ messages_sent (metrics g.2) - messages_sent (metrics b)
    ≤ Z.of_nat (length (rs ≫= callback_sends runs m)) ∧
  size (message_queue g.2)
    = size (message_queue b) + (messages_sent (metrics g.2) - messages_sent (metrics b)) ∧
  ((∀ r, r ∈ rs → callback_sends runs m r = []) →
     message_queue g.2 = message_queue b ∧ metrics g.2 = metrics b).
Proof.
  revert b. induction rs as [|r rs IH]; intros b Hnd Hsub; cbn zeta.
  { simpl. split_and!; try done; lia. }
  apply NoDup_cons in Hnd as [Hr Hnd]. apply Forall_cons in Hsub as [[cb Hcb] Hsub].
  cbn [gather_deliveries_as]. unfold _deliver_to_subscriber_as. rewrite Hcb.
  fold (callback_sends runs m r). fold (callback_ends runs m r).
  destruct (send_each_effect now b (callback_sends runs m r))
    as (Hs1 & Hf1 & Hd1 & Hfl1 & Hn1 & Hsz1). cbv zeta in *.
  set (b1 := send_each now b (callback_sends runs m r)) in *.
  assert (∀ b2, subscribers b2 = subscribers b1 →
                Forall (λ r, is_Some (dict_get (subscribers b2) r)) rs) as Hsub'.
  { intros b2 ->. by rewrite Hs1. }
  rewrite fmap_cons, filter_cons, bind_cons, length_app.
  assert ((∀ r0, r0 ∈ r :: rs → callback_sends runs m r0 = []) →
          b1 = b ∧ ∀ r0, r0 ∈ rs → callback_sends runs m r0 = []) as Hquiet.
  { intros Hq. split; [|intros r0 Hr0; apply Hq; by right].
    unfold b1. rewrite (Hq r) by (by left). done. }
  destruct (callback_ends runs m r) eqn:Hend; cbn [result_of].
  - specialize (IH b1 Hnd (Hsub' b1 eq_refl)).
    destruct (gather_deliveries_as now runs b1 rs m) as [ress b2].
    cbn [fst snd] in *. destruct IH as (-> & IHf & -> & -> & -> & Hn & -> & IHq).
    rewrite decide_False by done.
    split_and!; try done; try lia.
    + intros a. by rewrite IHf, Hf1.
    + intros Hq. destruct (Hquiet Hq) as [Hb1 Hq']. destruct (IHq Hq') as [-> ->].
      by rewrite Hb1.
  - set (b1' := with_failed b1 _).
    specialize (IH b1' Hnd (Hsub' b1' eq_refl)).
    destruct (gather_deliveries_as now runs b1' rs m) as [ress b2].
    cbn [fst snd] in *. destruct IH as (-> & IHf & -> & -> & -> & Hn & -> & IHq).
    rewrite decide_True by done.
    cbn [b1' subscribers with_failed metrics message_queue] in *.
    split_and!; try done; try lia.
    + intros a. rewrite IHf. unfold b1', failed_append.
      cbn [failed_deliveries with_failed]. rewrite Hf1.
      destruct (decide (a = r)) as [->|Hne].
      * rewrite dict_get_set_eq, bool_decide_false, bool_decide_true; [done|by left|].
        by intros [_ ?]%list_elem_of_filter.
      * rewrite dict_get_set_ne by done.
        destruct (decide (a ∈ filter (λ r0, callback_ends runs m r0 = RaisesException) rs)).
        -- rewrite !bool_decide_true; [done | by right | done].
        -- rewrite !bool_decide_false; [done | | done].
           by intros [?|?]%elem_of_cons.
    + intros Hq. destruct (Hquiet Hq) as [Hb1 Hq']. destruct (IHq Hq') as [-> ->].
      by rewrite Hb1.
  - specialize (IH b1 Hnd (Hsub' b1 eq_refl)).
    destruct (gather_deliveries_as now runs b1 rs m) as [ress b2].
    cbn [fst snd] in *. destruct IH as (-> & IHf & -> & -> & -> & Hn & -> & IHq).
    rewrite decide_False by done.
    split_and!; try done; try lia.
    + intros a. by rewrite IHf, Hf1.
    + intros Hq. destruct (Hquiet Hq) as [Hb1 Hq']. destruct (IHq Hq') as [-> ->].
      by rewrite Hb1.
Qed.

Lemma results_count (f : string → ending) (rs : list string) :
  length (filter (λ r, r = ResultTrue) ((λ r, result_of (f r)) <$> rs))
    = length (filter (λ r, f r = Completes) rs) ∧
  length rs = (length (filter (λ r, f r = Completes) rs)
               + length (filter (λ r, f r = RaisesException) rs)
               + length (filter (λ r, f r = IsCancelled) rs))%nat.
Proof.
  induction rs as [|r rs [IH1 IH2]]; [done|]. rewrite fmap_cons, !filter_cons.
  destruct (f r); simpl; rewrite ?decide_True, ?decide_False by done; simpl; lia.
Qed.

(** [_route_message_as] in one formula. *)
Lemma route_message_as_effect now runs b m :
  NoDup (dict_keys (subscribers b)) →
  let rs := _determine_recipients b m in
  let ended_with e := filter (λ r, callback_ends runs m r = e) rs in
  let b' := _route_message_as now runs b m in
  messages_delivered (metrics b')
    = messages_delivered (metrics b) + Z.of_nat (length (ended_with Completes)) ∧
  messages_failed (metrics b')
    = messages_failed (metrics b) + Z.of_nat (length (ended_with RaisesException))
      + Z.of_nat (length (ended_with IsCancelled)) ∧
  (∀ a, dict_get (failed_deliveries b') a =
        if bool_decide (a ∈ ended_with RaisesException)
        then Some (default [] (dict_get (failed_deliveries b) a) ++ [m])
        else dict_get (failed_deliveries b) a) ∧
  subscribers b' = subscribers b ∧
  0 ≤ messages_sent (metrics b') - messages_sent (metrics b)
    ≤ Z.of_nat (length (rs ≫= callback_sends runs m)) ∧
  size (message_queue b')
    = size (message_queue b) + (messages_sent (metrics b') - messages_sent (metrics b)) ∧
  ((∀ r, r ∈ rs → callback_sends runs m r = []) →
     message_queue b' = message_queue b ∧
     messages_sent (metrics b') = messages_sent (metrics b)).
Proof.
  intros Hs rs ended_with b'.
  pose proof (recipients_subscribed b m) as Hsub. fold rs in Hsub.
  pose proof (recipients_NoDup b m Hs) as Hnd. fold rs in Hnd.
  unfold b', _route_message_as. fold rs.
  assert (filter (λ recipient, dict_in recipient (subscribers b) = true) rs = rs) as ->.
  { apply filter_all. eapply Forall_impl; [exact Hsub|].
    intros r Hr. simpl. unfold dict_in. by apply bool_decide_eq_true. }
  unfold ended_with. clear ended_with b'. clearbody rs.
  destruct rs as [|r rs'].
  { split_and!; try done; simpl; lia. }
  set (rs := r :: rs') in *.
  destruct (gather_as_effect now runs b rs m Hnd Hsub)
    as (Hres & Hfd & Hsb & Hd & Hf & Hn & Hsz & Hquiet). cbv zeta in *.
  destruct (gather_deliveries_as now runs b rs m) as [results b2]. cbn [fst snd] in *.
  cbn [metrics with_metrics messages_delivered messages_failed messages_sent
       set_messages_failed set_messages_delivered failed_deliveries message_queue
       subscribers].
  destruct (results_count (callback_ends runs m) rs) as [Hc1 Hc2].
  rewrite Hres, Hc1, length_fmap, Hd, Hf.
  split_and!; try done; try lia.
  intros Hq. destruct (Hquiet Hq) as [-> ->]. done.
Qed.

(** With callbacks that send nothing and are not cancelled,
    [_route_message_as] is [_route_message]. *)
Lemma gather_as_plain now b b1 rs m :
  subscribers b1 = subscribers b →
  gather_deliveries_as now (plain_behaviour b) b1 rs m
  = ((λ r : bool, if r then ResultTrue else ResultFalse) <$> (gather_deliveries b1 rs m).1,
     (gather_deliveries b1 rs m).2).
Proof.
  revert b1. induction rs as [|r rs IH]; intros b1 Hs; [done|].
  cbn [gather_deliveries_as gather_deliveries].
  unfold _deliver_to_subscriber_as, _deliver_to_subscriber, plain_behaviour.
  cbn [sends ends]. fold (plain_behaviour b). rewrite send_each_nil, Hs.
  destruct (dict_get (subscribers b) r) as [cb|] eqn:Hcb.
  - destruct (cb (delivery_message r m)).
    + rewrite (IH b1 Hs). by destruct (gather_deliveries b1 rs m).
    + rewrite (IH (with_failed b1 (failed_append (failed_deliveries b1) r m)) Hs).
      by destruct (gather_deliveries _ rs m).
  - rewrite (IH b1 Hs). by destruct (gather_deliveries b1 rs m).
Qed.

Lemma route_message_as_plain now b m :
  _route_message_as now (plain_behaviour b) b m = _route_message b m.
Proof.
  unfold _route_message_as, _route_message.
  destruct (filter _ (_determine_recipients b m)) as [|r rs]; [done|].
  rewrite (gather_as_plain now b b (r :: rs) m eq_refl).
  destruct (gather_deliveries b (r :: rs) m) as [results b2]. cbn [fst snd].
  rewrite length_fmap.
  assert (length (filter (λ r0, r0 = ResultTrue)
                    ((λ r0 : bool, if r0 then ResultTrue else ResultFalse) <$> results))
          = length (filter (λ r0, r0 = true) results)) as ->; [|done].
  clear. induction results as [|[|] l IH]; [done|..];
    rewrite fmap_cons, !filter_cons; simpl;
    rewrite ?decide_True, ?decide_False by done; simpl; by rewrite ?IH.
Qed.

(** X11. Routing a message attempts each recipient once and accounts for
    every attempt, whatever the callbacks send through the bus while they
    are awaited: [messages_delivered] grows by the number of recipients
    whose callback completes and [messages_failed] by the number of those
    whose callback raises or is cancelled; the message is appended to the
    backlog of each recipient whose callback raises an [Exception] (not to
    that of a cancelled one) and no other backlog changes.  The subscribers
    stay as they are; the queue and [messages_sent] grow together, by the
    number of messages sent by the callbacks that the bus accepted, and
    stay as they are when the callbacks send nothing. *)
Theorem route_accounting (start cap : Z) (calls : list (Z * bus_call))
    (now : Z) (runs : behaviour) (m : Message) :
  let b := bus_after start cap calls in
  let rs := _determine_recipients b m in
  let ended_with e := filter (λ r, callback_ends runs m r = e) rs in
  let b' := _route_message_as now runs b m in
  messages_delivered (metrics b')
    = messages_delivered (metrics b) + Z.of_nat (length (ended_with Completes)) ∧
  messages_failed (metrics b')
    = messages_failed (metrics b) + Z.of_nat (length (ended_with RaisesException))
      + Z.of_nat (length (ended_with IsCancelled)) ∧
  (∀ a, dict_get (failed_deliveries b') a =
        if bool_decide (a ∈ ended_with RaisesException)
        then Some (default [] (dict_get (failed_deliveries b) a) ++ [m])
        else dict_get (failed_deliveries b) a) ∧
  subscribers b' = subscribers b ∧
  0 ≤ messages_sent (metrics b') - messages_sent (metrics b)
    ≤ Z.of_nat (length (rs ≫= callback_sends runs m)) ∧
  size (message_queue b')
    = size (message_queue b) + (messages_sent (metrics b') - messages_sent (metrics b)) ∧
  ((∀ r, r ∈ rs → callback_sends runs m r = []) →
     message_queue b' = message_queue b ∧
     messages_sent (metrics b') = messages_sent (metrics b)) ∧
  _route_message_as now (plain_behaviour b) b m = _route_message b m.
Proof.
  intros b rs ended_with b'.
  destruct (bus_after_wf start cap calls) as (_ & Hs & _). fold b in Hs.
  split_and!; try apply (route_message_as_effect now runs b m Hs).
  apply route_message_as_plain.
Qed.

(** X12. One turn of the routing loop, whatever the callbacks send through
    the bus while they are awaited.  On an empty queue it changes nothing.
    Otherwise [get] takes exactly one entry out of the queue, one that no
    remaining entry beats in priority, and its message is routed on the
    bus with the remaining queue: a delivery is attempted to each
    recipient, so [messages_delivered] and [messages_failed] grow together
    by the number of recipients; the subscribers stay as they are; the
    queue ends with the remaining entries and what the bus accepted of the
    messages the callbacks sent, none when they send nothing. *)
Theorem process_one_takes_best (start cap : Z) (calls : list (Z * bus_call))
    (now : Z) (runs : behaviour) :
  let b := bus_after start cap calls in
  let b' := process_one_as now runs b in
  (_queue (message_queue b) = [] → b' = b) ∧
  (_queue (message_queue b) ≠ [] →
   ∃ e q,
     get (message_queue b) = (Some (entry_message e), q) ∧
     _queue (message_queue b) ≡ₚ e :: _queue q ∧
     Forall (λ e', priority (entry_message e') ≤ priority (entry_message e)) (_queue q) ∧
     size q = size (message_queue b) - 1 ∧
     b' = _route_message_as now runs (with_queue b q) (entry_message e) ∧
     messages_delivered (metrics b') + messages_failed (metrics b') =
       messages_delivered (metrics b) + messages_failed (metrics b)
       + Z.of_nat (length (_determine_recipients b (entry_message e))) ∧
     subscribers b' = subscribers b ∧
     0 ≤ messages_sent (metrics b') - messages_sent (metrics b) ∧
     size (message_queue b')
       = size q + (messages_sent (metrics b') - messages_sent (metrics b)) ∧
     ((∀ r, r ∈ _determine_recipients b (entry_message e) →
            callback_sends runs (entry_message e) r = []) →
        message_queue b' = q)) ∧
  process_one_as now (plain_behaviour b) b = process_one b.
Proof.
  intros b b'. destruct (bus_after_wf start cap calls) as (Hq & Hs & _).
  fold b in Hq, Hs. unfold b', process_one_as, process_one. split_and!.
  - intros Hnil. apply get_None in Hnil. by destruct (get (message_queue b)) as [[m|] q'].
  - intros Hne. destruct (get (message_queue b)) as [r q'] eqn:Hget.
    destruct (get_Some _ _ _ Hq Hne Hget) as (e & -> & Hperm & Hmin).
    pose proof (get_inv _ Hq) as Hq'. rewrite Hget in Hq'. cbn [snd] in Hq'.
    set (b1 := with_queue b q').
    destruct (route_message_as_effect now runs b1 (entry_message e) Hs)
      as (Hd & Hf & _ & Hsub & Hn & Hsz & Hquiet). cbv zeta in *.
    change (_determine_recipients b1) with (_determine_recipients b) in *.
    change (subscribers b1) with (subscribers b) in *.
    change (metrics b1) with (metrics b) in *.
    change (message_queue b1) with q' in *.
    exists e, q'. split_and!; try done; try lia.
    + apply Forall_forall. intros e' He'.
      apply (entry_before_priority (message_queue b)); [done | | |].
      * rewrite Hperm. by left.
      * rewrite Hperm. by right.
      * by apply (proj1 (Forall_forall _ _) Hmin).
    + unfold size. rewrite (inv_size _ Hq), (inv_size _ Hq'), Hperm. simpl. lia.
    + rewrite Hd, Hf.
      destruct (results_count (callback_ends runs (entry_message e))
                  (_determine_recipients b (entry_message e))) as [_ Hc]. lia.
    + intros Hno. by destruct (Hquiet Hno).
  - destruct (get (message_queue b)) as [[m|] q']; [|done].
    apply (route_message_as_plain now (with_queue b q') m).
Qed.

Lemma process_one_takes_best_witness :
  let b := bus_after 0 5 [(0, CallSubscribe "w" "bob" (λ _, true));
                          (1, CallSend (sample_message "a" 2 None))] in
  let runs : behaviour :=
    λ _ _, {| sends := [sample_message "answer" 1 None]; ends := Completes |} in
  let b' := process_one_as 2 runs b in
  ∃ e q,
    get (message_queue b) = (Some (entry_message e), q) ∧
    _queue (message_queue b) ≡ₚ e :: _queue q ∧
    Forall (λ e', priority (entry_message e') ≤ priority (entry_message e)) (_queue q) ∧
    size q = size (message_queue b) - 1 ∧
    b' = _route_message_as 2 runs (with_queue b q) (entry_message e) ∧
    messages_delivered (metrics b') + messages_failed (metrics b') =
      messages_delivered (metrics b) + messages_failed (metrics b)
      + Z.of_nat (length (_determine_recipients b (entry_message e))) ∧
    subscribers b' = subscribers b ∧
    0 ≤ messages_sent (metrics b') - messages_sent (metrics b) ∧
    size (message_queue b')
      = size q + (messages_sent (metrics b') - messages_sent (metrics b)) ∧
    ((∀ r, r ∈ _determine_recipients b (entry_message e) →
           callback_sends runs (entry_message e) r = []) →
       message_queue b' = q).
Proof.
  intros b runs.
  apply (process_one_takes_best 0 5 [(0, CallSubscribe "w" "bob" (λ _, true));
                                     (1, CallSend (sample_message "a" 2 None))] 2 runs).
  simpl. discriminate.
Defined.


Lemma clear_expired_again now q :
  (clear_expired now (clear_expired now q).2).1 = 0.
Proof.
  rewrite clear_expired_count, filter_none; [done|].
  apply Forall_forall. intros e He. rewrite clear_expired_queue in He.
  apply list_elem_of_filter in He as [He _]. simpl in *. congruence.
Qed.

Lemma clear_expired_removed now q :
  queue_inv q → (clear_expired now q).1 = size q - size (clear_expired now q).2.
Proof.
  intros Hinv. pose proof (clear_expired_inv now q Hinv) as Hinv'.
  unfold size. rewrite (inv_size _ Hinv), (inv_size _ Hinv').
  rewrite clear_expired_count, clear_expired_queue.
  pose proof (filter_length_complement (λ e, is_expired now (entry_message e)) (_queue q)).
  lia.
Qed.

Lemma dict_get_prod_map (fd : list (string * list Message))
    (f : list Message → list Message) a :
  dict_get (prod_map id f <$> fd) a = f <$> dict_get fd a.
Proof.
  induction fd as [|[k v] fd IH]; [done|]. rewrite fmap_cons. simpl.
  by case_decide.
Qed.

Lemma cleanup_once_fields now b :
  let b' := cleanup_once now b in
  message_queue b' = (clear_expired now (message_queue b)).2 ∧
  messages_expired (metrics b') =
    messages_expired (metrics b) + (clear_expired now (message_queue b)).1 ∧
  failed_deliveries b' =
    prod_map id (filter (λ msg, now - retention_window < timestamp msg))
      <$> failed_deliveries b ∧
  subscribers b' = subscribers b ∧
  messages_sent (metrics b') = messages_sent (metrics b) ∧
  messages_delivered (metrics b') = messages_delivered (metrics b) ∧
  messages_failed (metrics b') = messages_failed (metrics b).
Proof.
  unfold cleanup_once.
  pose proof (clear_expired_count now (message_queue b)) as Hc.
  destruct (clear_expired now (message_queue b)) as [n q]. cbn [fst snd] in *.
  case_bool_decide; simpl; split_and!; try done. lia.
Qed.

(** X13. One turn of the cleanup loop.  The messages whose TTL has run out
    leave the queue and [messages_expired] grows by their number, which is
    the drop of the queue's size.  Every backlog keeps the messages stamped
    less than an hour ago and loses the others, whatever their TTL; no
    backlog is deleted, an emptied one stays as an empty list.  A second
    turn at the same instant finds nothing more to do. *)
Theorem cleanup_once_effect (start cap : Z) (calls : list (Z * bus_call)) (now : Z) :
  let b := bus_after start cap calls in
  let b' := cleanup_once now b in
  let recent := λ msg : Message, now - 3600 * 1000000 < timestamp msg in
  _queue (message_queue b') ≡ₚ
    filter (λ e, is_expired now (entry_message e) = false) (_queue (message_queue b)) ∧
  messages_expired (metrics b') - messages_expired (metrics b)
    = size (message_queue b) - size (message_queue b') ∧
  dict_keys (failed_deliveries b') = dict_keys (failed_deliveries b) ∧
  (∀ a, dict_get (failed_deliveries b') a = filter recent <$> dict_get (failed_deliveries b) a) ∧
  subscribers b' = subscribers b ∧
  metrics (cleanup_once now b') = metrics b' ∧
  failed_deliveries (cleanup_once now b') = failed_deliveries b' ∧
  size (message_queue (cleanup_once now b')) = size (message_queue b').
Proof.
  intros b b' recent. destruct (bus_after_wf start cap calls) as (Hq & _). fold b in Hq.
  destruct (cleanup_once_fields now b) as (Hqueue & Hexp & Hfd & Hsub & _).
  fold b' in Hqueue, Hexp, Hfd, Hsub.
  assert (queue_inv (message_queue b')) as Hq'.
  { rewrite Hqueue. by apply clear_expired_inv. }
  split_and!.
  - rewrite Hqueue. apply clear_expired_queue.
  - rewrite Hexp, Hqueue, clear_expired_removed by done. lia.
  - rewrite Hfd. apply prod_map_keys.
  - intros a. rewrite Hfd. apply dict_get_prod_map.
  - done.
  - unfold cleanup_once at 1.
    pose proof (clear_expired_again now (message_queue b)) as H0.
    rewrite <-Hqueue in H0.
    destruct (clear_expired now (message_queue b')) as [n q]. cbn [fst] in H0. subst n.
    by rewrite bool_decide_false by lia.
  - destruct (cleanup_once_fields now b') as (_ & _ & -> & _). rewrite Hfd.
    rewrite <-list_fmap_compose. apply list_fmap_ext. intros i [a ms] _. simpl.
    unfold prod_map. simpl. f_equal.
    apply filter_all, Forall_forall. by intros x [? _]%list_elem_of_filter.
  - destruct (cleanup_once_fields now b') as (-> & _).
    pose proof (clear_expired_removed now _ Hq') as Hrem. rewrite Hqueue in Hrem at 1.
    rewrite clear_expired_again in Hrem. lia.
Qed.

Section DictMembers.
Context {V : Type}.
Implicit Types d : list (string * V).

Lemma dict_get_elem d k v : dict_get d k = Some v → (k, v) ∈ d.
Proof.
  induction d as [|[k' v'] d IH]; simpl; [done|].
  case_decide; [intros [= ->]; subst; by left | intros; right; auto].
Qed.

Lemma dict_set_elem d k v p : p ∈ dict_set d k v → p = (k, v) ∨ p ∈ d.
Proof.
  induction d as [|[k' v'] d IH]; simpl.
  { intros ->%list_elem_of_singleton. by left. }
  case_decide.
  - intros [->|?]%elem_of_cons; [by left | right; by right].
  - intros [->|?]%elem_of_cons; [right; by left|].
    destruct IH as [?|?]; [done | by left | right; by right].
Qed.

Lemma dict_del_elem d k p : p ∈ dict_del d k → p ∈ d.
Proof.
  induction d as [|[k' v'] d IH]; simpl; [done|].
  case_decide; [by right|]. intros [->|?]%elem_of_cons; [by left | right; auto].
Qed.

End DictMembers.

Lemma history_append_elem h m x : x ∈ history_append h m → x = m ∨ x ∈ h.
Proof.
  unfold history_append. case_bool_decide.
  - intros [Hx| ->%list_elem_of_singleton]%elem_of_app; [right | by left].
    rewrite <-(take_drop 1 h). apply elem_of_app. by right.
  - intros [Hx| ->%list_elem_of_singleton]%elem_of_app; [by right | by left].
Qed.

(** X14. The bus holds only what was handed to it.  After any run, every
    message waiting in the queue, kept in a backlog for retry or recorded
    in the history is the argument of a [send_message] call of the run or
    the welcome message of one of its [subscribe] calls: routing, retries
    and cleanups move or drop messages but never make one up. *)
Theorem messages_originate (start cap : Z) (calls : list (Z * bus_call)) :
  let b := bus_after start cap calls in
  let handed := calls ≫= submitted in
  (∀ e, e ∈ _queue (message_queue b) → entry_message e ∈ handed) ∧
  (∀ a ms m, dict_get (failed_deliveries b) a = Some ms → m ∈ ms → m ∈ handed) ∧
  (∀ m, m ∈ message_history b → m ∈ handed).
Proof.
  intros b handed.
  cut ((∀ e, e ∈ _queue (message_queue b) → entry_message e ∈ handed) ∧
       (∀ p m, p ∈ failed_deliveries b → m ∈ p.2 → m ∈ handed) ∧
       (∀ m, m ∈ message_history b → m ∈ handed)).
  { intros (Hq & Hf & Hh). split_and!; [done | | done].
    intros a ms m Ha. apply (Hf (a, ms)). by apply dict_get_elem. }
  unfold b. rewrite bus_after_unfold.
  apply (bus_run_preserves
    (λ b, (∀ e, e ∈ _queue (message_queue b) → entry_message e ∈ handed) ∧
          (∀ p m, p ∈ failed_deliveries b → m ∈ p.2 → m ∈ handed) ∧
          (∀ m, m ∈ message_history b → m ∈ handed))
    (λ m, m ∈ handed)); try by untouched.
  - intros now b0 m (Hq & Hf & Hh) Hm.
    destruct (send_message_spec now b0 m) as (Hv & Hq' & _ & Hf' & _).
    rewrite send_message_history, Hq', Hf', Hv.
    destruct (_ && _); [|done]. split_and!; [|done|].
    + intros e [->|?]%put_queue_subset; [done | auto].
    + intros x [->|?]%history_append_elem; [done | auto].
  - intros b0 a (Hq & Hf & Hh). unfold unsubscribe.
    destruct (dict_in a (subscribers b0)); [|done].
    cbn [failed_deliveries with_metrics with_subscribers].
    destruct (dict_in a (failed_deliveries b0)); simpl; [|done].
    split_and!; [done | | done]. intros p m ?%dict_del_elem. eauto.
  - intros b0 (Hq & Hf & Hh). simpl. split_and!; [|done..].
    intros e ?%get_queue_subset. auto.
  - intros b0 r cb m (Hq & Hf & Hh) Hm Hr. simpl. split_and!; [done | | done].
    intros p x [->|?]%dict_set_elem; [|eauto]. simpl.
    intros [Hx| ->%list_elem_of_singleton]%elem_of_app; [|done].
    destruct (dict_get (failed_deliveries b0) r) as [ms|] eqn:E; simpl in Hx.
    + apply (Hf (r, ms)); [by apply dict_get_elem | done].
    + by apply elem_of_nil in Hx.
  - intros now b0 (Hq & Hf & Hh).
    destruct (cleanup_once_fields now b0) as (-> & _ & -> & _).
    unfold cleanup_once. split_and!.
    + intros e ?%clear_expired_queue_subset. auto.
    + intros p m ([a ms] & -> & Hp)%list_elem_of_fmap. simpl.
      intros [_ ?]%list_elem_of_filter. by apply (Hf (a, ms)).
    + destruct (clear_expired now (message_queue b0)) as [n q].
      by case_bool_decide.
  - intros b0 a ms (Hq & Hf & Hh) Ha. simpl. split_and!; [done | | done].
    intros p x [->|?]%dict_set_elem; [by intros ?%elem_of_nil | eauto].
  - intros b0 a ms (Hq & Hf & Hh) Ha. apply Forall_forall. intros m Hm.
    apply (Hf (a, ms)); [by apply dict_get_elem | done].
  - simpl. split_and!; [by intros e ?%elem_of_nil | by intros p m ?%elem_of_nil |
                        by intros m ?%elem_of_nil].
  - intros c Hc. apply Forall_forall. intros m Hm. apply list_elem_of_bind. eauto.
Qed.

Lemma unsubscribe_metrics_queue b a :
  message_queue (unsubscribe b a) = message_queue b ∧
  messages_sent (metrics (unsubscribe b a)) = messages_sent (metrics b) ∧
  messages_delivered (metrics (unsubscribe b a)) = messages_delivered (metrics b) ∧
  messages_failed (metrics (unsubscribe b a)) = messages_failed (metrics b) ∧
  messages_expired (metrics (unsubscribe b a)) = messages_expired (metrics b).
Proof.
  unfold unsubscribe. destruct (dict_in a (subscribers b)); [|done].
  cbn [failed_deliveries with_metrics with_subscribers].
  by destruct (dict_in a (failed_deliveries b)).
Qed.

Lemma run_counters_grow b0 calls (s d f e : Z) :
  s ≤ messages_sent (metrics b0) ∧ d ≤ messages_delivered (metrics b0) ∧
  f ≤ messages_failed (metrics b0) ∧ e ≤ messages_expired (metrics b0) →
  let b := foldl bus_do b0 calls in
  s ≤ messages_sent (metrics b) ∧ d ≤ messages_delivered (metrics b) ∧
  f ≤ messages_failed (metrics b) ∧ e ≤ messages_expired (metrics b).
Proof.
  intros H0 b. unfold b.
  apply (bus_run_preserves
    (λ b, s ≤ messages_sent (metrics b) ∧ d ≤ messages_delivered (metrics b) ∧
          f ≤ messages_failed (metrics b) ∧ e ≤ messages_expired (metrics b))
    (λ _, True)); try apply submitted_unrestricted; try by untouched.
  - intros now b1 m (Hs & Hd & Hf & He) _.
    destruct (send_message_spec now b1 m) as (_ & _ & _ & _ & _ & -> & -> & -> & ->).
    split_and!; try done; repeat case_match; lia.
  - intros b1 a (Hs & Hd & Hf & He).
    destruct (unsubscribe_metrics_queue b1 a) as (_ & -> & -> & -> & ->). done.
  - intros b1 results (Hs & Hd & Hf & He). simpl.
    pose proof (length_filter (λ r, r = true) results). split_and!; try done; lia.
  - intros now b1 (Hs & Hd & Hf & He).
    destruct (cleanup_once_fields now b1) as (_ & -> & _ & _ & -> & -> & ->).
    rewrite clear_expired_count. split_and!; try done; lia.
Qed.

(** X15. The four counters of the metrics only grow: however a run is
    continued, [messages_sent], [messages_delivered], [messages_failed]
    and [messages_expired] are at least what they were.  And the queue
    never holds more messages than [messages_sent] counts. *)
Theorem counters_never_decrease (start cap : Z) (calls more : list (Z * bus_call)) :
  let b := bus_after start cap calls in
  let b' := bus_after start cap (calls ++ more) in
  messages_sent (metrics b) ≤ messages_sent (metrics b') ∧
  messages_delivered (metrics b) ≤ messages_delivered (metrics b') ∧
  messages_failed (metrics b) ≤ messages_failed (metrics b') ∧
  messages_expired (metrics b) ≤ messages_expired (metrics b') ∧
  0 ≤ size (message_queue b) ≤ messages_sent (metrics b).
Proof.
  intros b b'.
  assert (messages_sent (metrics b) ≤ messages_sent (metrics b') ∧
          messages_delivered (metrics b) ≤ messages_delivered (metrics b') ∧
          messages_failed (metrics b) ≤ messages_failed (metrics b') ∧
          messages_expired (metrics b) ≤ messages_expired (metrics b')) as Hmono.
  { unfold b'. rewrite bus_after_unfold, foldl_app. fold (bus_after start cap calls).
    fold b. by apply run_counters_grow. }
  destruct Hmono as (? & ? & ? & ?). split_and!; try done.
  - destruct (bus_after_wf start cap calls) as (Hq & _). fold b in Hq.
    unfold size. rewrite (inv_size _ Hq). lia.
  - unfold b. rewrite bus_after_unfold.
    apply (bus_run_preserves
      (λ b, queue_inv (message_queue b) ∧
            size (message_queue b) ≤ messages_sent (metrics b))
      (λ _, True)); try apply submitted_unrestricted; try by untouched.
    + intros now b1 m [Hq Hle] _.
      destruct (send_message_spec now b1 m) as (_ & -> & _ & _ & _ & -> & _).
      destruct (_ && _) eqn:E.
      * split; [by apply put_inv|]. unfold size, put in *. case_bool_decide; simpl; lia.
      * split; [done | lia].
    + intros b1 a [Hq Hle].
      by destruct (unsubscribe_metrics_queue b1 a) as (-> & -> & _).
    + intros b1 [Hq Hle]. simpl. split; [by apply get_inv|].
      pose proof (get_size (message_queue b1)) as [_ ?]. unfold size in *. lia.
    + intros now b1 [Hq Hle].
      destruct (cleanup_once_fields now b1) as (-> & _ & _ & _ & -> & _).
      split; [by apply clear_expired_inv|].
      pose proof (clear_expired_size now _ Hq) as [_ ?]. unfold size in *. lia.
    + split; [apply queue_inv_init | done].
Qed.

(** X16. After [unsubscribe] an address gets nothing any more: it is a
    recipient of no message, broadcasts included, and routing a message
    leaves it without a backlog; what was still queued for it is
    dropped. *)
Theorem unsubscribed_gets_nothing (start cap : Z) (calls : list (Z * bus_call))
    (a : string) (m : Message) :
  let b := unsubscribe (bus_after start cap calls) a in
  (a ∉ _determine_recipients b m) ∧
  callback_completes b m a = false ∧
  dict_get (failed_deliveries (_route_message b m)) a = None ∧
  (recipient m = a → a ≠ "broadcast" → _route_message b m = b).
Proof.
  intros b. destruct (bus_after_wf start cap calls) as (_ & Hs & Hf & Hfs).
  set (b0 := bus_after start cap calls) in *.
  assert (dict_get (subscribers b) a = None ∧ dict_get (failed_deliveries b) a = None ∧
          NoDup (dict_keys (subscribers b))) as (Hnone & Hfnone & Hs').
  { unfold b, unsubscribe. destruct (dict_in a (subscribers b0)) eqn:Hin.
    - cbn [failed_deliveries with_metrics with_subscribers].
      destruct (dict_in a (failed_deliveries b0)) eqn:Hinf; simpl.
      + split_and!; [by apply dict_get_del_eq.. | by apply dict_del_NoDup].
      + split_and!; [by apply dict_get_del_eq | by apply dict_in_false |
                     by apply dict_del_NoDup].
    - split_and!; [by apply dict_in_false | | done].
      apply dict_get_None. intros Ha%Hfs%dict_in_keys. congruence. }
  assert (a ∉ _determine_recipients b m) as Hnot.
  { intros Ha. pose proof (recipients_subscribed b m) as Hsub.
    apply (proj1 (Forall_forall _ _) Hsub) in Ha. rewrite Hnone in Ha. by destruct Ha. }
  split_and!; [done | | |].
  - unfold callback_completes. by rewrite Hnone.
  - destruct (route_message_effect b m Hs') as (_ & _ & -> & _).
    rewrite bool_decide_false; [done|]. by intros [_ ?]%list_elem_of_filter.
  - intros Hr Hnb. unfold _route_message, _determine_recipients in *.
    rewrite Hr in *. rewrite decide_False in * by done.
    destruct (String.prefix "group:" a); [done|].
    assert (dict_in a (subscribers b) = false) as -> by by apply dict_in_false.
    done.
Qed.

(** X17. The WebSocket clients form a set.  Adding a client twice is adding
    it once; removing a client that was added to a bus that did not hold
    it gives back the clients the bus held; removing an absent client
    changes no client; a removed client is not held. *)
Theorem websocket_clients_form_a_set (b : CommunicationBus) (c : websocket_client) :
  let held := λ b', client_id c ∈ client_id <$> websocket_clients b' in
  add_websocket_client (add_websocket_client b c) c = add_websocket_client b c ∧
  held (add_websocket_client b c) ∧
  ¬ held (remove_websocket_client b c) ∧
  (¬ held b →
     websocket_clients (remove_websocket_client (add_websocket_client b c) c)
       = websocket_clients b ∧
     websocket_clients (remove_websocket_client b c) = websocket_clients b).
Proof.
  intros held. unfold held.
  assert (client_id c ∈ client_id <$> websocket_clients (add_websocket_client b c)) as Hin.
  { unfold add_websocket_client. simpl. case_bool_decide; [done|].
    rewrite fmap_app. apply elem_of_app. right. by left. }
  assert (client_id c ∉ client_id <$> websocket_clients b →
          filter (λ c0, client_id c0 ≠ client_id c) (websocket_clients b)
            = websocket_clients b) as Hkeep.
  { intros Hout. apply filter_all, Forall_forall. intros x Hx Heq.
    apply Hout. rewrite <-Heq. by apply list_elem_of_fmap_2. }
  split_and!; [| done | |].
  - unfold add_websocket_client at 1. rewrite bool_decide_true by done.
    unfold add_websocket_client. simpl. by case_bool_decide.
  - simpl. intros (x & Hid & [Hx _]%list_elem_of_filter)%list_elem_of_fmap. done.
  - intros Hout. split; [|by apply Hkeep].
    unfold add_websocket_client. simpl. rewrite bool_decide_false by done.
    rewrite filter_app, Hkeep by done.
    rewrite filter_cons_False, filter_nil, app_nil_r; [done|]. by intros ?.
Qed.

Lemma websocket_clients_form_a_set_witness :
  let b := CommunicationBus_init 0 5 in
  let c := {| client_id := 1; send_text := λ _, true |} in
  websocket_clients (remove_websocket_client (add_websocket_client b c) c) = [] ∧
  websocket_clients (remove_websocket_client b c) = [].
Proof.
  intros b c. apply (websocket_clients_form_a_set b c).
  simpl. by intros ?%elem_of_nil.
Defined.

(** X18. Who is notified of a message, and who is dropped, for a message
    of any form.  When [send_message] accepts a message whose payload is
    JSON data, the clients whose [send_text] raises on it are removed and
    the others stay, in their order; when the payload is not JSON data,
    [json.dumps] raises for each client and every client is removed; in
    both cases the [websocket_connections] gauge is set to the number of
    clients left.  When [send_message] refuses the message, or raises, no
    client is removed. *)
Theorem failing_client_is_dropped (now : Z) (b : CommunicationBus) (m : Message)
    (form : message_form) :
  let r := send_message_as now b m form in
  websocket_clients r.2 =
    match r.1, payload form with
    | Returns true, JsonData => filter (λ c, send_text c m = true) (websocket_clients b)
    | Returns true, _ => []
    | _, _ => websocket_clients b
    end ∧
  (r.1 = Returns true → websocket_clients b ≠ [] →
   websocket_connections (metrics r.2) = Z.of_nat (length (websocket_clients r.2))).
Proof.
  unfold send_message_as. destruct (_apply_filters b m); [|by destruct (payload form)].
  cbn [negb]. destruct (is_expired_as now m (created form)) as [[|]|e];
    [by destruct (payload form) | | by destruct (payload form)].
  destruct (put (message_queue b) m) as [[|] q]; [|by destruct (payload form)].
  unfold _notify_websocket_clients_as, _notify_websocket_clients. simpl.
  destruct (websocket_clients b) as [|w l] eqn:E, (payload form); simpl; by rewrite ?E.
Qed.

(** * Sending a message (claim C2) *)








(** * Unsubscribing (claim C8) *)

(** C8 (amended). On a bus after any run, [unsubscribe] of a non-empty address
    leaves no callback and no backlog for it, so that a retry for that
    address returns 0 (and changes nothing); the entries of the other
    addresses stay as they were; and when the address is not subscribed
    the bus is unchanged. *)
Theorem unsubscribe_purges_backlog (start cap : Z) (calls : list (Z * bus_call))
    (address : string) :
  address ≠ "" →
  let b := bus_after start cap calls in
  let b' := unsubscribe b address in
  dict_get (subscribers b') address = None ∧
  dict_get (failed_deliveries b') address = None ∧
  (∀ now, retry_failed_deliveries now b' (Some address) = (0, b')) ∧
  (∀ a, a ≠ address →
        dict_get (subscribers b') a = dict_get (subscribers b) a ∧
        dict_get (failed_deliveries b') a = dict_get (failed_deliveries b) a) ∧
  (dict_in address (subscribers b) = false → b' = b).
Proof.
  intros Hne b b'.
  destruct (bus_after_wf start cap calls) as (_ & Hs & Hf & Hfs). fold b in Hs, Hf, Hfs.
  assert (dict_get (subscribers b') address = None ∧
          dict_get (failed_deliveries b') address = None ∧
          (∀ a, a ≠ address →
             dict_get (subscribers b') a = dict_get (subscribers b) a ∧
             dict_get (failed_deliveries b') a = dict_get (failed_deliveries b) a) ∧
          (dict_in address (subscribers b) = false → b' = b)) as (H1 & H2 & H3 & H4).
  { unfold b', unsubscribe. destruct (dict_in address (subscribers b)) eqn:Hin.
    - cbn [failed_deliveries with_metrics with_subscribers].
      destruct (dict_in address (failed_deliveries b)) eqn:Hinf; simpl.
      + split_and!; [by apply dict_get_del_eq.. | | done].
        intros a Ha. by rewrite !dict_get_del_ne.
      + split_and!; [by apply dict_get_del_eq | by apply dict_in_false | | done].
        intros a Ha. by rewrite dict_get_del_ne.
    - split_and!; [by apply dict_in_false | | done | done].
      apply dict_get_None. intros Hk. apply Hfs, dict_in_keys in Hk. congruence. }
  split_and!; try done.
  intros now. unfold retry_failed_deliveries, agents_to_retry.
  rewrite decide_False by done. cbn [retry_agents]. by rewrite H2.
Qed.

Lemma unsubscribe_purges_backlog_witness :
  let b := bus_after 0 4 [(1, CallStart);
                          (2, CallSubscribe "w1" "X" (λ _, false));
                          (3, CallProcess)] in
  let b' := unsubscribe b "X" in
  dict_get (subscribers b') "X" = None ∧
  dict_get (failed_deliveries b') "X" = None ∧
  (∀ now, retry_failed_deliveries now b' (Some "X") = (0, b')) ∧
  (∀ a, a ≠ "X" →
        dict_get (subscribers b') a = dict_get (subscribers b) a ∧
        dict_get (failed_deliveries b') a = dict_get (failed_deliveries b) a) ∧
  (dict_in "X" (subscribers b) = false → b' = b).
Proof.
  apply (unsubscribe_purges_backlog 0 4). discriminate.
Defined.

(** C8 as the specification words it fails on the empty address, which
    [subscribe] accepts: [retry_failed_deliveries] reads an empty address
    as no address and retries every backlog.  Here the empty address and X
    are subscribed and the welcome message of X failed to be delivered;
    after [unsubscribe] of the empty address, a retry for it re-submits the
    backlog of X and returns 1. *)
Lemma unsubscribe_empty_address_counterexample :
  let b := bus_after 0 4 [(1, CallStart);
                          (2, CallSubscribe "w1" "" (λ _, true));
                          (3, CallSubscribe "w2" "X" (λ _, false));
                          (4, CallProcess); (5, CallProcess)] in
  let b' := unsubscribe b "" in
  dict_in "" (subscribers b) = true ∧
  dict_get (subscribers b') "" = None ∧
  dict_get (failed_deliveries b') "" = None ∧
  (retry_failed_deliveries 6 b' (Some "")).1 = 1.
Proof. done. Qed.

(** * History queries *)

Lemma insert_recent_first_perm x l : insert_recent_first x l ≡ₚ x :: l.
Proof.
  induction l as [|y l IH]; [done|]. simpl. case_bool_decide; [|done].
  by rewrite IH, Permutation_swap.
Qed.

Lemma sort_recent_first_perm l : sort_recent_first l ≡ₚ l.
Proof.
  induction l as [|x l IH]; [done|]. simpl.
  by rewrite insert_recent_first_perm, IH.
Qed.

Lemma insert_recent_first_sorted x l :
  StronglySorted (λ a b, timestamp b ≤ timestamp a) l →
  StronglySorted (λ a b, timestamp b ≤ timestamp a) (insert_recent_first x l).
Proof.
  induction 1 as [|y l Hl IH Hy]; simpl; [repeat constructor|].
  case_bool_decide.
  - constructor; [done|]. rewrite insert_recent_first_perm. constructor; [lia | done].
  - constructor; [by constructor|]. constructor; [lia|].
    eapply Forall_impl; [exact Hy|]. intros z Hz. simpl in *. lia.
Qed.

Lemma sort_recent_first_sorted l :
  StronglySorted (λ a b, timestamp b ≤ timestamp a) (sort_recent_first l).
Proof.
  induction l as [|x l IH]; [constructor|]. by apply insert_recent_first_sorted.
Qed.

Lemma slice_to_prefix {A} (l : list A) limit : ∃ rest, l = slice_to l limit ++ rest.
Proof.
  unfold slice_to. case_bool_decide; eexists; by rewrite take_drop.
Qed.

Lemma slice_to_length {A} (l : list A) limit :
  Z.of_nat (length (slice_to l limit)) =
    if bool_decide (0 ≤ limit) then Z.min limit (Z.of_nat (length l))
    else Z.max 0 (Z.of_nat (length l) + limit).
Proof.
  unfold slice_to. case_bool_decide; rewrite length_take; lia.
Qed.

(** The messages of the history that pass the three optional filters. *)
Lemma get_message_history_matches b agent_id message_type' limit since :
  ∃ matches,
    get_message_history b agent_id message_type' limit since
      = slice_to (sort_recent_first matches) limit ∧
    sublist matches (message_history b) ∧
    ∀ m, m ∈ matches ↔
      m ∈ message_history b ∧
      (∀ a, truthy agent_id = Some a → sender m = a ∨ recipient m = a) ∧
      (∀ t, truthy message_type' = Some t → message_type m = t) ∧
      (∀ s, since = Some s → s < timestamp m).
Proof.
  unfold get_message_history. eexists. split; [done|]. split.
  { destruct (truthy agent_id) as [a|], (truthy message_type') as [t|], since as [s|];
      repeat (etrans; [apply sublist_filter|]); done. }
  intros m.
  destruct (truthy agent_id) as [a|], (truthy message_type') as [t|], since as [s|];
    rewrite ?list_elem_of_filter; split.
  all: try (intros; destruct_and?; split_and!; try done; by intros ? [= <-]).
  all: intros (? & Ha & Ht & Hs); split_and?; eauto.
Qed.

(** X19. What [get_message_history] returns is sorted from the most recent
    timestamp down, holds only messages of the history, none more often
    than the history does, each passing every filter given (sender or
    recipient is [agent_id], the type is [message_type], the timestamp is
    after [since]; an empty string is no filter), and has at most [limit]
    messages when [limit] is not negative. *)
Theorem get_message_history_sound (b : CommunicationBus) (agent_id message_type' : option string)
    (limit : Z) (since : option Z) :
  let result := get_message_history b agent_id message_type' limit since in
  StronglySorted (λ x y, timestamp y ≤ timestamp x) result ∧
  result ⊆+ message_history b ∧
  (∀ m, m ∈ result →
     (∀ a, truthy agent_id = Some a → sender m = a ∨ recipient m = a) ∧
     (∀ t, truthy message_type' = Some t → message_type m = t) ∧
     (∀ s, since = Some s → s < timestamp m)) ∧
  (0 ≤ limit → Z.of_nat (length result) ≤ limit).
Proof.
  intros result.
  destruct (get_message_history_matches b agent_id message_type' limit since)
    as (matches & Heq & Hsub & Hm).
  fold result in Heq.
  destruct (slice_to_prefix (sort_recent_first matches) limit) as [rest Hrest].
  rewrite <-Heq in Hrest.
  pose proof (sort_recent_first_sorted matches) as Hsorted. rewrite Hrest in Hsorted.
  split_and!.
  - by apply StronglySorted_app_1_l in Hsorted.
  - trans (result ++ rest); [by apply submseteq_inserts_r|].
    rewrite <-Hrest, sort_recent_first_perm. by apply sublist_submseteq.
  - intros m Hin. apply Hm. rewrite <-sort_recent_first_perm, Hrest.
    apply elem_of_app. by left.
  - intros Hlimit. rewrite Heq, slice_to_length, bool_decide_true by done. lia.
Qed.

(** X20. [get_message_history] leaves out only the oldest: a message of
    the history that passes the filters is in the result, unless it is no
    more recent than every message of the result; and with a [limit] that
    is not negative a message is left out only when the result already
    has [limit] messages. *)
Theorem get_message_history_most_recent (b : CommunicationBus)
    (agent_id message_type' : option string) (limit : Z) (since : option Z) (m : Message) :
  let result := get_message_history b agent_id message_type' limit since in
  m ∈ message_history b →
  (∀ a, truthy agent_id = Some a → sender m = a ∨ recipient m = a) →
  (∀ t, truthy message_type' = Some t → message_type m = t) →
  (∀ s, since = Some s → s < timestamp m) →
  m ∈ result ∨
  ((∀ x, x ∈ result → timestamp m ≤ timestamp x) ∧
   (0 ≤ limit → Z.of_nat (length result) = limit)).
Proof.
  intros result Hin Ha Ht Hs.
  destruct (get_message_history_matches b agent_id message_type' limit since)
    as (matches & Heq & Hsub & Hm).
  fold result in Heq.
  destruct (slice_to_prefix (sort_recent_first matches) limit) as [rest Hrest].
  rewrite <-Heq in Hrest.
  pose proof (sort_recent_first_sorted matches) as Hsorted. rewrite Hrest in Hsorted.
  assert (m ∈ result ++ rest) as [?|Hr]%elem_of_app; [|by left|].
  { rewrite <-Hrest, sort_recent_first_perm. by apply Hm. }
  right. split.
  - intros x Hx. by apply (StronglySorted_app_1_elem_of _ _ _ _ _ Hsorted).
  - intros Hlimit. pose proof (slice_to_length (sort_recent_first matches) limit) as Hlen.
    rewrite <-Heq, bool_decide_true in Hlen by done.
    apply (f_equal length) in Hrest. rewrite length_app in Hrest.
    destruct rest; [by apply elem_of_nil in Hr|]. simpl in Hrest. lia.
Qed.

Lemma get_message_history_most_recent_witness :
  let b := (send_message 2 (send_message 1 (CommunicationBus_init 0 5)
                              (sample_message "a" 1 None)).2
                         (message_to "b" "dave" "carol" 1 None)).2 in
  let m := sample_message "a" 1 None in
  let result := get_message_history b (Some "bob") None 100 None in
  m ∈ result ∨
  ((∀ x, x ∈ result → timestamp m ≤ timestamp x) ∧
   (0 ≤ 100 → Z.of_nat (length result) = 100)).
Proof.
  intros b m.
  apply (get_message_history_most_recent b (Some "bob") None 100 None m).
  - vm_compute. by left.
  - intros a [= <-]. by right.
  - done.
  - done.
Defined.

(** * System broadcasts *)

(** X21. A system broadcast is refused exactly when a filter rejects it or
    the queue is full (it has no TTL, so it is never expired).  Once
    accepted it goes out before every queued message of priority below 3:
    the next turn of the routing loop takes it, which leaves in the queue
    what was there before the broadcast, and attempts a delivery to every
    subscriber but an address named [system], whatever the callbacks send
    through the bus while they are awaited. *)
Theorem system_broadcast_goes_first (start cap : Z) (calls : list (Z * bus_call))
    (now : Z) (fresh_id content message_type' : string)
    (now' : Z) (runs : behaviour) :
  let b := bus_after start cap calls in
  let msg := {| msg_id := fresh_id; sender := "system"; recipient := "broadcast";
                content := content; message_type := message_type';
                timestamp := now; metadata := []; priority := 3; ttl := None |} in
  let sent := broadcast_system_message now fresh_id b content message_type' in
  sent.1 = _apply_filters b msg && negb (is_full (message_queue b)) ∧
  (sent.1 = true →
   (∀ e, e ∈ _queue (message_queue b) → priority (entry_message e) < 3) →
   let taken := get (message_queue sent.2) in
   let b2 := process_one_as now' runs sent.2 in
   taken.1 = Some msg ∧
   _queue taken.2 ≡ₚ _queue (message_queue b) ∧
   b2 = _route_message_as now' runs (with_queue sent.2 taken.2) msg ∧
   messages_delivered (metrics b2) + messages_failed (metrics b2) =
     messages_delivered (metrics b) + messages_failed (metrics b)
     + Z.of_nat (length (filter (λ a, a ≠ "system") (dict_keys (subscribers b))))).
Proof.
  intros b msg sent. unfold sent, broadcast_system_message. fold msg.
  destruct (bus_after_wf start cap calls) as (Hq & Hs & _). fold b in Hq, Hs.
  destruct (send_message_spec now b msg) as (Hv & Hq' & Hs' & _ & _ & _ & _ & Hd & Hf).
  change (is_expired now msg) with false in Hv, Hq'. cbn [negb] in Hv, Hq'.
  rewrite andb_true_r in Hv, Hq'.
  split; [done|]. intros Hok Hlow.
  rewrite Hok in Hv. rewrite <-Hv in Hq'. symmetry in Hv.
  apply andb_true_iff in Hv as [_ Hroom].
  apply negb_true_iff in Hroom. unfold is_full in Hroom.
  apply bool_decide_eq_false in Hroom.
  destruct (put_then_get (message_queue b) msg Hq ltac:(lia)) as [Hfirst _].
  destruct (Hfirst Hlow) as [Hget Hperm]. clear Hfirst.
  set (b1 := (send_message now b msg).2) in *. clearbody b1. rewrite <-Hq' in Hget, Hperm.
  cbv zeta. unfold process_one_as.
  destruct (get (message_queue b1)) as [r q2]. cbn [fst snd] in *. subst r.
  split_and!; [done..|].
  rewrite <-Hs' in Hs.
  destruct (route_message_as_effect now' runs (with_queue b1 q2) msg Hs)
    as (Hd2 & Hf2 & _).
  rewrite Hd2, Hf2. cbn [message_queue with_queue metrics].
  rewrite Hd, Hf.
  destruct (results_count (callback_ends runs msg)
              (_determine_recipients (with_queue b1 q2) msg)) as [_ Hlen].
  assert (_determine_recipients (with_queue b1 q2) msg
          = filter (λ a, a ≠ "system") (dict_keys (subscribers b))) as Hrs.
  { unfold _determine_recipients. simpl. by rewrite Hs'. }
  rewrite Hrs in *. lia.
Qed.

Lemma system_broadcast_goes_first_witness :
  let b := bus_after 0 5 [(0, CallSubscribe "w" "bob" (λ _, true))] in
  let msg := {| msg_id := "id"; sender := "system"; recipient := "broadcast";
                content := "hello"; message_type := "broadcast";
                timestamp := 1; metadata := []; priority := 3; ttl := None |} in
  let runs : behaviour :=
    λ _ _, {| sends := [sample_message "answer" 4 None]; ends := IsCancelled |} in
  let sent := broadcast_system_message 1 "id" b "hello" "broadcast" in
  let taken := get (message_queue sent.2) in
  let b2 := process_one_as 2 runs sent.2 in
  taken.1 = Some msg ∧
  _queue taken.2 ≡ₚ _queue (message_queue b) ∧
  b2 = _route_message_as 2 runs (with_queue sent.2 taken.2) msg ∧
  messages_delivered (metrics b2) + messages_failed (metrics b2) =
    messages_delivered (metrics b) + messages_failed (metrics b)
    + Z.of_nat (length (filter (λ a, a ≠ "system") (dict_keys (subscribers b)))).
Proof.
  intros b msg runs sent.
  apply (system_broadcast_goes_first 0 5 [(0, CallSubscribe "w" "bob" (λ _, true))]
           1 "id" "hello" "broadcast" 2 runs).
  - reflexivity.
  - intros e Hin. vm_compute in Hin. apply list_elem_of_singleton in Hin as ->.
    simpl. lia.
Defined.

(** * Agents: task slots *)

Lemma list_remove_split x l :
  x ∈ l → ∃ l1 l2, l = l1 ++ x :: l2 ∧ (x ∉ l1) ∧ list_remove x l = l1 ++ l2.
Proof.
  induction l as [|y l IH]; [by intros ?%elem_of_nil|]. simpl.
  destruct (decide (y = x)) as [->|Hne].
  - intros _. exists [], l. split_and!; [done | apply not_elem_of_nil | done].
  - intros [?|Hin]%elem_of_cons; [congruence|].
    destruct (IH Hin) as (l1 & l2 & -> & Hout & ->).
    exists (y :: l1), l2. split_and!; [done | | done].
    apply not_elem_of_cons. split; [congruence | done].
Qed.

Lemma list_remove_absent x l : x ∉ l → list_remove x (l ++ [x]) = l.
Proof.
  induction l as [|y l IH]; simpl; [by rewrite decide_True|].
  intros [Hne Hout]%not_elem_of_cons. rewrite decide_False by congruence.
  by rewrite IH.
Qed.

(** X22. However [add_task] and [remove_task] are called on an agent, it
    never holds more tasks than the larger of [max_concurrent_tasks] and
    what it started with, so an agent that starts within its limit stays
    within it.  Its limit, identifier, tools and capabilities never
    change, and as soon as a call has had an effect its status is [BUSY]
    if it holds a task and [IDLE] if it holds none. *)
Theorem task_slots_respected (a0 : Agent) (calls : list (Z * agent_call)) :
  let a := foldl agent_do a0 calls in
  Z.of_nat (length (current_tasks a))
    ≤ Z.max (Z.of_nat (length (current_tasks a0))) (max_concurrent_tasks a0) ∧
  max_concurrent_tasks a = max_concurrent_tasks a0 ∧
  agent_id a = agent_id a0 ∧ tools a = tools a0 ∧ capabilities a = capabilities a0 ∧
  (a = a0 ∨ status a = busy_or_idle a).
Proof.
  intros a. unfold a. clear a.
  induction calls as [|[now c] calls IH] using rev_ind; simpl.
  { split_and!; try done; [lia | by left]. }
  rewrite foldl_app. cbn [foldl]. set (a := foldl agent_do a0 calls) in *.
  destruct IH as (Hlen & Hmax & Hid & Htools & Hcap & Hst).
  destruct c as [t|t]; unfold agent_do; cbn [fst snd].
  - unfold add_task. case_bool_decide as Hfull; cbn [snd].
    { by split_and!. }
    simpl. rewrite length_app. simpl. split_and!; try done; [lia|by right].
  - unfold remove_task. case_bool_decide as Hin; [|by split_and!].
    destruct (list_remove_split _ _ Hin) as (l1 & l2 & Hl & _ & Hrm).
    simpl. rewrite Hrm. rewrite Hl, length_app in Hlen. simpl in Hlen.
    rewrite length_app. split_and!; try done; [lia | by right].
Qed.

(** X23. [add_task] looks at the free slots only, not at the status: the
    task is taken exactly when the agent holds fewer tasks than
    [max_concurrent_tasks], so every available agent takes it, and so does
    an agent that is [OFFLINE], [ERROR] or [STOPPED] and has a free slot,
    which thereby becomes [BUSY].  A task that is taken comes last in
    [current_tasks] and stamps [last_activity]; a refused one changes
    nothing. *)
Theorem add_task_ignores_status (now : Z) (a : Agent) (t : string) :
  let r := add_task now a t in
  r.1 = bool_decide (Z.of_nat (length (current_tasks a)) < max_concurrent_tasks a) ∧
  (is_available a = true → r.1 = true) ∧
  (r.1 = true →
     status r.2 = BUSY ∧ current_tasks r.2 = current_tasks a ++ [t] ∧
     last_activity r.2 = now ∧
     is_available r.2 =
       bool_decide (Z.of_nat (length (current_tasks a)) + 1 < max_concurrent_tasks a)) ∧
  (r.1 = false → r.2 = a).
Proof.
  intros r. unfold r, add_task, is_available.
  case_bool_decide as Hfull; cbn [fst snd].
  - rewrite (bool_decide_false (_ < _)) by lia. rewrite andb_false_r.
    by split_and!.
  - rewrite (bool_decide_true (_ < _)) by lia.
    split_and!; try done. intros _. simpl.
    unfold busy_or_idle. simpl.
    destruct (current_tasks a ++ [t]) as [|x l] eqn:E.
    { by apply app_eq_nil in E as [_ ?]. }
    rewrite <-E, length_app. simpl.
    split_and!; try done.
    apply bool_decide_ext. lia.
Qed.

(** X24. [remove_task] for a task the agent does not hold changes nothing,
    not even [last_activity].  For a task it holds, the first occurrence
    goes and the other tasks keep their order; the status becomes [IDLE]
    when no task is left and [BUSY] otherwise, whatever it was;
    [last_activity] is stamped.  Removing a task just added, that the
    agent did not hold before, gives back the tasks it held. *)
Theorem remove_task_effect (now : Z) (a : Agent) (t : string) :
  let a' := remove_task now a t in
  (t ∉ current_tasks a → a' = a) ∧
  (t ∈ current_tasks a →
     (∃ l1 l2, current_tasks a = l1 ++ t :: l2 ∧ (t ∉ l1) ∧ current_tasks a' = l1 ++ l2) ∧
     status a' = (if decide (current_tasks a' = []) then IDLE else BUSY) ∧
     last_activity a' = now) ∧
  (∀ now0, t ∉ current_tasks a → (add_task now0 a t).1 = true →
     current_tasks (remove_task now (add_task now0 a t).2 t) = current_tasks a).
Proof.
  intros a'. unfold a', remove_task. split_and!.
  - intros Hout. by rewrite bool_decide_false.
  - intros Hin. rewrite bool_decide_true by done. simpl.
    split_and!; [by apply list_remove_split | | done].
    unfold busy_or_idle. simpl. by destruct (list_remove t (current_tasks a)).
  - intros now0 Hout. unfold add_task. case_bool_decide; [done|]. intros _.
    cbn [snd]. simpl. rewrite bool_decide_true.
    + simpl. by apply list_remove_absent.
    + apply elem_of_app. right. by left.
Qed.

(** * Statistics of a run, and a stopped bus *)

Lemma statistics_inv now b st :
  statistics now b = Returns st →
  ∃ uptime utilization rate,
    total_seconds (now - start_time (metrics b)) = Returns uptime ∧
    int_truediv (size (message_queue b)) (max_size (message_queue b)) = Returns utilization ∧
    int_truediv (messages_delivered (metrics b)) (Z.max 1 (messages_sent (metrics b)))
      = Returns rate ∧
    stat_metrics st = metrics b ∧
    queue_size st = size (message_queue b) ∧
    queue_capacity st = max_size (message_queue b) ∧
    queue_utilization st = float_mul utilization hundred ∧
    success_rate st = float_mul rate hundred ∧
    history_size st = Z.of_nat (length (message_history b)) ∧
    active_subscribers st = Z.of_nat (length (subscribers b)) ∧
    failed_delivery_queues st = Z.of_nat (length (failed_deliveries b)).
Proof.
  unfold statistics.
  destruct (total_seconds _) as [uptime|] eqn:Hu; [|done].
  destruct (int_truediv (size _) _) as [utilization|] eqn:Hq; [|done].
  destruct (int_truediv (messages_delivered _) _) as [rate|] eqn:Hr; [|done].
  cbn. intros [= <-]. by exists uptime, utilization, rate.
Qed.

(** X25. On a bus of positive capacity, after any run, [get_statistics]
    returns a snapshot as soon as the uptime and [messages_delivered] are
    below 2^63, and every snapshot it returns is consistent: the queue
    size is between 0 and the capacity, and the utilization, a float, is
    between 0 and 100; the number of active subscribers is the
    [total_subscribers] gauge; the history holds at most 10000 messages;
    there are no more backlogs than subscribers. *)
Theorem statistics_are_consistent (start cap : Z) (calls : list (Z * bus_call)) (now : Z) :
  0 < cap →
  (Z.abs (now - start_time (metrics (bus_after start cap calls))) < 2 ^ 63 →
   Z.abs (messages_delivered (metrics (bus_after start cap calls))) < 2 ^ 63 →
   ∃ st, (get_statistics now (bus_after start cap calls)).1 = Returns st) ∧
  ∀ st, (get_statistics now (bus_after start cap calls)).1 = Returns st →
    0 ≤ queue_size st ≤ queue_capacity st ∧ queue_capacity st = cap ∧
    (∃ u, float_value (queue_utilization st) = Some u ∧ (0 <= u)%Q ∧ (u <= 100)%Q) ∧
    active_subscribers st = total_subscribers (stat_metrics st) ∧
    history_size st ≤ 10000 ∧
    failed_delivery_queues st ≤ active_subscribers st.
Proof.
  intros Hcap. set (b := bus_after start cap calls).
  destruct (bus_after_inv start cap calls ltac:(lia)) as [Hq Hmax Hbound Hs Hf Hfs].
  fold b in Hq, Hmax, Hbound, Hs, Hf, Hfs.
  destruct (bus_after_gauges start cap calls) as [Hg _]. fold b in Hg.
  pose proof (bus_after_history_bound start cap calls) as Hh. fold b in Hh.
  unfold history_maxlen in Hh.
  assert (0 ≤ size (message_queue b)) as H0.
  { unfold size. rewrite (inv_size _ Hq). lia. }
  split.
  - intros Hup Hdel. assert (0 < 2 ^ 63) as Hp by done.
    destruct (int_truediv_within (now - start_time (metrics b)) microseconds_per_second 1 63)
      as (uptime & Hu & _); [done | done | lia | unfold microseconds_per_second; lia |].
    destruct (int_truediv_within (size (message_queue b)) (max_size (message_queue b)) 1 0)
      as (utilization & Hut & _); [lia | done | lia | lia |].
    destruct (int_truediv_within (messages_delivered (metrics b))
                (Z.max 1 (messages_sent (metrics b))) 1 63)
      as (rate & Hr & _); [lia | done | lia | nia |].
    unfold get_statistics, statistics, total_seconds in *. cbn [fst].
    rewrite Hu, Hut, Hr. cbn. by eexists.
  - intros st Hst. unfold get_statistics in Hst. cbn [fst] in Hst.
    apply statistics_inv in Hst
      as (uptime & utilization & rate & _ & Hut & _ & -> & -> & -> & -> & _ & -> & -> & ->).
    rewrite Hmax in *.
    split_and!; try done; try lia.
    + destruct (percentage_bounds (size (message_queue b)) cap utilization)
        as (u & Hu & ? & ?); [lia | lia | done |].
      by exists u.
    + assert (dict_keys (failed_deliveries b) ⊆+ dict_keys (subscribers b)) as Hsub.
      { apply NoDup_submseteq; [done|]. exact Hfs. }
      apply submseteq_length in Hsub. unfold dict_keys in Hsub.
      rewrite !length_fmap in Hsub. lia.
Qed.

Lemma statistics_are_consistent_witness :
  (Z.abs (9 - start_time (metrics
            (bus_after 0 5 [(1, CallSend (sample_message "a" 1 None))]))) < 2 ^ 63 →
   Z.abs (messages_delivered (metrics
            (bus_after 0 5 [(1, CallSend (sample_message "a" 1 None))]))) < 2 ^ 63 →
   ∃ st, (get_statistics 9 (bus_after 0 5 [(1, CallSend (sample_message "a" 1 None))])).1
           = Returns st) ∧
  ∀ st, (get_statistics 9 (bus_after 0 5 [(1, CallSend (sample_message "a" 1 None))])).1
          = Returns st →
    0 ≤ queue_size st ≤ queue_capacity st ∧ queue_capacity st = 5 ∧
    (∃ u, float_value (queue_utilization st) = Some u ∧ (0 <= u)%Q ∧ (u <= 100)%Q) ∧
    active_subscribers st = total_subscribers (stat_metrics st) ∧
    history_size st ≤ 10000 ∧
    failed_delivery_queues st ≤ active_subscribers st.
Proof.
  apply (statistics_are_consistent 0 5 [(1, CallSend (sample_message "a" 1 None))] 9).
  lia.
Defined.

Lemma send_message_running now b m : running (send_message now b m).2 = running b.
Proof.
  unfold send_message. destruct (_apply_filters b m); [|done]. cbn [negb].
  destruct (is_expired now m); [done|].
  destruct (put (message_queue b) m) as [[|] q]; [|done]. cbn [snd].
  unfold _notify_websocket_clients. simpl. by destruct (websocket_clients b).
Qed.

Lemma send_message_backlog_size now b m :
  size (message_queue (send_message now b m).2) - messages_sent (metrics (send_message now b m).2)
    = size (message_queue b) - messages_sent (metrics b).
Proof.
  destruct (send_message_spec now b m) as (_ & -> & _ & _ & _ & -> & _).
  destruct (_ && _) eqn:E; [|lia].
  apply andb_true_iff in E as [_ Hroom]. apply negb_true_iff in Hroom.
  unfold is_full in Hroom. apply bool_decide_eq_false in Hroom.
  rewrite put_accepts by lia. unfold size. simpl. lia.
Qed.

Lemma unsubscribe_running b a : running (unsubscribe b a) = running b.
Proof.
  unfold unsubscribe. destruct (dict_in a (subscribers b)); [|done].
  cbn [failed_deliveries with_metrics with_subscribers].
  by destruct (dict_in a (failed_deliveries b)).
Qed.

Lemma stopped_step b c (d f k : Z) :
  c.2 ≠ CallStart →
  running b = false ∧ messages_delivered (metrics b) = d ∧
  messages_failed (metrics b) = f ∧
  size (message_queue b) - messages_sent (metrics b) = k →
  running (bus_do b c) = false ∧ messages_delivered (metrics (bus_do b c)) = d ∧
  messages_failed (metrics (bus_do b c)) = f ∧
  size (message_queue (bus_do b c)) - messages_sent (metrics (bus_do b c)) = k.
Proof.
  intros Hc Hb.
  assert (∀ now b m,
    running b = false ∧ messages_delivered (metrics b) = d ∧
    messages_failed (metrics b) = f ∧
    size (message_queue b) - messages_sent (metrics b) = k →
    running (send_message now b m).2 = false ∧
    messages_delivered (metrics (send_message now b m).2) = d ∧
    messages_failed (metrics (send_message now b m).2) = f ∧
    size (message_queue (send_message now b m).2)
      - messages_sent (metrics (send_message now b m).2) = k) as Hsend.
  { intros now b1 m (Hr & Hd & Hf & Hk).
    rewrite send_message_running, send_message_backlog_size.
    by destruct (send_message_spec now b1 m) as (_ & _ & _ & _ & _ & _ & _ & -> & ->). }
  destruct c as [now [| |fresh_id a cb|a|m| | |a|g|r|cl|cl|]];
    unfold bus_do; cbn [fst snd] in *; try done.
  - by destruct Hb as (_ & ? & ? & ?).
  - unfold subscribe. by apply Hsend.
  - rewrite unsubscribe_running.
    by destruct (unsubscribe_metrics_queue b a) as (-> & -> & -> & -> & _).
  - by apply Hsend.
  - destruct Hb as (Hr & ? & ? & ?). by rewrite Hr.
  - destruct Hb as (Hr & ? & ? & ?). by rewrite Hr.
  - apply (retry_agents_preserves
      (λ b, running b = false ∧ messages_delivered (metrics b) = d ∧
            messages_failed (metrics b) = f ∧
            size (message_queue b) - messages_sent (metrics b) = k)
      (λ _, True)); try done.
    + intros now0 b1 m Hb1 _. by apply Hsend.
    + intros b1 a1 ms _ _. by apply Forall_forall.
Qed.

(** X26. A bus that is not running keeps what it accepts and delivers
    nothing.  From a stopped bus, as long as [start] is not called, the
    bus stays stopped whatever else is called, turns of the two loops
    included; [messages_delivered] and [messages_failed] do not move; and
    the queue grows by exactly the number of messages accepted. *)
Theorem stopped_bus_delivers_nothing (b0 : CommunicationBus) (calls : list (Z * bus_call)) :
  running b0 = false →
  Forall (λ c, c.2 ≠ CallStart) calls →
  let b := foldl bus_do b0 calls in
  running b = false ∧
  messages_delivered (metrics b) = messages_delivered (metrics b0) ∧
  messages_failed (metrics b) = messages_failed (metrics b0) ∧
  size (message_queue b) - size (message_queue b0)
    = messages_sent (metrics b) - messages_sent (metrics b0).
Proof.
  intros Hstopped Hcalls b.
  cut (running b = false ∧
       messages_delivered (metrics b) = messages_delivered (metrics b0) ∧
       messages_failed (metrics b) = messages_failed (metrics b0) ∧
       size (message_queue b) - messages_sent (metrics b)
         = size (message_queue b0) - messages_sent (metrics b0)).
  { intros (? & ? & ? & ?). split_and!; try done. lia. }
  unfold b. clear b.
  generalize (eq_refl (messages_delivered (metrics b0)))
             (eq_refl (messages_failed (metrics b0)))
             (eq_refl (size (message_queue b0) - messages_sent (metrics b0))).
  generalize (messages_delivered (metrics b0)) at 2 3.
  generalize (messages_failed (metrics b0)) at 2 3.
  generalize (size (message_queue b0) - messages_sent (metrics b0)) at 2 3.
  intros k f d Hd Hf Hk. revert b0 Hstopped Hd Hf Hk.
  induction Hcalls as [|c calls Hc Hcalls IH]; intros b0 Hstopped Hd Hf Hk; [done|].
  simpl.
  destruct (stopped_step b0 c d f k Hc) as (? & ? & ? & ?); [done|].
  by apply IH.
Qed.

Lemma stopped_bus_delivers_nothing_witness :
  let b0 := subscribe 0 "w" (CommunicationBus_init 0 5) "bob" (λ _, true) in
  let b := foldl bus_do b0 [(1, CallSend (sample_message "a" 1 None)); (2, CallProcess)] in
  running b = false ∧
  messages_delivered (metrics b) = messages_delivered (metrics b0) ∧
  messages_failed (metrics b) = messages_failed (metrics b0) ∧
  size (message_queue b) - size (message_queue b0)
    = messages_sent (metrics b) - messages_sent (metrics b0).
Proof.
  intros b0.
  apply (stopped_bus_delivers_nothing b0
           [(1, CallSend (sample_message "a" 1 None)); (2, CallProcess)]).
  - reflexivity.
  - repeat constructor; simpl; discriminate.
Defined.

(** * Expiry over time, and a bus without capacity *)

(** X27. Expiry is a strict bound and is for good.  A message with a
    positive TTL is live up to and including the instant [ttl] seconds
    after its timestamp, and expired at every later instant; a message
    found expired stays expired, so [send_message] refuses it from then
    on and never queues it. *)
Theorem expiry_is_strict_and_permanent (now now' : Z) (m : Message) (t : Z)
    (b : CommunicationBus) :
  ttl m = Some t → 0 < t →
  (is_expired now m = false ↔ now - timestamp m ≤ t * 1000000) ∧
  (is_expired now m = true → now ≤ now' →
     is_expired now' m = true ∧
     (send_message now' b m).1 = false ∧
     message_queue (send_message now' b m).2 = message_queue b ∧
     messages_sent (metrics (send_message now' b m).2) = messages_sent (metrics b)).
Proof.
  intros Httl Ht.
  assert (∀ n, is_expired n m = bool_decide (t * 1000000 < n - timestamp m)) as Hexp.
  { intros n. unfold is_expired, microseconds_per_second. rewrite Httl.
    by rewrite bool_decide_false by lia. }
  split.
  - rewrite Hexp, bool_decide_eq_false. lia.
  - rewrite !Hexp. intros Hnow%bool_decide_eq_true Hle.
    assert (is_expired now' m = true) as Hexp'.
    { rewrite Hexp. apply bool_decide_eq_true. lia. }
    destruct (send_message_spec now' b m) as (-> & -> & _ & _ & _ & -> & _).
    rewrite Hexp', andb_false_r. simpl.
    split_and!; [by apply bool_decide_eq_true; lia | done | done | lia].
Qed.

Lemma expiry_is_strict_and_permanent_witness :
  let m := sample_message "a" 1 (Some 2) in
  let b := CommunicationBus_init 0 5 in
  (is_expired 2000000 m = false ↔ 2000000 - timestamp m ≤ 2 * 1000000) ∧
  (is_expired 2000000 m = true → 2000000 ≤ 2000001 →
     is_expired 2000001 m = true ∧
     (send_message 2000001 b m).1 = false ∧
     message_queue (send_message 2000001 b m).2 = message_queue b ∧
     messages_sent (metrics (send_message 2000001 b m).2) = messages_sent (metrics b)).
Proof.
  intros m b. apply (expiry_is_strict_and_permanent 2000000 2000001 m 2 b).
  - reflexivity.
  - lia.
Defined.

(** X28. A bus whose queue size is 0 or negative accepts nothing: after
    any run its queue is empty, [messages_sent] is 0 and [send_message]
    returns [False] for every message; [subscribe] still registers the
    subscriber, whose welcome message is lost. *)
Theorem bus_without_capacity (start cap : Z) (calls : list (Z * bus_call))
    (now : Z) (m : Message) :
  cap ≤ 0 →
  let b := bus_after start cap calls in
  _queue (message_queue b) = [] ∧ size (message_queue b) = 0 ∧
  messages_sent (metrics b) = 0 ∧
  (send_message now b m).1 = false ∧
  (∀ fresh_id a cb,
     dict_get (subscribers (subscribe now fresh_id b a cb)) a = Some cb ∧
     _queue (message_queue (subscribe now fresh_id b a cb)) = []).
Proof.
  intros Hcap b.
  assert (_queue (message_queue b) = [] ∧ _size (message_queue b) = 0 ∧
          max_size (message_queue b) = cap ∧ messages_sent (metrics b) = 0)
    as (Hq & Hsize & Hmax & Hsent).
  { unfold b. rewrite bus_after_unfold.
    apply (bus_run_preserves
      (λ b, _queue (message_queue b) = [] ∧ _size (message_queue b) = 0 ∧
            max_size (message_queue b) = cap ∧ messages_sent (metrics b) = 0)
      (λ _, True)); try apply submitted_unrestricted; try by untouched.
    - intros now0 b0 m0 (Hq & Hsize & Hmax & Hsent) _.
      destruct (send_message_spec now0 b0 m0) as (_ & -> & _ & _ & _ & -> & _).
      unfold is_full. rewrite bool_decide_true by lia.
      rewrite andb_false_r. split_and!; try done. lia.
    - intros b0 a (Hq & Hsize & Hmax & Hsent).
      by destruct (unsubscribe_metrics_queue b0 a) as (-> & -> & _).
    - intros b0 (Hq & Hsize & Hmax & Hsent). simpl. rewrite get_unfold, Hq. by simpl.
    - intros now0 b0 (Hq & Hsize & Hmax & Hsent).
      destruct (cleanup_once_fields now0 b0) as (-> & _ & _ & _ & -> & _).
      unfold clear_expired. by rewrite Hq. }
  assert (∀ b1, message_queue b1 = message_queue b →
            (send_message now b1 m).1 = false ∧
            message_queue (send_message now b1 m).2 = message_queue b) as Hsend.
  { intros b1 Hb1. destruct (send_message_spec now b1 m) as (-> & -> & _).
    unfold is_full. rewrite Hb1, bool_decide_true by lia.
    by rewrite andb_false_r. }
  split_and!; try done.
  - by apply Hsend.
  - intros fresh_id a cb.
    destruct (subscribe_fields now fresh_id b a cb) as [-> Hqueue].
    split; [apply dict_get_set_eq|].
    rewrite Hqueue. unfold is_full. rewrite bool_decide_true by lia.
    by rewrite andb_false_r.
Qed.

Lemma bus_without_capacity_witness :
  let b := bus_after 0 0 [(1, CallSend (sample_message "a" 1 None))] in
  let m := sample_message "b" 4 None in
  _queue (message_queue b) = [] ∧ size (message_queue b) = 0 ∧
  messages_sent (metrics b) = 0 ∧
  (send_message 2 b m).1 = false ∧
  (∀ fresh_id a cb,
     dict_get (subscribers (subscribe 2 fresh_id b a cb)) a = Some cb ∧
     _queue (message_queue (subscribe 2 fresh_id b a cb)) = []).
Proof.
  intros b m.
  apply (bus_without_capacity 0 0 [(1, CallSend (sample_message "a" 1 None))] 2 m).
  lia.
Defined.
